(** * ViLT fast image processor: resize, pad and mask

    A shallow embedding of [ViltImageProcessorFast._preprocess]
    (src/transformers/models/vilt/image_processing_vilt_fast.py) together
    with the properties its specification states about the resize target,
    the padding masks, the shape grouping and the returned container, and
    further properties of the resizer, the padder and the two passes over
    the shape groups. *)

From Stdlib Require Import ZArith QArith Qround Qabs Qpower SpecFloat.
From Stdlib Require Import List Bool String Lia Lqa.
Import ListNotations.

Set Implicit Arguments.

(** ** Exceptions and results *)

Inductive exn : Set :=
| ZeroDivisionError
| OverflowError
| TypeError
| UnboundLocalError
| RuntimeError
| KeyError
| IndexError
| ValueError.

Inductive result (A : Type) : Type :=
| Ok (a : A)
| Raise (e : exn).

Arguments Ok {A} a.
Arguments Raise {A} e.

Definition bind {A B : Type} (c : result A) (k : A -> result B) : result B :=
  match c with
  | Ok a => k a
  | Raise e => Raise e
  end.

Declare Scope result_scope.
Delimit Scope result_scope with result.
Notation "x <- c ;; k" := (bind c (fun x => k))
  (at level 61, c at next level, right associativity) : result_scope.
Notation "' p <- c ;; k" := (bind c (fun x => let 'p := x in k))
  (at level 61, p pattern, c at next level, right associativity) : result_scope.
Local Open Scope result_scope.

Fixpoint mapM {A B : Type} (f : A -> result B) (l : list A) : result (list B) :=
  match l with
  | [] => Ok []
  | a :: l' => b <- f a;; bs <- mapM f l';; Ok (b :: bs)
  end.

(** ** IEEE-754 binary64 rounding

    Python floats are binary64 numbers.  A finite float is represented by
    the rational it denotes; every arithmetic operation returns the exact
    result rounded to the nearest representable number, ties to even
    (53 bits of precision, least exponent -1074). *)

Module Binary64.

Local Open Scope Q_scope.

Definition prec : Z := 53.
Definition emin : Z := -1074.
Definition emax : Z := 1024.

(** [ilog2 a] is the integer [e] with [2^e <= a < 2^(e+1)], for [0 < a]. *)
Definition ilog2 (a : Q) : Z :=
  let k := (Z.log2 (Qnum a) - Z.log2 (Zpos (Qden a)))%Z in
  if Qle_bool (2 ^ k) a then k else (k - 1)%Z.

(** Nearest integer, ties to even. *)
Definition rne (x : Q) : Z :=
  let f := Qfloor x in
  match Qcompare (x - inject_Z f) (1 # 2) with
  | Lt => f
  | Gt => (f + 1)%Z
  | Eq => if Z.even f then f else (f + 1)%Z
  end.

(** Exponent of the unit in the last place of the binade of [a]. *)
Definition ulp_exp (a : Q) : Z := Z.max (ilog2 a - (prec - 1)) emin.

(** Rounding to the grid of the multiples of [2^e]. *)
Definition grid (e : Z) (a : Q) : Q := inject_Z (rne (a / 2 ^ e)) * 2 ^ e.

Definition round_pos (a : Q) : Q := grid (ulp_exp a) a.

Definition round (q : Q) : Q :=
  match Qnum q with
  | Z0 => 0
  | Zpos _ => round_pos q
  | Zneg _ => - round_pos (- q)
  end.

(** A rounded result of magnitude [2^emax] or more is not a finite
    float. *)
Definition overflows (q : Q) : bool := Qle_bool (2 ^ emax) (Qabs (round q)).

(** Rounding with the overflow check, for the two operations in which
    CPython raises [OverflowError] instead of yielding an infinity: the
    conversion of an int to float and the true division of two ints. *)
Definition checked (q : Q) : result Q :=
  if overflows q then Raise OverflowError else Ok (round q).

(** Truncation toward zero, [int(x)] on a float. *)
Definition trunc (x : Q) : Z := Z.quot (Qnum x) (Zpos (Qden x)).

(** Magnitudes up to [2^1000] are far from the overflow threshold. *)
Definition small (q : Q) : Prop := Qabs q <= 2 ^ 1000.

(** The rational a float of the standard library's specification of
    IEEE-754 arithmetic denotes, and the floats of that specification
    for an integer. *)
Definition of_spec_float (x : spec_float) : Q :=
  match x with
  | S754_finite s m e =>
      (if s then - (1) else 1) * (inject_Z (Zpos m) * 2 ^ e)
  | _ => 0
  end.

Definition spec_float_of_Z (z : Z) : spec_float :=
  binary_normalize prec emax z 0 false.

End Binary64.

(** ** Python numbers: [int] and [float] *)

(** An int, a finite float (the rational it denotes; the sign of a zero
    is not kept, no operation of the resizer depends on it), an infinity
    with its sign, or a NaN. *)
Inductive number : Set :=
| Int (z : Z)
| Float (x : Q)
| Inf (negative : bool)
| NaN.

(** The value of a finite number; infinities and NaN have none and are
    given 0. *)
Definition value_of (n : number) : Q :=
  match n with
  | Int z => inject_Z z
  | Float x => x
  | Inf _ | NaN => 0
  end.

Definition finite (n : number) : Prop :=
  match n with
  | Int _ | Float _ => True
  | Inf _ | NaN => False
  end.

(** An int converts to float without rounding when it has at most 53
    bits. *)
Definition convertible (n : number) : Prop :=
  match n with
  | Int z => (Z.abs z <= 2 ^ 53)%Z
  | Float _ => True
  | Inf _ | NaN => False
  end.

Definition is_float (n : number) : Prop :=
  match n with
  | Int _ => False
  | Float _ | Inf _ | NaN => True
  end.

Definition is_zero (n : number) : bool :=
  match n with
  | Int z => (z =? 0)%Z
  | Float x => Qeq_bool x 0
  | Inf _ | NaN => false
  end.

Definition is_negative (n : number) : bool :=
  match n with
  | Int z => (z <? 0)%Z
  | Float x => (Qnum x <? 0)%Z
  | Inf s => s
  | NaN => false
  end.

(** The float of an exact result [q] of float arithmetic: the nearest
    float, or the infinity of the sign of [q] when that overflows. *)
Definition rounded (q : Q) : number :=
  if Binary64.overflows q then Inf (Qnum q <? 0)%Z else Float (Binary64.round q).

(** The conversion of an operand to float: an int too large for a float
    raises [OverflowError]. *)
Definition as_float (n : number) : result number :=
  match n with
  | Int z => r <- Binary64.checked (inject_Z z);; Ok (Float r)
  | _ => Ok n
  end.

(** IEEE-754 division, multiplication and addition of two floats: NaN
    propagates, an infinity combines by the rules of the standard, and
    an overflow yields an infinity.  The division is called with a divisor
    that is not zero. *)
Definition float_div (a b : number) : number :=
  match a, b with
  | NaN, _ | _, NaN => NaN
  | Inf _, Inf _ => NaN
  | Inf s, y => Inf (xorb s (is_negative y))
  | _, Inf _ => Float 0
  | x, y => rounded (value_of x / value_of y)
  end.

Definition float_mul (a b : number) : number :=
  match a, b with
  | NaN, _ | _, NaN => NaN
  | Inf s, Inf t => Inf (xorb s t)
  | Inf s, y => if is_zero y then NaN else Inf (xorb s (is_negative y))
  | x, Inf t => if is_zero x then NaN else Inf (xorb (is_negative x) t)
  | x, y => rounded (value_of x * value_of y)
  end.

Definition float_add (a b : number) : number :=
  match a, b with
  | NaN, _ | _, NaN => NaN
  | Inf s, Inf t => if Bool.eqb s t then Inf s else NaN
  | Inf s, _ => Inf s
  | _, Inf t => Inf t
  | x, y => rounded (value_of x + value_of y)
  end.

(** [a / b]: true division.  On two ints the exact quotient is rounded
    once, and a quotient too large for a float raises; otherwise both
    operands are converted to float first, and a zero divisor raises. *)
Definition py_truediv (a b : number) : result number :=
  match a, b with
  | Int x, Int y =>
      if (y =? 0)%Z then Raise ZeroDivisionError
      else r <- Binary64.checked (inject_Z x / inject_Z y);; Ok (Float r)
  | _, _ =>
      x <- as_float a;;
      y <- as_float b;;
      if is_zero y then Raise ZeroDivisionError else Ok (float_div x y)
  end.

Definition py_mul (a b : number) : result number :=
  match a, b with
  | Int x, Int y => Ok (Int (x * y))
  | _, _ =>
      x <- as_float a;;
      y <- as_float b;;
      Ok (float_mul x y)
  end.

Definition py_add (a b : number) : result number :=
  match a, b with
  | Int x, Int y => Ok (Int (x + y))
  | _, _ =>
      x <- as_float a;;
      y <- as_float b;;
      Ok (float_add x y)
  end.

(** [a > b].  Comparisons between ints and floats are exact in Python;
    every comparison with a NaN is false. *)
Definition py_gt (a b : number) : bool :=
  match a, b with
  | NaN, _ | _, NaN => false
  | Inf s, Inf t => negb s && t
  | Inf s, _ => negb s
  | _, Inf t => t
  | x, y => negb (Qle_bool (value_of x) (value_of y))
  end.

(** [max(a, b)] keeps its first argument unless the second is greater. *)
Definition py_max (a b : number) : number :=
  if py_gt b a then b else a.

(** [int(x)]: truncation toward zero; an infinity raises [OverflowError]
    and a NaN [ValueError]. *)
Definition py_int (n : number) : result Z :=
  match n with
  | Int z => Ok z
  | Float x => Ok (Binary64.trunc x)
  | Inf _ => Raise OverflowError
  | NaN => Raise ValueError
  end.

(** [a // b] on ints: floor division. *)
Definition py_floordiv (a b : Z) : result Z :=
  if (b =? 0)%Z then Raise ZeroDivisionError else Ok (a / b)%Z.

(** ** The resize target (lines 116-141 of the source) *)

Definition MAX_LONGER_EDGE : Z := 1333.
Definition MAX_SHORTER_EDGE : Z := 800.

(** [longer = int(MAX_LONGER_EDGE / MAX_SHORTER_EDGE * shorter)] *)
Definition longer_edge (shorter : Z) : result Z :=
  ratio <- py_truediv (Int MAX_LONGER_EDGE) (Int MAX_SHORTER_EDGE);;
  p <- py_mul ratio (Int shorter);;
  py_int p.

(** Lines 123-128: the dimensions before the longer-edge check. *)
Definition initial_dimensions (shorter heights widths : Z)
  : result (number * number) :=
  if (heights <? widths)%Z then
    q <- py_truediv (Int shorter) (Int heights);;
    new_widths <- py_mul (Int widths) q;;
    Ok (Int shorter, new_widths)
  else
    q <- py_truediv (Int shorter) (Int widths);;
    new_heights <- py_mul (Int heights) q;;
    Ok (new_heights, Int shorter).

(** Lines 131-134: scale down when the longer side exceeds [longer]. *)
Definition clamp_dimensions (longer : Z) (new_heights new_widths : number)
  : result (number * number) :=
  if py_gt (py_max new_heights new_widths) (Int longer) then
    scale <- py_truediv (Int longer) (py_max new_heights new_widths);;
    nh <- py_mul new_heights scale;;
    nw <- py_mul new_widths scale;;
    Ok (nh, nw)
  else Ok (new_heights, new_widths).

(** Lines 136-137: [int(x + 0.5)]. *)
Definition int_round (x : number) : result Z :=
  y <- py_add x (Float (1 # 2));;
  py_int y.

(** Lines 139-141: [x // size_divisor * size_divisor] when a divisor is set. *)
Definition floor_to_divisor (size_divisor : option Z) (x : Z) : result Z :=
  match size_divisor with
  | Some d => q <- py_floordiv x d;; Ok (q * d)%Z
  | None => Ok x
  end.

Definition rounded_dimensions (shorter heights widths : Z) : result (Z * Z) :=
  longer <- longer_edge shorter;;
  '(new_heights, new_widths) <- initial_dimensions shorter heights widths;;
  '(new_heights, new_widths) <- clamp_dimensions longer new_heights new_widths;;
  new_heights <- int_round new_heights;;
  new_widths <- int_round new_widths;;
  Ok (new_heights, new_widths).

Definition resize_target (shorter : Z) (size_divisor : option Z)
  (heights widths : Z) : result (Z * Z) :=
  '(new_heights, new_widths) <- rounded_dimensions shorter heights widths;;
  new_heights <- floor_to_divisor size_divisor new_heights;;
  new_widths <- floor_to_divisor size_divisor new_widths;;
  Ok (new_heights, new_widths).

(** *** The resizer in the words of the specification *)

(** Written after the specification, for comparison with [longer_edge]:
    [round(MAX_LONGER_EDGE / MAX_SHORTER_EDGE * shortest_edge)], the nearest
    integer to the exact product (ties to even, as Python's [round]). *)
Definition spec_longer_edge (shorter : Z) : Z :=
  Binary64.rne (inject_Z MAX_LONGER_EDGE / inject_Z MAX_SHORTER_EDGE * inject_Z shorter).

(** Written after the specification, for comparison with
    [initial_dimensions]: if [h < w] then [new_h = shortest_edge] and
    [new_w = w * shortest_edge / h], else [new_h = h * shortest_edge / w]
    and [new_w = shortest_edge], as exact rationals. *)
Definition spec_initial_dimensions (shorter h w : Z) : Q * Q :=
  if (h <? w)%Z
  then (inject_Z shorter, inject_Z w * inject_Z shorter / inject_Z h)
  else (inject_Z h * inject_Z shorter / inject_Z w, inject_Z shorter).

(** *** Ranges of the resizer's numbers *)

(** The float nearest to 1333/800, [0x1.aa8f5c28f5c29p+0]. *)
Definition ratio : Q := 7504122879106089 # 4503599627370496.

(** Ranges of the numbers the resizer handles.  For a positive target they
    are positive, within [2^(-53), 2^93], and exactly convertible to float;
    the longer-edge check leaves them between 0 and [L + 1/4].  For a
    target that is not positive they lie between [-2^k] and 0. *)
Definition positive_dim (x : number) : Prop :=
  convertible x /\ 2 ^ (-53) <= value_of x /\ value_of x <= 2 ^ 93.

Definition bounded_dim (L : Z) (x : number) : Prop :=
  convertible x /\ 0 <= value_of x /\ value_of x <= inject_Z L + (1 # 4).

Definition nonpositive_dim (k : Z) (x : number) : Prop :=
  convertible x /\ - 2 ^ k <= value_of x /\ value_of x <= 0.

(** Two roundings away from an exact value: a relative error of at most
    [2^(-51)]. *)
Definition close_to (v x : Q) : Prop := Qabs (v - x) <= x * (1 # 2251799813685248).

(** An approximation [x] of [v] with a relative error of at most [e]. *)
Definition within (e v x : Q) : Prop := v * (1 - e) <= x /\ x <= v * (1 + e).

(** What the rounded sides are, [rs] for the side held at [S] and [rl]
    for the scaled one, [d <= n] being the original sides and [L] the
    longer-edge bound: either the shorter side is [S] and the longer one is
    less than a pixel away from [n * S / d], or the longer side is [L] and
    the shorter one is less than a pixel away from [L * d / n]. *)
Definition rounded_sides (S L n d rs rl : Z) : Prop :=
  if (n * S <=? L * d)%Z
  then rs = S /\ (0 <= rl <= L)%Z /\ (Z.abs (rl * d - n * S) < d)%Z
  else rl = L /\ (0 <= rs <= S)%Z /\ (Z.abs (rs * n - L * d) < n)%Z.

(** ** Images, masks and stacked tensors *)

Section Tensors.

Local Open Scope nat_scope.

Variable pixel : Type.

(** An image is a tensor of shape (channels, height, width), stored in
    row-major order. *)
Record image : Type := Image {
  channels : nat;
  height : nat;
  width : nat;
  pixels : list pixel
}.

(** A pixel mask is an int64 tensor of shape (height, width). *)
Record mask : Type := Mask {
  mask_height : nat;
  mask_width : nat;
  mask_values : list Z
}.

(** A stacked tensor of shape (N, channels, height, width), kept as its N
    slices along the first axis. *)
Record stacked : Type := Stacked {
  s_channels : nat;
  s_height : nat;
  s_width : nat;
  s_slices : list (list pixel)
}.

Record stacked_masks : Type := StackedMasks {
  sm_height : nat;
  sm_width : nat;
  sm_slices : list (list Z)
}.

Definition shape_key : Set := (nat * nat * nat)%type.

Definition shape_eqb (a b : shape_key) : bool :=
  let '(c1, h1, w1) := a in
  let '(c2, h2, w2) := b in
  (c1 =? c2) && (h1 =? h2) && (w1 =? w2).

Definition image_shape (img : image) : shape_key :=
  (channels img, height img, width img).

(** [image.shape[-2:]] *)
Definition spatial_size (img : image) : nat * nat := (height img, width img).

(** The test of line 180: the image differs from [max_size] in height or
    in width. *)
Definition needs_padding (max_size : nat * nat) (img : image) : bool :=
  negb (height img =? fst max_size) || negb (width img =? snd max_size).

(** [torch.stack]: the tensors must be at least one and of one shape. *)
Definition torch_stack (l : list image) : result stacked :=
  match l with
  | [] => Raise RuntimeError
  | first :: _ =>
      if forallb (fun img => shape_eqb (image_shape img) (image_shape first)) l
      then Ok (Stacked (channels first) (height first) (width first) (map pixels l))
      else Raise RuntimeError
  end.

Definition torch_stack_masks (l : list mask) : result stacked_masks :=
  match l with
  | [] => Raise RuntimeError
  | first :: _ =>
      if forallb (fun m => (mask_height m =? mask_height first)
                           && (mask_width m =? mask_width first)) l
      then Ok (StackedMasks (mask_height first) (mask_width first) (map mask_values l))
      else Raise RuntimeError
  end.

(** [stacked[j]] *)
Definition stacked_get (s : stacked) (j : nat) : result image :=
  match nth_error (s_slices s) j with
  | Some px => Ok (Image (s_channels s) (s_height s) (s_width s) px)
  | None => Raise IndexError
  end.

(** [torch.zeros(size, dtype=torch.int64)] and [torch.ones(...)] *)
Definition torch_zeros (size : nat * nat) : mask :=
  Mask (fst size) (snd size) (repeat 0%Z (fst size * snd size)).

Definition torch_ones (size : nat * nat) : mask :=
  Mask (fst size) (snd size) (repeat 1%Z (fst size * snd size)).

(** [m.clone()] is a fresh tensor with the same contents: writing into
    the clone leaves [m] as it was. *)
Definition clone (m : mask) : mask := m.

(** [m[:rows, :cols].fill_(v)] *)
Definition fill_region (m : mask) (rows cols : nat) (v : Z) : mask :=
  Mask (mask_height m) (mask_width m)
    (map (fun ix : nat * Z =>
            if (fst ix / mask_width m <? rows) && (fst ix mod mask_width m <? cols)
            then v else snd ix)
       (combine (seq 0 (List.length (mask_values m))) (mask_values m))).

(** The entry of a mask at row [r] and column [c]. *)
Definition mask_at (m : mask) (r c : nat) : option Z :=
  if (r <? mask_height m) && (c <? mask_width m)
  then nth_error (mask_values m) (r * mask_width m + c)
  else None.

(** [F.pad(img, [left, top, right, bottom], fill=fill)], constant mode. *)
Definition F_pad (img : image) (padding : nat * nat * nat * nat) (fill : pixel)
  : image :=
  let '(pad_left, pad_top, pad_right, pad_bottom) := padding in
  let H := pad_top + height img + pad_bottom in
  let W := pad_left + width img + pad_right in
  Image (channels img) H W
    (flat_map (fun ch =>
       flat_map (fun r =>
         map (fun c =>
                if (pad_top <=? r) && (r <? pad_top + height img)
                   && (pad_left <=? c) && (c <? pad_left + width img)
                then nth ((ch * height img + (r - pad_top)) * width img + (c - pad_left))
                       (pixels img) fill
                else fill)
           (seq 0 W))
         (seq 0 H))
       (seq 0 (channels img))).

(** The entry of an image at channel [ch], row [r] and column [c]. *)
Definition pixel_at (fill : pixel) (img : image) (ch r c : nat) : pixel :=
  nth ((ch * height img + r) * width img + c) (pixels img) fill.

(** An image holds as many values as its shape says. *)
Definition well_formed (img : image) : Prop :=
  List.length (pixels img) = channels img * height img * width img.

(** *** Shape grouping *)

Definition dict (K V : Type) : Type := list (K * V).

Fixpoint dict_get {V : Type} (key : shape_key) (d : dict shape_key V) : option V :=
  match d with
  | [] => None
  | (k, v) :: d' => if shape_eqb k key then Some v else dict_get key d'
  end.

Fixpoint dict_set {V : Type} (key : shape_key) (v : V) (d : dict shape_key V)
  : dict shape_key V :=
  match d with
  | [] => [(key, v)]
  | (k, v') :: d' =>
      if shape_eqb k key then (k, v) :: d' else (k, v') :: dict_set key v d'
  end.

(** The images already kept under [key]. *)
Definition members_of (key : shape_key) (grouped : dict shape_key (list image))
  : list image :=
  match dict_get key grouped with
  | Some l => l
  | None => []
  end.

(** The grouping loop: every image is appended to the list kept under its
    shape, and its position in that list is recorded at its own index. *)
Fixpoint group_loop (images : list image)
  (grouped : dict shape_key (list image)) (index : list (shape_key * nat))
  : dict shape_key (list image) * list (shape_key * nat) :=
  match images with
  | [] => (grouped, index)
  | img :: rest =>
      let key := image_shape img in
      let members := members_of key grouped in
      group_loop rest (dict_set key (members ++ [img]) grouped)
        (index ++ [(key, List.length members)])
  end.

Definition total_size (grouped : dict shape_key (list image)) : nat :=
  list_sum (map (fun e : shape_key * list image => List.length (snd e)) grouped).

(** What the grouping loop maintains, [seen] being the images consumed
    so far. *)
Record group_inv (seen : list image) (grouped : dict shape_key (list image))
  (index : list (shape_key * nat)) : Prop := {
  inv_length : List.length index = List.length seen;
  inv_lookup : forall i k j,
    nth_error index i = Some (k, j) ->
    exists l img, dict_get k grouped = Some l /\ nth_error l j = Some img
                  /\ nth_error seen i = Some img /\ image_shape img = k;
  inv_cover : forall k l j,
    dict_get k grouped = Some l -> j < List.length l -> In (k, j) index;
  inv_nodup : NoDup index;
  inv_total : total_size grouped = List.length seen
}.

Definition stack_group (entry : shape_key * list image) : shape_key * stacked :=
  let '(c, h, w) := fst entry in
  (fst entry, Stacked c h w (map pixels (snd entry))).

(** Modelled from the spec: [group_images_by_shape] lives in
    image_processing_utils_fast, which is not among the sources.  It
    partitions the images into groups sharing one (channels, height,
    width) shape, each group stacked, and records for every original
    position the group and the slot the image went to. *)
Definition group_images_by_shape (images : list image)
  : dict shape_key stacked * list (shape_key * nat) :=
  let '(grouped, index) := group_loop images [] [] in
  (map stack_group grouped, index).

(** Modelled from the spec: [reorder_images], from the same missing
    module, rebuilds the list in the original order by looking every
    position up in the recorded index. *)
Definition reorder_images (processed : dict shape_key stacked)
  (index : list (shape_key * nat)) : result (list image) :=
  mapM (fun entry : shape_key * nat =>
          match dict_get (fst entry) processed with
          | Some s => stacked_get s (snd entry)
          | None => Raise KeyError
          end) index.

(** Modelled from the spec: [get_max_height_width], also from the missing
    module, is the maximum height and the maximum width over the batch. *)
Definition get_max_height_width (images : list image) : nat * nat :=
  (list_max (map height images), list_max (map width images)).

End Tensors.

Arguments Image {pixel}.
Arguments Stacked {pixel}.

(** ** The processor *)

Record SizeDict : Set := { shortest_edge : option Z }.

(** Class attributes read through [self]. *)
Record processor : Set := {
  self_size_divisor : option Z;
  self_do_pad : option bool
}.

Definition ViltImageProcessorFast : processor :=
  {| self_size_divisor := Some 32%Z; self_do_pad := Some true |}.

(** The keyword arguments [_preprocess] looks at.  A key may be absent, or
    present with the value [None]. *)
Record kwargs : Set := {
  kw_size_divisor : option (option Z);
  kw_do_pad : option (option bool)
}.

Definition kwargs_get {A : Type} (entry : option A) (default : A) : A :=
  match entry with
  | Some v => v
  | None => default
  end.

(** [if do_pad:] on an optional flag: [None] counts as false. *)
Definition truthy (flag : option bool) : bool :=
  match flag with
  | Some true => true
  | _ => false
  end.

(** [return_tensors == "pt"]; [TensorType.PYTORCH] is a string enum whose
    value is ["pt"], so it compares equal too. *)
Definition is_pt (return_tensors : option string) : bool :=
  match return_tensors with
  | Some s => String.eqb s "pt"
  | None => false
  end.

(** The values of [TensorType]; no tensor type at all is fine too. *)
Definition TensorType_values : list string := ["pt"; "tf"; "np"; "jax"; "mlx"]%string.

Definition supported_tensor_type (tensor_type : option string) : bool :=
  match tensor_type with
  | Some t => existsb (String.eqb t) TensorType_values
  | None => true
  end.

Section Preprocess.

Local Open Scope nat_scope.

Variable pixel : Type.
Variable zero : pixel.
Variable interpolation_mode : Type.

(** The resize primitive of torchvision. *)
Variable F_resize :
  stacked pixel -> list Z -> option interpolation_mode -> result (stacked pixel).

(** [BaseImageProcessorFast.rescale_and_normalize], inherited. *)
Variable rescale_and_normalize :
  stacked pixel -> bool -> Q -> bool -> option (list Q) -> option (list Q) ->
  result (stacked pixel).

Inductive value : Type :=
| ImageList (l : list (image pixel))
| ImageTensor (t : stacked pixel)
| MaskList (l : list mask)
| MaskTensor (t : stacked_masks).

(** The returned container. *)
Record BatchFeature : Type := {
  data : list (string * value);
  tensor_type : option string
}.

(** Modelled from the spec: [BatchFeature] lives in
    image_processing_utils, which is not among the sources; the
    specification describes it as a named-field container.  Its
    constructor, called at line 211, keeps the keys and the values it is
    given and fails for a tensor type that is not supported, in the library
    with [ValueError] for a string that is none of the values of
    [TensorType]; the conversion of values that are not yet tensors of the
    requested type is not modelled. *)
Definition new_BatchFeature (d : list (string * value)) (tensor_type : option string)
  : result BatchFeature :=
  if supported_tensor_type tensor_type
  then Ok {| data := d; tensor_type := tensor_type |}
  else Raise ValueError.

(** [data[key] = v] *)
Fixpoint setitem (key : string) (v : value) (d : list (string * value))
  : list (string * value) :=
  match d with
  | [] => [(key, v)]
  | (k, v') :: d' =>
      if String.eqb k key then (k, v) :: d' else (k, v') :: setitem key v d'
  end.

Fixpoint getitem (key : string) (d : list (string * value)) : option value :=
  match d with
  | [] => None
  | (k, v) :: d' => if String.eqb k key then Some v else getitem key d'
  end.

(** Lines 114-146: one shape group through the resizer. *)
Definition resize_group (do_resize : bool) (size : SizeDict)
  (interpolation : option interpolation_mode) (size_divisor : option Z)
  (stacked_images : stacked pixel) : result (stacked pixel) :=
  if do_resize then
    shorter <- match shortest_edge size with
               | Some s => Ok s
               | None => Raise TypeError
               end;;
    '(new_heights, new_widths) <-
      resize_target shorter size_divisor
        (Z.of_nat (s_height stacked_images)) (Z.of_nat (s_width stacked_images));;
    F_resize stacked_images [new_heights; new_widths] interpolation
  else Ok stacked_images.

Definition map_groups (f : stacked pixel -> result (stacked pixel))
  (grouped : dict shape_key (stacked pixel))
  : result (dict shape_key (stacked pixel)) :=
  mapM (fun entry : shape_key * stacked pixel =>
          s <- f (snd entry);; Ok (fst entry, s)) grouped.

(** Lines 175-196: the body of the padding loop for one image.
    [mask_template] is [None] while the name is unbound. *)
Definition pad_image (max_size : nat * nat) (mask_template : option mask)
  (img : image pixel) : result (image pixel * mask) :=
  let original_size := (height img, width img) in
  if negb (fst original_size =? fst max_size)
     || negb (snd original_size =? snd max_size)
  then
    let padding_bottom := fst max_size - fst original_size in
    let padding_right := snd max_size - snd original_size in
    let padded_image := F_pad img (0, 0, padding_right, padding_bottom) zero in
    template <- match mask_template with
                | Some t => Ok t
                | None => Raise UnboundLocalError
                end;;
    let pixel_mask :=
      fill_region (clone template) (fst original_size) (snd original_size) 1 in
    Ok (padded_image, pixel_mask)
  else Ok (img, torch_ones max_size).

(** Lines 166-196: the padding phase before stacking. *)
Definition pad_images (return_tensors : option string)
  (processed_images : list (image pixel))
  : result (list (image pixel) * list mask) :=
  let max_size := get_max_height_width processed_images in
  let mask_template :=
    if is_pt return_tensors && (0 <? List.length processed_images)
    then Some (torch_zeros max_size) else None in
  padded <- mapM (pad_image max_size mask_template) processed_images;;
  Ok (map fst padded, map snd padded).

(** Lines 164-211. *)
Definition assemble (do_pad : bool) (return_tensors : option string)
  (processed_images : list (image pixel)) : result BatchFeature :=
  d <- (if do_pad then
          '(padded_images, pixel_masks) <- pad_images return_tensors processed_images;;
          '(pixel_values, pixel_mask) <-
            (if is_pt return_tensors then
               pv <- torch_stack padded_images;;
               pm <- torch_stack_masks pixel_masks;;
               Ok (ImageTensor pv, MaskTensor pm)
             else Ok (ImageList padded_images, MaskList pixel_masks));;
          Ok (setitem "pixel_mask" pixel_mask (setitem "pixel_values" pixel_values []))
        else
          pixel_values <-
            (if is_pt return_tensors then
               pv <- torch_stack processed_images;; Ok (ImageTensor pv)
             else Ok (ImageList processed_images));;
          Ok (setitem "pixel_values" pixel_values []));;
  new_BatchFeature d return_tensors.

(** Lines 109-161: resize by shape group, then rescale and normalize by
    shape group, each time restoring the original order. *)
Definition process_images (images : list (image pixel))
  (do_resize : bool) (size : SizeDict)
  (interpolation : option interpolation_mode)
  (do_rescale : bool) (rescale_factor : Q) (do_normalize : bool)
  (image_mean image_std : option (list Q)) (size_divisor : option Z)
  : result (list (image pixel)) :=
  let '(grouped_images, grouped_images_index) := group_images_by_shape images in
  resized_images_grouped <-
    map_groups (resize_group do_resize size interpolation size_divisor)
      grouped_images;;
  resized_images <- reorder_images resized_images_grouped grouped_images_index;;
  let '(grouped_images, grouped_images_index) := group_images_by_shape resized_images in
  processed_images_grouped <-
    map_groups (fun stacked_images =>
                  rescale_and_normalize stacked_images do_rescale rescale_factor
                    do_normalize image_mean image_std)
      grouped_images;;
  reorder_images processed_images_grouped grouped_images_index.

Definition _preprocess (self : processor) (images : list (image pixel))
  (do_resize : bool) (size : SizeDict)
  (interpolation : option interpolation_mode) (crop_size : SizeDict)
  (do_rescale : bool) (rescale_factor : Q) (do_normalize : bool)
  (image_mean image_std : option (list Q)) (return_tensors : option string)
  (kw : kwargs) : result BatchFeature :=
  let size_divisor := kwargs_get (kw_size_divisor kw) (self_size_divisor self) in
  let do_pad := kwargs_get (kw_do_pad kw) (self_do_pad self) in
  processed_images <-
    process_images images do_resize size interpolation do_rescale rescale_factor
      do_normalize image_mean image_std size_divisor;;
  assemble (truthy do_pad) return_tensors processed_images.

End Preprocess.

(** ** A small instance for running the pipeline

    Pixels are integers; the resize primitive rejects sizes that are not
    positive, as the tensor library does, and otherwise returns a blank
    canvas of the requested size; rescaling and normalizing leave the
    values alone. *)

Definition blank_resize (s : stacked Z) (size : list Z) (_ : option unit)
  : result (stacked Z) :=
  match size with
  | [h; w] =>
      if ((0 <? h) && (0 <? w))%Z then
        Ok (Stacked (s_channels s) (Z.to_nat h) (Z.to_nat w)
              (map (fun _ => repeat 0%Z (s_channels s * Z.to_nat h * Z.to_nat w))
                 (s_slices s)))
      else Raise RuntimeError
  | _ => Raise RuntimeError
  end.

Definition keep_values (s : stacked Z) (_ : bool) (_ : Q) (_ : bool)
  (_ _ : option (list Q)) : result (stacked Z) := Ok s.

Definition gray_image (h w : nat) : image Z := Image 1 h w (repeat 7%Z (h * w)).

(** A run of [_preprocess] with the class defaults except for the sizes,
    kept small: shortest edge 4 and divisor 2. *)
Definition small_run (return_tensors : option string) (images : list (image Z))
  : result (BatchFeature Z) :=
  _preprocess 0%Z blank_resize keep_values ViltImageProcessorFast images true
    {| shortest_edge := Some 4%Z |} None {| shortest_edge := None |} true (1 # 255)
    true None None return_tensors
    {| kw_size_divisor := Some (Some 2%Z); kw_do_pad := None |}.

(** The slices the blank resize primitive returns, and the targets of the
    small run for the shapes 2 x 3 and 3 x 2. *)
Definition blank_slice (shape : shape_key) (size : Z * Z) (_ : list Z) : list Z :=
  repeat 0%Z (fst (fst shape) * Z.to_nat (fst size) * Z.to_nat (snd size))%nat.

Definition small_target (img : image Z) : Z * Z :=
  if (height img <? width img)%nat then (4, 6)%Z else (6, 4)%Z.

(** * Properties *)

Unset Implicit Arguments.

(** ** Facts on binary64 rounding *)

Module Binary64Facts.

Import Binary64.
Local Open Scope Q_scope.

Lemma pow2_pos (k : Z) : 0 < 2 ^ k.
Proof. apply Qpower_0_lt. reflexivity. Qed.

Lemma pow2_add (a b : Z) : 2 ^ (a + b) == 2 ^ a * 2 ^ b.
Proof. apply Qpower_plus. discriminate. Qed.

Lemma pow2_le (a b : Z) : (a <= b)%Z -> 2 ^ a <= 2 ^ b.
Proof. intros H. apply Qpower_le_compat_l; [exact H | discriminate]. Qed.

Lemma pow2_lt (a b : Z) : (a < b)%Z -> 2 ^ a < 2 ^ b.
Proof. intros H. apply Qpower_lt_compat_l; [exact H | reflexivity]. Qed.

Lemma pow2_Z (k : Z) : (0 <= k)%Z -> 2 ^ k == inject_Z (2 ^ k).
Proof. intros H. symmetry. apply (Zpower_Qpower 2 k H). Qed.

Lemma pow2_succ (k : Z) : 2 ^ (k + 1) == 2 * 2 ^ k.
Proof. rewrite pow2_add. change (2 ^ 1) with 2. ring. Qed.

Lemma pow2_pred (k : Z) : 2 ^ (k - 1) == 2 ^ k / 2.
Proof.
  assert (H := pow2_succ (k - 1)).
  replace (k - 1 + 1)%Z with k in H by ring.
  rewrite H. field.
Qed.

Lemma ilog2_spec (a : Q) : 0 < a -> 2 ^ ilog2 a <= a /\ a < 2 ^ (ilog2 a + 1).
Proof.
  intros Ha. destruct a as [n d]. unfold ilog2. cbn [Qnum Qden].
  assert (Hn : (0 < n)%Z) by (unfold Qlt in Ha; cbn in Ha; lia).
  destruct (Z.log2_spec n Hn) as [Hn1 Hn2].
  destruct (Z.log2_spec (Zpos d) (Pos2Z.is_pos d)) as [Hd1 Hd2].
  set (ln := Z.log2 n) in *. set (ld := Z.log2 (Zpos d)) in *.
  assert (Hln : (0 <= ln)%Z) by apply Z.log2_nonneg.
  assert (Hld : (0 <= ld)%Z) by apply Z.log2_nonneg.
  assert (Hk : 2 ^ (ln - ld) * 2 ^ ld == 2 ^ ln).
  { rewrite <- pow2_add. replace (ln - ld + ld)%Z with ln by ring. reflexivity. }
  assert (HA := pow2_Z _ Hln). assert (HD := pow2_Z _ Hld).
  assert (Hp := pow2_pos (ln - ld)).
  assert (Hpd := pow2_pos ld).
  assert (En : n # d == inject_Z n / inject_Z (Zpos d)) by apply Qmake_Qdiv.
  assert (Hdq : 0 < inject_Z (Zpos d)) by reflexivity.
  assert (Hn1q : 2 ^ ln <= inject_Z n) by (rewrite HA, <- Zle_Qle; exact Hn1).
  assert (Hn2q : inject_Z n < 2 * 2 ^ ln).
  { rewrite HA. change 2 with (inject_Z 2) at 1. rewrite <- inject_Z_mult, <- Zlt_Qlt.
    rewrite Z.pow_succ_r in Hn2 by lia. exact Hn2. }
  assert (Hd1q : 2 ^ ld <= inject_Z (Zpos d)) by (rewrite HD, <- Zle_Qle; exact Hd1).
  assert (Hd2q : inject_Z (Zpos d) < 2 * 2 ^ ld).
  { rewrite HD. change 2 with (inject_Z 2) at 1. rewrite <- inject_Z_mult, <- Zlt_Qlt.
    rewrite Z.pow_succ_r in Hd2 by lia. exact Hd2. }
  destruct (Qle_bool (2 ^ (ln - ld)) (n # d)) eqn:Hb.
  - apply Qle_bool_iff in Hb. split; [exact Hb |].
    rewrite pow2_succ, En.
    apply Qlt_shift_div_r; [exact Hdq |].
    assert (Hm : 2 ^ (ln - ld) * 2 ^ ld <= 2 ^ (ln - ld) * inject_Z (Zpos d)).
    { apply Qmult_le_l; assumption. }
    clear - Hm Hk Hn1q Hn2q Hd1q Hd2q Hp Hpd.
    generalize dependent (2 ^ (ln - ld)). generalize dependent (2 ^ ld).
    generalize dependent (2 ^ ln). generalize dependent (inject_Z n).
    generalize dependent (inject_Z (Zpos d)). intros. lra.
  - assert (Hlt : n # d < 2 ^ (ln - ld)).
    { apply Qnot_le_lt. intros H. apply Qle_bool_iff in H. congruence. }
    replace (ln - ld - 1 + 1)%Z with (ln - ld)%Z by ring.
    split; [| exact Hlt].
    rewrite En.
    apply Qle_shift_div_l; [exact Hdq |].
    assert (Hq := pow2_pos (ln - ld - 1)).
    assert (Hk' : 2 * 2 ^ (ln - ld - 1) == 2 ^ (ln - ld)).
    { rewrite <- pow2_succ. replace (ln - ld - 1 + 1)%Z with (ln - ld)%Z by ring.
      reflexivity. }
    assert (Hm : 2 ^ (ln - ld - 1) * inject_Z (Zpos d)
                 <= 2 ^ (ln - ld - 1) * (2 * 2 ^ ld)).
    { apply Qmult_le_l; [assumption | apply Qlt_le_weak; assumption]. }
    assert (Hk'' : 2 * 2 ^ (ln - ld - 1) * 2 ^ ld == 2 ^ ln).
    { rewrite Hk'. exact Hk. }
    clear - Hm Hk'' Hn1q.
    generalize dependent (2 ^ (ln - ld - 1)). generalize dependent (2 ^ ld).
    generalize dependent (2 ^ ln). generalize dependent (inject_Z n).
    generalize dependent (inject_Z (Zpos d)). intros. lra.
Qed.

Lemma ilog2_unique (a : Q) (e : Z) :
  0 < a -> 2 ^ e <= a -> a < 2 ^ (e + 1) -> ilog2 a = e.
Proof.
  intros Ha H1 H2. destruct (ilog2_spec _ Ha) as [L1 L2].
  destruct (Z.lt_trichotomy (ilog2 a) e) as [Hlt | [Heq | Hgt]]; [| exact Heq |].
  - exfalso. assert (H := pow2_le (ilog2 a + 1) e ltac:(lia)).
    apply (Qlt_irrefl a). eapply Qlt_le_trans; [exact L2 |].
    eapply Qle_trans; eassumption.
  - exfalso. assert (H := pow2_le (e + 1) (ilog2 a) ltac:(lia)).
    apply (Qlt_irrefl a). eapply Qlt_le_trans; [exact H2 |].
    eapply Qle_trans; eassumption.
Qed.

Lemma ilog2_comp (a b : Q) : 0 < a -> a == b -> ilog2 a = ilog2 b.
Proof.
  intros Ha E. assert (Hb : 0 < b) by (rewrite <- E; exact Ha).
  destruct (ilog2_spec _ Hb) as [L1 L2].
  apply ilog2_unique; [exact Ha | rewrite E; exact L1 | rewrite E; exact L2].
Qed.

Lemma ilog2_mono (a b : Q) : 0 < a -> a <= b -> (ilog2 a <= ilog2 b)%Z.
Proof.
  intros Ha Hab. assert (Hb : 0 < b) by (eapply Qlt_le_trans; eassumption).
  destruct (ilog2_spec _ Ha) as [A1 A2]. destruct (ilog2_spec _ Hb) as [B1 B2].
  destruct (Z_le_gt_dec (ilog2 a) (ilog2 b)) as [H | H]; [exact H | exfalso].
  assert (P := pow2_le (ilog2 b + 1) (ilog2 a) ltac:(lia)).
  apply (Qlt_irrefl b). eapply Qlt_le_trans; [exact B2 |].
  eapply Qle_trans; [exact P |]. eapply Qle_trans; eassumption.
Qed.

(** *** Nearest integer *)

Lemma rne_bounds (x : Q) :
  x - (1 # 2) <= inject_Z (rne x) /\ inject_Z (rne x) <= x + (1 # 2).
Proof.
  unfold rne. assert (F1 := Qfloor_le x). assert (F2 := Qlt_floor x).
  rewrite inject_Z_plus in F2. change (inject_Z 1) with 1 in F2.
  destruct (Qcompare (x - inject_Z (Qfloor x)) (1 # 2)) eqn:C.
  - apply Qeq_alt in C.
    destruct (Z.even (Qfloor x)); [| rewrite inject_Z_plus; change (inject_Z 1) with 1];
      generalize dependent (inject_Z (Qfloor x)); intros; lra.
  - apply Qlt_alt in C. generalize dependent (inject_Z (Qfloor x)); intros; lra.
  - apply Qgt_alt in C. rewrite inject_Z_plus. change (inject_Z 1) with 1.
    generalize dependent (inject_Z (Qfloor x)); intros; lra.
Qed.

Lemma rne_comp (x y : Q) : x == y -> rne x = rne y.
Proof.
  intros E. unfold rne. rewrite (Qfloor_comp x y E).
  assert (C : Qcompare (x - inject_Z (Qfloor y)) (1 # 2)
              = Qcompare (y - inject_Z (Qfloor y)) (1 # 2)).
  { apply Qcompare_comp; [rewrite E |]; reflexivity. }
  rewrite C. reflexivity.
Qed.

Lemma rne_Z (n : Z) : rne (inject_Z n) = n.
Proof.
  unfold rne. rewrite Qfloor_Z.
  assert (C : Qcompare (inject_Z n - inject_Z n) (1 # 2) = Lt).
  { apply -> Qlt_alt. generalize (inject_Z n). intros; lra. }
  rewrite C. reflexivity.
Qed.

Lemma rne_mono (x y : Q) : x <= y -> (rne x <= rne y)%Z.
Proof.
  intros Hxy.
  destruct (Z_le_gt_dec (rne x) (rne y)) as [H | H]; [exact H | exfalso].
  destruct (rne_bounds x) as [X1 X2]. destruct (rne_bounds y) as [Y1 Y2].
  assert (Hz : inject_Z (rne y) + 1 <= inject_Z (rne x)).
  { change 1 with (inject_Z 1). rewrite <- inject_Z_plus, <- Zle_Qle. lia. }
  assert (E : x == y).
  { generalize dependent (inject_Z (rne x)). generalize dependent (inject_Z (rne y)).
    intros. lra. }
  rewrite (rne_comp _ _ E) in H. lia.
Qed.

(** *** Rounding to a fixed grid [2^e * Z] *)

Lemma div_pow2_le (e : Z) (a b : Q) : a <= b -> a / 2 ^ e <= b / 2 ^ e.
Proof.
  intros H. apply Qle_shift_div_l; [apply pow2_pos |].
  assert (E : a / 2 ^ e * 2 ^ e == a).
  { field. apply Qnot_eq_sym, Qlt_not_eq, pow2_pos. }
  rewrite E. exact H.
Qed.

Lemma grid_mono (e : Z) (a b : Q) : a <= b -> grid e a <= grid e b.
Proof.
  intros H. unfold grid. apply Qmult_le_compat_r; [| apply Qlt_le_weak, pow2_pos].
  rewrite <- Zle_Qle. apply rne_mono, div_pow2_le, H.
Qed.

Lemma grid_exact (e : Z) (n : Z) (a : Q) : a == inject_Z n * 2 ^ e -> grid e a == a.
Proof.
  intros E. unfold grid.
  assert (X : a / 2 ^ e == inject_Z n).
  { rewrite E. field. apply Qnot_eq_sym, Qlt_not_eq, pow2_pos. }
  rewrite (rne_comp _ _ X), rne_Z, E. reflexivity.
Qed.

Lemma grid_error (e : Z) (a : Q) :
  a - 2 ^ e * (1 # 2) <= grid e a /\ grid e a <= a + 2 ^ e * (1 # 2).
Proof.
  unfold grid. destruct (rne_bounds (a / 2 ^ e)) as [B1 B2].
  assert (P := pow2_pos e).
  assert (E : a == a / 2 ^ e * 2 ^ e).
  { field. apply Qnot_eq_sym, Qlt_not_eq, P. }
  assert (M1 : (a / 2 ^ e - (1 # 2)) * 2 ^ e <= inject_Z (rne (a / 2 ^ e)) * 2 ^ e).
  { apply Qmult_le_compat_r; [exact B1 | apply Qlt_le_weak, P]. }
  assert (M2 : inject_Z (rne (a / 2 ^ e)) * 2 ^ e <= (a / 2 ^ e + (1 # 2)) * 2 ^ e).
  { apply Qmult_le_compat_r; [exact B2 | apply Qlt_le_weak, P]. }
  generalize dependent (inject_Z (rne (a / 2 ^ e))). intros r _ _ M1 M2.
  generalize dependent (a / 2 ^ e). generalize dependent (2 ^ e). intros.
  split; lra.
Qed.

Lemma grid_comp (e : Z) (a b : Q) : a == b -> grid e a == grid e b.
Proof.
  intros E. unfold grid.
  assert (X : a / 2 ^ e == b / 2 ^ e) by (rewrite E; reflexivity).
  rewrite (rne_comp _ _ X). reflexivity.
Qed.

Lemma grid_pow2 (e k : Z) : (e <= k)%Z -> grid e (2 ^ k) == 2 ^ k.
Proof.
  intros H. apply (grid_exact e (2 ^ (k - e))).
  rewrite <- pow2_Z by lia. rewrite <- pow2_add.
  replace (k - e + e)%Z with k by ring. reflexivity.
Qed.

Lemma grid_half (e : Z) : grid e (2 ^ (e - 1)) == 0.
Proof.
  unfold grid.
  assert (X : 2 ^ (e - 1) / 2 ^ e == 1 # 2).
  { rewrite pow2_pred. field. apply Qnot_eq_sym, Qlt_not_eq, pow2_pos. }
  rewrite (rne_comp _ _ X). change (rne (1 # 2)) with 0%Z. ring.
Qed.

Lemma grid_nonneg (e : Z) (a : Q) : 0 <= a -> 0 <= grid e a.
Proof.
  intros H. assert (G := grid_mono e 0 a H).
  assert (Z0 : grid e 0 == 0) by (apply (grid_exact e 0); ring).
  rewrite Z0 in G. exact G.
Qed.

(** *** [round_pos] *)

Lemma round_pos_grid (a : Q) : round_pos a = grid (ulp_exp a) a.
Proof. reflexivity. Qed.

Lemma ulp_exp_mono (a b : Q) : 0 < a -> a <= b -> (ulp_exp a <= ulp_exp b)%Z.
Proof.
  intros Ha H. unfold ulp_exp. assert (L := ilog2_mono a b Ha H). lia.
Qed.

Lemma round_pos_comp (a b : Q) : 0 < a -> a == b -> round_pos a == round_pos b.
Proof.
  intros Ha E. rewrite !round_pos_grid. unfold ulp_exp.
  rewrite (ilog2_comp a b Ha E). apply grid_comp, E.
Qed.

Lemma round_pos_nonneg (a : Q) : 0 <= a -> 0 <= round_pos a.
Proof. intros H. rewrite round_pos_grid. apply grid_nonneg, H. Qed.

Lemma round_pos_upper (a : Q) : 0 < a -> round_pos a <= 2 ^ (ilog2 a + 1).
Proof.
  intros Ha. rewrite round_pos_grid. destruct (ilog2_spec a Ha) as [L1 L2].
  destruct (Z_le_gt_dec (ulp_exp a) (ilog2 a + 1)) as [H | H].
  - rewrite <- (grid_pow2 (ulp_exp a) (ilog2 a + 1) H).
    apply grid_mono, Qlt_le_weak, L2.
  - assert (B : a <= 2 ^ (ulp_exp a - 1)).
    { apply Qlt_le_weak. eapply Qlt_le_trans; [exact L2 |]. apply pow2_le. lia. }
    apply (grid_mono (ulp_exp a)) in B. rewrite grid_half in B.
    eapply Qle_trans; [exact B |]. apply Qlt_le_weak, pow2_pos.
Qed.

Lemma round_pos_lower (a : Q) :
  0 < a -> (emin <= ilog2 a - (prec - 1))%Z -> 2 ^ ilog2 a <= round_pos a.
Proof.
  intros Ha Hn. rewrite round_pos_grid. destruct (ilog2_spec a Ha) as [L1 L2].
  assert (He : (ulp_exp a <= ilog2 a)%Z) by (unfold ulp_exp, prec, emin in *; lia).
  rewrite <- (grid_pow2 (ulp_exp a) (ilog2 a) He).
  apply grid_mono, L1.
Qed.

Lemma round_pos_mono (a b : Q) : 0 < a -> a <= b -> round_pos a <= round_pos b.
Proof.
  intros Ha H. assert (Hb : 0 < b) by (eapply Qlt_le_trans; eassumption).
  assert (He := ulp_exp_mono a b Ha H).
  destruct (Z.eq_dec (ulp_exp a) (ulp_exp b)) as [E | N].
  - rewrite !round_pos_grid, E. apply grid_mono, H.
  - assert (L := ilog2_mono a b Ha H).
    assert (Hn : (emin <= ilog2 b - (prec - 1))%Z) by (unfold ulp_exp in *; lia).
    assert (Hl : (ilog2 a + 1 <= ilog2 b)%Z) by (unfold ulp_exp in *; lia).
    eapply Qle_trans; [apply round_pos_upper, Ha |].
    eapply Qle_trans; [apply pow2_le, Hl |].
    apply round_pos_lower; assumption.
Qed.

(** *** [round] *)

Lemma round_of_pos (q : Q) : 0 < q -> round q = round_pos q.
Proof.
  destruct q as [[| n | n] d]; unfold Qlt; cbn; intros H;
    [lia | reflexivity | lia].
Qed.

Lemma round_of_neg (q : Q) : q < 0 -> round q = - round_pos (- q).
Proof.
  destruct q as [[| n | n] d]; unfold Qlt; cbn; intros H;
    [lia | lia | reflexivity].
Qed.

Lemma round_of_zero (q : Q) : q == 0 -> round q = 0.
Proof.
  destruct q as [[| n | n] d]; unfold Qeq; cbn; intros H;
    [reflexivity | lia | lia].
Qed.

Lemma sign_cases (q : Q) : q < 0 \/ q == 0 \/ 0 < q.
Proof.
  destruct (Q_dec q 0) as [[H | H] | H]; [left | right; right | right; left];
    assumption.
Qed.

Lemma round_nonneg (q : Q) : 0 <= q -> 0 <= round q.
Proof.
  intros H. destruct (sign_cases q) as [N | [E | P]].
  - lra.
  - rewrite (round_of_zero q E). apply Qle_refl.
  - rewrite (round_of_pos q P). apply round_pos_nonneg, H.
Qed.

Lemma round_nonpos (q : Q) : q <= 0 -> round q <= 0.
Proof.
  intros H. destruct (sign_cases q) as [N | [E | P]].
  - rewrite (round_of_neg q N).
    assert (R : 0 <= round_pos (- q)) by (apply round_pos_nonneg; lra).
    lra.
  - rewrite (round_of_zero q E). apply Qle_refl.
  - lra.
Qed.

#[export] Instance round_comp : Proper (Qeq ==> Qeq) round.
Proof.
  intros x y E. destruct (sign_cases x) as [N | [Z | P]].
  - assert (N' : y < 0) by (rewrite <- E; exact N).
    rewrite (round_of_neg x N), (round_of_neg y N').
    apply Qopp_comp, round_pos_comp; [lra | rewrite E; reflexivity].
  - assert (Z' : y == 0) by (rewrite <- E; exact Z).
    rewrite (round_of_zero x Z), (round_of_zero y Z'). reflexivity.
  - assert (P' : 0 < y) by (rewrite <- E; exact P).
    rewrite (round_of_pos x P), (round_of_pos y P').
    apply round_pos_comp; assumption.
Qed.

Lemma round_opp (q : Q) : round (- q) == - round q.
Proof.
  destruct (sign_cases q) as [N | [Z | P]].
  - assert (P : 0 < - q) by lra.
    rewrite (round_of_pos _ P), (round_of_neg _ N). ring.
  - assert (Z' : - q == 0) by lra.
    rewrite (round_of_zero _ Z), (round_of_zero _ Z'). reflexivity.
  - assert (N : - q < 0) by lra.
    rewrite (round_of_pos _ P), (round_of_neg _ N).
    apply Qopp_comp, round_pos_comp; [lra | ring].
Qed.

Lemma round_mono (x y : Q) : x <= y -> round x <= round y.
Proof.
  intros H. destruct (sign_cases x) as [Nx | [Zx | Px]].
  - destruct (sign_cases y) as [Ny | [Zy | Py]].
    + rewrite (round_of_neg _ Nx), (round_of_neg _ Ny).
      assert (M : round_pos (- y) <= round_pos (- x)) by (apply round_pos_mono; lra).
      lra.
    + assert (A := round_nonpos x ltac:(lra)). assert (B := round_nonneg y ltac:(lra)).
      lra.
    + assert (A := round_nonpos x ltac:(lra)). assert (B := round_nonneg y ltac:(lra)).
      lra.
  - rewrite (round_of_zero _ Zx). apply round_nonneg. lra.
  - assert (Py : 0 < y) by lra.
    rewrite (round_of_pos _ Px), (round_of_pos _ Py).
    apply round_pos_mono; assumption.
Qed.

Lemma round_pos_exact (m k : Z) (a : Q) :
  a == inject_Z m * 2 ^ k -> (0 < m < 2 ^ prec)%Z -> (emin <= k)%Z ->
  round_pos a == a.
Proof.
  intros E Hm Hk.
  assert (Pk := pow2_pos k).
  assert (Ha : 0 < a).
  { rewrite E. apply Qmult_lt_0_compat; [| exact Pk].
    change 0 with (inject_Z 0). rewrite <- Zlt_Qlt. lia. }
  destruct (ilog2_spec a Ha) as [L1 _].
  assert (U : a < 2 ^ (prec + k)).
  { rewrite E, pow2_add. apply Qmult_lt_compat_r; [exact Pk |].
    rewrite pow2_Z by (unfold prec; lia). rewrite <- Zlt_Qlt. lia. }
  assert (HE : (ilog2 a < prec + k)%Z).
  { destruct (Z_lt_ge_dec (ilog2 a) (prec + k)) as [H | H]; [exact H | exfalso].
    assert (P := pow2_le (prec + k) (ilog2 a) ltac:(lia)). lra. }
  assert (He : (ulp_exp a <= k)%Z) by (unfold ulp_exp; lia).
  rewrite round_pos_grid.
  apply (grid_exact (ulp_exp a) (m * 2 ^ (k - ulp_exp a))).
  eapply Qeq_trans; [exact E |].
  rewrite inject_Z_mult, <- pow2_Z by lia.
  rewrite <- Qmult_assoc, <- pow2_add.
  replace (k - ulp_exp a + ulp_exp a)%Z with k by ring. reflexivity.
Qed.

(** A number [m * 2^k] with [|m| < 2^53] and [k >= -1074] is a float. *)
Lemma round_exact (m k : Z) (q : Q) :
  q == inject_Z m * 2 ^ k -> (Z.abs m < 2 ^ prec)%Z -> (emin <= k)%Z ->
  round q == q.
Proof.
  intros E Hm Hk. assert (Pk := pow2_pos k).
  destruct (Z.lt_trichotomy m 0) as [N | [Z | P]].
  - assert (Hq : q < 0).
    { rewrite E. assert (X : inject_Z m < 0) by (change 0 with (inject_Z 0);
        rewrite <- Zlt_Qlt; exact N).
      assert (Y := Qmult_lt_compat_r _ _ _ Pk X). lra. }
    rewrite (round_of_neg _ Hq).
    assert (R : round_pos (- q) == - q).
    { apply (round_pos_exact (- m) k); [| lia | exact Hk].
      rewrite E, inject_Z_opp. ring. }
    rewrite R. ring.
  - subst m. assert (Hq : q == 0) by (rewrite E; ring).
    rewrite (round_of_zero _ Hq), Hq. reflexivity.
  - assert (Hq : 0 < q).
    { rewrite E. apply Qmult_lt_0_compat; [| exact Pk].
      change 0 with (inject_Z 0). rewrite <- Zlt_Qlt. exact P. }
    rewrite (round_of_pos _ Hq). apply (round_pos_exact m k); [exact E | lia | exact Hk].
Qed.

Lemma round_Z (n : Z) : (Z.abs n <= 2 ^ prec)%Z -> round (inject_Z n) == inject_Z n.
Proof.
  intros H. destruct (Z.eq_dec (Z.abs n) (2 ^ prec)) as [E | N].
  - destruct (Z.abs_eq_or_opp n) as [A | A]; rewrite A in E.
    + apply (round_exact 1 prec); [| reflexivity | discriminate].
      rewrite E. reflexivity.
    + apply (round_exact (-1) prec); [| reflexivity | discriminate].
      replace n with (- 2 ^ prec)%Z by lia. reflexivity.
  - apply (round_exact n 0); [| lia | discriminate].
    change (2 ^ 0) with 1. ring.
Qed.

(** Relative error of rounding in the normal range. *)
Lemma round_pos_error (a : Q) :
  2 ^ (emin + (prec - 1)) <= a ->
  a - a * 2 ^ (- prec) <= round_pos a /\ round_pos a <= a + a * 2 ^ (- prec).
Proof.
  intros Hn.
  assert (Ha : 0 < a) by (eapply Qlt_le_trans; [apply pow2_pos | exact Hn]).
  destruct (ilog2_spec a Ha) as [L1 L2].
  assert (HE : (emin + (prec - 1) <= ilog2 a)%Z).
  { destruct (Z_le_gt_dec (emin + (prec - 1)) (ilog2 a)) as [H | H]; [exact H | exfalso].
    assert (P := pow2_le (ilog2 a + 1) (emin + (prec - 1)) ltac:(lia)). lra. }
  assert (He : ulp_exp a = (ilog2 a - (prec - 1))%Z) by (unfold ulp_exp; lia).
  rewrite round_pos_grid. destruct (grid_error (ulp_exp a) a) as [G1 G2].
  assert (U : 2 ^ ulp_exp a * (1 # 2) == 2 ^ ilog2 a * 2 ^ (- prec)).
  { rewrite He. replace (ilog2 a - (prec - 1))%Z with (ilog2 a + (- prec) + 1)%Z by ring.
    rewrite pow2_succ, pow2_add. ring. }
  rewrite U in G1, G2.
  assert (M : 2 ^ ilog2 a * 2 ^ (- prec) <= a * 2 ^ (- prec)).
  { apply Qmult_le_compat_r; [exact L1 | apply Qlt_le_weak, pow2_pos]. }
  generalize dependent (grid (ulp_exp a) a). intros g G1 G2.
  generalize dependent (2 ^ ilog2 a * 2 ^ (- prec)).
  generalize dependent (a * 2 ^ (- prec)). intros. split; lra.
Qed.

Lemma round_error (q : Q) :
  2 ^ (emin + (prec - 1)) <= Qabs q ->
  Qabs (round q - q) <= Qabs q * 2 ^ (- prec).
Proof.
  intros Hn. assert (P := pow2_pos (emin + (prec - 1))).
  destruct (sign_cases q) as [N | [Z | Pq]].
  - rewrite (Qabs_neg q) in * by lra.
    destruct (round_pos_error (- q) Hn) as [E1 E2].
    rewrite (round_of_neg _ N). apply Qabs_Qle_condition.
    generalize dependent (round_pos (- q)). generalize dependent (2 ^ (- prec)).
    intros. split; lra.
  - rewrite Z in Hn. change (Qabs 0) with 0 in Hn. lra.
  - rewrite (Qabs_pos q) in * by lra.
    destruct (round_pos_error q Hn) as [E1 E2].
    rewrite (round_of_pos _ Pq). apply Qabs_Qle_condition.
    generalize dependent (round_pos q). generalize dependent (2 ^ (- prec)).
    intros. split; lra.
Qed.

(** On the operations the resizer performs, [round] gives what the
    standard library's specification of binary64 arithmetic gives. *)
Lemma round_agrees_with_spec_float :
  let ratio := SFdiv prec emax (spec_float_of_Z 1333) (spec_float_of_Z 800) in
  let third := SFdiv prec emax (spec_float_of_Z 384) (spec_float_of_Z 300) in
  let scaled := SFmul prec emax (spec_float_of_Z 400) third in
  let half := SFdiv prec emax (spec_float_of_Z 1) (spec_float_of_Z 2) in
  of_spec_float ratio == round (1333 # 800)
  /\ of_spec_float (SFmul prec emax ratio (spec_float_of_Z 384))
     == round (round (1333 # 800) * 384)
  /\ of_spec_float third == round (384 # 300)
  /\ of_spec_float scaled == round (400 * round (384 # 300))
  /\ of_spec_float (SFadd prec emax scaled half)
     == round (round (400 * round (384 # 300)) + (1 # 2)).
Proof. repeat split; vm_compute; reflexivity. Qed.

Lemma round_pow2 (k : Z) : (emin <= k)%Z -> round (2 ^ k) == 2 ^ k.
Proof.
  intros H. apply (round_exact 1 k); [ring | reflexivity | exact H].
Qed.

Lemma round_abs_le (q : Q) (k : Z) :
  (emin <= k)%Z -> Qabs q <= 2 ^ k -> Qabs (round q) <= 2 ^ k.
Proof.
  intros Hk H. apply Qabs_Qle_condition in H. destruct H as [H1 H2].
  apply Qabs_Qle_condition. split.
  - apply round_mono in H1. rewrite round_opp, round_pow2 in H1 by exact Hk. exact H1.
  - apply round_mono in H2. rewrite round_pow2 in H2 by exact Hk. exact H2.
Qed.

Lemma small_fits (q : Q) : small q -> overflows q = false.
Proof.
  intros H. unfold overflows.
  assert (B := round_abs_le q 1000 ltac:(discriminate) H).
  destruct (Qle_bool (2 ^ emax) (Qabs (round q))) eqn:C; [exfalso | reflexivity].
  apply Qle_bool_iff in C.
  assert (P := pow2_lt 1000 emax ltac:(reflexivity)).
  generalize dependent (Qabs (round q)). generalize dependent (2 ^ emax).
  generalize dependent (2 ^ 1000). intros. lra.
Qed.

Lemma checked_small (q : Q) : small q -> checked q = Ok (round q).
Proof. intros H. unfold checked. rewrite (small_fits q H). reflexivity. Qed.

Lemma small_le (q : Q) (k : Z) : (k <= 1000)%Z -> Qabs q <= 2 ^ k -> small q.
Proof.
  intros Hk H. unfold small. eapply Qle_trans; [exact H | apply pow2_le, Hk].
Qed.

(** Truncation *)

Lemma trunc_nonneg (x : Q) : 0 <= x -> trunc x = Qfloor x.
Proof.
  destruct x as [n d]. unfold Qle, trunc, Qfloor. cbn. intros H.
  apply Z.quot_div_nonneg; lia.
Qed.

Lemma trunc_opp (x : Q) : trunc (- x) = (- trunc x)%Z.
Proof. destruct x as [n d]. unfold trunc. cbn. apply Z.quot_opp_l. lia. Qed.

Lemma Qfloor_between (x : Q) (k : Z) :
  inject_Z k <= x -> x < inject_Z k + 1 -> Qfloor x = k.
Proof.
  intros H1 H2. assert (F1 := Qfloor_le x). assert (F2 := Qlt_floor x).
  rewrite inject_Z_plus in F2. change (inject_Z 1) with 1 in F2.
  assert (A : inject_Z (Qfloor x) < inject_Z (k + 1)).
  { rewrite inject_Z_plus. change (inject_Z 1) with 1. lra. }
  assert (B : inject_Z k < inject_Z (Qfloor x + 1)).
  { rewrite inject_Z_plus. change (inject_Z 1) with 1. lra. }
  rewrite <- Zlt_Qlt in A, B. lia.
Qed.

Lemma trunc_between (x : Q) (k : Z) :
  (0 <= k)%Z -> inject_Z k <= x -> x < inject_Z k + 1 -> trunc x = k.
Proof.
  intros Hk H1 H2. rewrite trunc_nonneg.
  - apply Qfloor_between; assumption.
  - eapply Qle_trans; [| exact H1]. change 0 with (inject_Z 0).
    rewrite <- Zle_Qle. exact Hk.
Qed.

Lemma trunc_range (x : Q) (k : Z) :
  0 <= x -> x < inject_Z k + 1 -> (0 <= trunc x <= k)%Z.
Proof.
  intros H0 H1. rewrite trunc_nonneg by exact H0.
  assert (F1 := Qfloor_le x).
  assert (F0 : (Qfloor 0 <= Qfloor x)%Z) by (apply Qfloor_resp_le, H0).
  change (Qfloor 0) with 0%Z in F0. split; [exact F0 |].
  assert (A : inject_Z (Qfloor x) < inject_Z (k + 1)).
  { rewrite inject_Z_plus. change (inject_Z 1) with 1. lra. }
  rewrite <- Zlt_Qlt in A. lia.
Qed.

End Binary64Facts.

(** ** Python arithmetic on numbers that stay in range *)

Section NumberFacts.

Import Binary64 Binary64Facts.
Local Open Scope Q_scope.

Lemma small_Z (z : Z) : (Z.abs z <= 2 ^ 53)%Z -> small (inject_Z z).
Proof.
  intros H. apply (small_le _ 53); [discriminate |].
  rewrite pow2_Z by discriminate. change (inject_Z z) with (z # 1).
  unfold Qabs. change (Z.abs z # 1) with (inject_Z (Z.abs z)).
  rewrite <- Zle_Qle. exact H.
Qed.

Lemma rounded_small (q : Q) : small q -> rounded q = Float (round q).
Proof. intros H. unfold rounded. rewrite (small_fits q H). reflexivity. Qed.

Lemma convertible_finite (n : number) : convertible n -> finite n.
Proof. destruct n; cbn; intros H; exact I || exact H. Qed.

Lemma as_float_spec (n : number) :
  convertible n -> exists r, as_float n = Ok (Float r) /\ r == value_of n.
Proof.
  destruct n as [z | x | s |]; cbn; intros H; try contradiction.
  - exists (round (inject_Z z)). split.
    + rewrite checked_small by apply small_Z, H. reflexivity.
    + apply round_Z, H.
  - exists x. split; reflexivity.
Qed.

Lemma py_truediv_spec (a b : number) :
  convertible a -> convertible b -> ~ value_of b == 0 ->
  small (value_of a / value_of b) ->
  exists r, py_truediv a b = Ok (Float r) /\ r == round (value_of a / value_of b).
Proof.
  intros Ca Cb Nz Sm.
  assert (Mixed : forall x y, as_float a = Ok (Float x) -> x == value_of a ->
                    as_float b = Ok (Float y) -> y == value_of b ->
                    exists r, (x <- as_float a;; y <- as_float b;;
                               if is_zero y then Raise ZeroDivisionError
                               else Ok (float_div x y))%result
                              = Ok (Float r)
                              /\ r == round (value_of a / value_of b)).
  { intros x y Ex Vx Ey Vy. rewrite Ex, Ey. cbn [bind is_zero].
    destruct (Qeq_bool y 0) eqn:Q.
    - apply Qeq_bool_iff in Q. exfalso. apply Nz. rewrite <- Vy. exact Q.
    - assert (E : x / y == value_of a / value_of b) by (rewrite Vx, Vy; reflexivity).
      cbn [float_div value_of].
      rewrite rounded_small by (unfold small; rewrite E; exact Sm).
      eexists. split; [reflexivity |]. rewrite E. reflexivity. }
  destruct (as_float_spec a Ca) as [x [Ex Vx]].
  destruct (as_float_spec b Cb) as [y [Ey Vy]].
  destruct a as [za | xa | sa |], b as [zb | xb | sb |]; try contradiction;
    try (apply (Mixed x y); assumption).
  cbn [py_truediv value_of] in *.
  destruct (zb =? 0)%Z eqn:Q.
  - apply Z.eqb_eq in Q. subst zb. exfalso. apply Nz. reflexivity.
  - rewrite checked_small by exact Sm. cbn [bind]. eexists. split; reflexivity.
Qed.

Lemma py_mul_spec (a b : number) :
  convertible a -> convertible b -> is_float a \/ is_float b ->
  small (value_of a * value_of b) ->
  exists r, py_mul a b = Ok (Float r) /\ r == round (value_of a * value_of b).
Proof.
  intros Ca Cb Fl Sm.
  destruct (as_float_spec a Ca) as [x [Ex Vx]].
  destruct (as_float_spec b Cb) as [y [Ey Vy]].
  assert (E : x * y == value_of a * value_of b) by (rewrite Vx, Vy; reflexivity).
  assert (C : rounded (x * y) = Float (round (x * y))).
  { apply rounded_small. unfold small. rewrite E. exact Sm. }
  destruct a as [za | xa | sa |], b as [zb | xb | sb |]; try contradiction;
    cbn [is_float] in Fl; [tauto | | |];
    unfold py_mul; rewrite Ex, Ey; cbn [bind float_mul value_of]; rewrite C;
    (eexists; split; [reflexivity | rewrite E; reflexivity]).
Qed.

Lemma py_add_spec (a b : number) :
  convertible a -> convertible b -> is_float a \/ is_float b ->
  small (value_of a + value_of b) ->
  exists r, py_add a b = Ok (Float r) /\ r == round (value_of a + value_of b).
Proof.
  intros Ca Cb Fl Sm.
  destruct (as_float_spec a Ca) as [x [Ex Vx]].
  destruct (as_float_spec b Cb) as [y [Ey Vy]].
  assert (E : x + y == value_of a + value_of b) by (rewrite Vx, Vy; reflexivity).
  assert (C : rounded (x + y) = Float (round (x + y))).
  { apply rounded_small. unfold small. rewrite E. exact Sm. }
  destruct a as [za | xa | sa |], b as [zb | xb | sb |]; try contradiction;
    cbn [is_float] in Fl; [tauto | | |];
    unfold py_add; rewrite Ex, Ey; cbn [bind float_add value_of]; rewrite C;
    (eexists; split; [reflexivity | rewrite E; reflexivity]).
Qed.

(** On finite numbers the comparison is that of the values. *)
Lemma py_gt_finite (a b : number) :
  finite a -> finite b -> py_gt a b = negb (Qle_bool (value_of a) (value_of b)).
Proof. destruct a, b; cbn; intros Fa Fb; try contradiction; reflexivity. Qed.

End NumberFacts.

(** ** The longer-edge bound *)

Section LongerEdgeFacts.

Import Binary64 Binary64Facts.
Local Open Scope Q_scope.

Lemma ratio_eval :
  py_truediv (Int MAX_LONGER_EDGE) (Int MAX_SHORTER_EDGE) = Ok (Float ratio).
Proof. vm_compute. reflexivity. Qed.

Lemma Qabs_inject_Z (z : Z) : Qabs (inject_Z z) == inject_Z (Z.abs z).
Proof. reflexivity. Qed.

Lemma inject_Z_abs_le (z b : Z) : (Z.abs z <= b)%Z -> Qabs (inject_Z z) <= inject_Z b.
Proof. intros H. rewrite Qabs_inject_Z, <- Zle_Qle. exact H. Qed.

Lemma small_mul (a b : Q) (i j : Z) :
  Qabs a <= 2 ^ i -> Qabs b <= 2 ^ j -> (i + j <= 1000)%Z -> small (a * b).
Proof.
  intros Ha Hb Hk. apply (small_le _ (i + j) Hk).
  rewrite Qabs_Qmult, pow2_add.
  assert (A := Qabs_nonneg a). assert (B := Qabs_nonneg b).
  eapply Qle_trans; [apply Qmult_le_compat_r; [exact Ha | exact B] |].
  apply Qmult_le_l; [apply pow2_pos | exact Hb].
Qed.

Lemma longer_edge_value (S : Z) :
  (Z.abs S <= 2 ^ 53)%Z ->
  exists r, longer_edge S = Ok (trunc r) /\ r == round (ratio * inject_Z S).
Proof.
  intros HS. unfold longer_edge. rewrite ratio_eval. cbn [bind].
  destruct (py_mul_spec (Float ratio) (Int S)) as [r [E V]].
  - exact I.
  - exact HS.
  - left. exact I.
  - cbn [value_of]. apply (small_mul _ _ 1 53).
    + vm_compute. discriminate.
    + rewrite pow2_Z by discriminate. apply inject_Z_abs_le, HS.
    + discriminate.
  - rewrite E. cbn [bind py_int]. exists r. split; [reflexivity | exact V].
Qed.

(** For every sensible target the bound is the floor of 1333*S/800: the
    product is truncated, not rounded to nearest. *)
Lemma longer_edge_floor (S : Z) :
  (0 < S < 2 ^ 40)%Z -> longer_edge S = Ok (1333 * S / 800)%Z.
Proof.
  intros HS. destruct (longer_edge_value S ltac:(lia)) as [r [E V]].
  rewrite E. f_equal.
  set (k := (1333 * S / 800)%Z).
  assert (D := Z.div_mod (1333 * S) 800 ltac:(discriminate)).
  assert (M := Z.mod_pos_bound (1333 * S) 800 ltac:(reflexivity)).
  fold k in D.
  assert (K1 : (800 * k <= 1333 * S)%Z) by lia.
  assert (K2 : (1333 * S <= 800 * k + 799)%Z) by lia.
  assert (K0 : (0 <= k)%Z) by (apply Z.div_pos; lia).
  assert (K3 : (k < 2 ^ 41)%Z) by (apply Z.div_lt_upper_bound; lia).
  assert (S1 : inject_Z S < 1099511627776).
  { change 1099511627776 with (inject_Z (2 ^ 40)). rewrite <- Zlt_Qlt. lia. }
  assert (S0 : 0 < inject_Z S).
  { change 0 with (inject_Z 0). rewrite <- Zlt_Qlt. lia. }
  rewrite Zle_Qle in K1, K2.
  rewrite !inject_Z_mult in K1. rewrite inject_Z_plus, !inject_Z_mult in K2.
  change (inject_Z 800) with 800 in K1, K2.
  change (inject_Z 1333) with 1333 in K1, K2.
  change (inject_Z 799) with 799 in K2.
  apply trunc_between; [exact K0 | |].
  - rewrite V. rewrite <- (round_Z k) by (change (2 ^ prec)%Z with (2 ^ 53)%Z; lia).
    apply round_mono. unfold ratio.
    generalize dependent (inject_Z S). generalize dependent (inject_Z k).
    intros. lra.
  - rewrite V.
    assert (X : inject_Z k + 1 - (1 # 2048)
                == inject_Z (k * 2048 + 2047) * 2 ^ (-11)).
    { rewrite inject_Z_plus, inject_Z_mult.
      change (2 ^ (-11)) with (1 # 2048). change (inject_Z 2048) with 2048.
      change (inject_Z 2047) with 2047. ring. }
    assert (R : round (inject_Z k + 1 - (1 # 2048)) == inject_Z k + 1 - (1 # 2048)).
    { apply (round_exact (k * 2048 + 2047) (-11) _ X);
        [change (2 ^ prec)%Z with (2 ^ 53)%Z; lia | discriminate]. }
    eapply Qle_lt_trans;
      [apply (round_mono _ (inject_Z k + 1 - (1 # 2048))) |].
    + unfold ratio. clear - K2 S1 S0.
      generalize dependent (inject_Z S). generalize dependent (inject_Z k).
      intros. lra.
    + rewrite R. generalize (inject_Z k). intros. lra.
Qed.

End LongerEdgeFacts.

(** ** The resize target for a positive shortest edge *)

Section ResizerFacts.

Import Binary64 Binary64Facts.
Local Open Scope Q_scope.

Lemma round_le (q b : Q) : q <= b -> round b == b -> round q <= b.
Proof. intros H E. rewrite <- E. apply round_mono, H. Qed.

Lemma round_ge (q b : Q) : b <= q -> round b == b -> b <= round q.
Proof. intros H E. rewrite <- E. apply round_mono, H. Qed.

Lemma round_0 : round 0 == 0.
Proof. reflexivity. Qed.

Lemma inject_Z_pos (z : Z) : (0 < z)%Z -> 0 < inject_Z z.
Proof. intros H. change 0 with (inject_Z 0). rewrite <- Zlt_Qlt. exact H. Qed.

Lemma inject_Z_le_pow2 (z k : Z) : (0 <= k)%Z -> (z <= 2 ^ k)%Z -> inject_Z z <= 2 ^ k.
Proof. intros Hk H. rewrite pow2_Z by exact Hk. rewrite <- Zle_Qle. exact H. Qed.

Lemma inject_Z_ge_1 (z : Z) : (0 < z)%Z -> 1 <= inject_Z z.
Proof. intros H. change 1 with (inject_Z 1). rewrite <- Zle_Qle. lia. Qed.

Lemma Qabs_le_pos (q b : Q) : 0 <= q -> q <= b -> Qabs q <= b.
Proof. intros H0 H. rewrite Qabs_pos by exact H0. exact H. Qed.

(** A quotient [n / d] of positive numbers with [n <= 2^i] and
    [2^(-j) <= d]. *)
Lemma div_bounds (n d : Q) (i j : Z) :
  0 < n -> n <= 2 ^ i -> 2 ^ (- j) <= d -> 0 < n / d /\ n / d <= 2 ^ (i + j).
Proof.
  intros Hn Hi Hd. assert (Pj := pow2_pos (- j)). assert (Hd0 : 0 < d) by lra.
  split.
  - apply Qlt_shift_div_l; [exact Hd0 | lra].
  - apply Qle_shift_div_r; [exact Hd0 |].
    assert (E : 2 ^ (i + j) * 2 ^ (- j) == 2 ^ i).
    { rewrite <- pow2_add. replace (i + j + - j)%Z with i by ring. reflexivity. }
    assert (M : 2 ^ (i + j) * 2 ^ (- j) <= 2 ^ (i + j) * d).
    { apply Qmult_le_l; [apply pow2_pos | exact Hd]. }
    generalize dependent (2 ^ (i + j) * d). generalize dependent (2 ^ (i + j) * 2 ^ (- j)).
    generalize dependent (2 ^ i). intros. lra.
Qed.

Lemma div_lower (n d : Q) (i j : Z) :
  2 ^ (- i) <= n -> 0 < d -> d <= 2 ^ j -> 2 ^ (- (i + j)) <= n / d.
Proof.
  intros Hn Hd0 Hd. apply Qle_shift_div_l; [exact Hd0 |].
  assert (E : 2 ^ (- (i + j)) * 2 ^ j == 2 ^ (- i)).
  { rewrite <- pow2_add. replace (- (i + j) + j)%Z with (- i)%Z by ring. reflexivity. }
  assert (M : 2 ^ (- (i + j)) * d <= 2 ^ (- (i + j)) * 2 ^ j).
  { apply Qmult_le_l; [apply pow2_pos | exact Hd]. }
  generalize dependent (2 ^ (- (i + j)) * d).
  generalize dependent (2 ^ (- (i + j)) * 2 ^ j).
  generalize dependent (2 ^ (- i)). intros. lra.
Qed.

Lemma mul_bounds (a b : Q) (i1 j1 i2 j2 : Z) :
  2 ^ i1 <= a -> a <= 2 ^ j1 -> 2 ^ i2 <= b -> b <= 2 ^ j2 ->
  2 ^ (i1 + i2) <= a * b /\ a * b <= 2 ^ (j1 + j2).
Proof.
  intros A1 A2 B1 B2. rewrite !pow2_add.
  assert (P1 := pow2_pos i1). assert (P2 := pow2_pos i2).
  assert (Q1 := pow2_pos j1). assert (Q2 := pow2_pos j2).
  split.
  - eapply Qle_trans; [apply Qmult_le_compat_r; [exact A1 | lra] |].
    apply Qmult_le_l; [lra | exact B1].
  - eapply Qle_trans; [apply Qmult_le_compat_r; [exact A2 | lra] |].
    apply Qmult_le_l; [lra | exact B2].
Qed.

Lemma positive_dim_Int (z : Z) : (0 < z < 2 ^ 53)%Z -> positive_dim (Int z).
Proof.
  intros H. split; [cbn; lia |]. cbn [value_of]. split.
  - eapply Qle_trans; [| apply inject_Z_ge_1; lia]. vm_compute. discriminate.
  - eapply Qle_trans; [apply (inject_Z_le_pow2 z 53); [discriminate | lia] |].
    apply pow2_le. discriminate.
Qed.

(** [n * (S / d)] as the source computes it, for positive ints. *)
Lemma scaled_dimension (S n d : Z) :
  (0 < S < 2 ^ 40)%Z -> (0 < n < 2 ^ 53)%Z -> (0 < d < 2 ^ 53)%Z ->
  exists q r,
    py_truediv (Int S) (Int d) = Ok (Float q) /\
    py_mul (Int n) (Float q) = Ok (Float r) /\
    q == round (inject_Z S / inject_Z d) /\
    r == round (inject_Z n * q) /\
    2 ^ (-53) <= r /\ r <= 2 ^ 93.
Proof.
  intros HS Hn Hd.
  assert (S0 := inject_Z_pos S ltac:(lia)).
  assert (S1 := inject_Z_le_pow2 S 40 ltac:(discriminate) ltac:(lia)).
  assert (S2 := inject_Z_ge_1 S ltac:(lia)).
  assert (D0 := inject_Z_pos d ltac:(lia)).
  assert (D1 := inject_Z_le_pow2 d 53 ltac:(discriminate) ltac:(lia)).
  assert (D2 := inject_Z_ge_1 d ltac:(lia)).
  assert (N1 := inject_Z_le_pow2 n 53 ltac:(discriminate) ltac:(lia)).
  assert (N2 := inject_Z_ge_1 n ltac:(lia)).
  destruct (div_bounds (inject_Z S) (inject_Z d) 40 0 S0 S1 D2) as [Q0 Q1].
  assert (Q2 := div_lower (inject_Z S) (inject_Z d) 0 53 S2 D0 D1).
  cbn [Z.add Z.opp] in Q1, Q2.
  destruct (py_truediv_spec (Int S) (Int d)) as [q [Eq Vq]].
  - cbn; lia.
  - cbn; lia.
  - cbn [value_of]. lra.
  - cbn [value_of]. apply (small_le _ 40); [discriminate |].
    apply Qabs_le_pos; lra.
  - cbn [value_of] in Vq.
    assert (Lq : 2 ^ (-53) <= q).
    { rewrite Vq. apply round_ge; [exact Q2 | apply round_pow2; discriminate]. }
    assert (Uq : q <= 2 ^ 40).
    { rewrite Vq. apply round_le; [exact Q1 | apply round_pow2; discriminate]. }
    destruct (mul_bounds (inject_Z n) q 0 53 (-53) 40 N2 N1 Lq Uq) as [M1 M2].
    cbn [Z.add] in M1, M2.
    destruct (py_mul_spec (Int n) (Float q)) as [r [Er Vr]].
    + cbn; lia.
    + exact I.
    + right. exact I.
    + cbn [value_of]. apply (small_le _ 93); [discriminate |].
      apply Qabs_le_pos; [| exact M2].
      eapply Qle_trans; [| exact M1]. apply Qlt_le_weak, pow2_pos.
    + cbn [value_of] in Vr. exists q, r. repeat split; try assumption.
      * rewrite Vr. apply round_ge; [exact M1 | apply round_pow2; discriminate].
      * rewrite Vr. apply round_le; [exact M2 | apply round_pow2; discriminate].
Qed.

Lemma initial_dimensions_positive (S h w : Z) :
  (0 < S < 2 ^ 40)%Z -> (0 < h < 2 ^ 53)%Z -> (0 < w < 2 ^ 53)%Z ->
  exists a b, initial_dimensions S h w = Ok (a, b)
              /\ positive_dim a /\ positive_dim b.
Proof.
  intros HS Hh Hw. unfold initial_dimensions.
  destruct (h <? w)%Z.
  - destruct (scaled_dimension S w h HS Hw Hh) as [q [r [E1 [E2 [_ [_ [L U]]]]]]].
    rewrite E1. cbn [bind]. rewrite E2. cbn [bind].
    exists (Int S), (Float r). split; [reflexivity |]. split.
    + apply positive_dim_Int. lia.
    + split; [exact I | split; assumption].
  - destruct (scaled_dimension S h w HS Hh Hw) as [q [r [E1 [E2 [_ [_ [L U]]]]]]].
    rewrite E1. cbn [bind]. rewrite E2. cbn [bind].
    exists (Float r), (Int S). split; [reflexivity |]. split.
    + split; [exact I | split; assumption].
    + apply positive_dim_Int. lia.
Qed.

Lemma py_gt_true (a b : number) :
  finite a -> finite b -> py_gt a b = true -> value_of b < value_of a.
Proof.
  intros Fa Fb H. rewrite py_gt_finite in H by assumption.
  apply negb_true_iff in H.
  apply Qnot_le_lt. intros C. apply Qle_bool_iff in C. congruence.
Qed.

Lemma py_gt_false (a b : number) :
  finite a -> finite b -> py_gt a b = false -> value_of a <= value_of b.
Proof.
  intros Fa Fb H. rewrite py_gt_finite in H by assumption.
  apply negb_false_iff in H. apply Qle_bool_iff, H.
Qed.

Lemma py_max_cases (a b : number) :
  finite a -> finite b ->
  (py_max a b = a \/ py_max a b = b)
  /\ value_of a <= value_of (py_max a b)
  /\ value_of b <= value_of (py_max a b).
Proof.
  intros Fa Fb. unfold py_max. destruct (py_gt b a) eqn:G.
  - apply py_gt_true in G; [| assumption ..].
    repeat split; [right; reflexivity | lra | lra].
  - apply py_gt_false in G; [| assumption ..].
    repeat split; [left; reflexivity | lra | lra].
Qed.

Lemma scale_dimension (L : Z) (x m : number) (s : Q) :
  (0 < L < 2 ^ 41)%Z -> positive_dim x -> positive_dim m ->
  value_of x <= value_of m ->
  s == round (inject_Z L / value_of m) ->
  exists r, py_mul x (Float s) = Ok (Float r) /\ bounded_dim L (Float r).
Proof.
  intros HL [Cx [X1 X2]] [Cm [M1 M2]] Hxm Vs.
  assert (P53 := pow2_pos (-53)).
  assert (X0 : 0 < value_of x) by lra. assert (M0 : 0 < value_of m) by lra.
  assert (L0 := inject_Z_pos L ltac:(lia)).
  assert (L1 := inject_Z_le_pow2 L 41 ltac:(discriminate) ltac:(lia)).
  assert (L2 := inject_Z_ge_1 L ltac:(lia)).
  set (q := inject_Z L / value_of m) in *.
  destruct (div_bounds (inject_Z L) (value_of m) 41 53 L0 L1 M1) as [Q0 Q1].
  assert (Q2 := div_lower (inject_Z L) (value_of m) 0 93 L2 M0 M2).
  fold q in Q0, Q1, Q2. cbn [Z.add Z.opp] in Q1, Q2.
  assert (Er : Qabs (round q - q) <= Qabs q * 2 ^ (- prec)).
  { apply round_error. rewrite Qabs_pos by lra.
    eapply Qle_trans; [| exact Q2]. apply pow2_le. discriminate. }
  rewrite (Qabs_pos q) in Er by lra. apply Qabs_Qle_condition in Er.
  assert (S0 : 0 <= s) by (rewrite Vs; apply round_nonneg; lra).
  assert (Eq : value_of m * q == inject_Z L).
  { unfold q. field. lra. }
  assert (U : q * 2 ^ (- prec) <= q * (1 # 9007199254740992)).
  { apply Qmult_le_l; [exact Q0 |]. vm_compute. discriminate. }
  assert (B1 : value_of x * s <= value_of m * s).
  { apply Qmult_le_compat_r; assumption. }
  assert (B2 : value_of m * s <= value_of m * (q + q * (1 # 9007199254740992))).
  { apply Qmult_le_l; [exact M0 |]. rewrite Vs. lra. }
  assert (B3 : value_of m * (q + q * (1 # 9007199254740992))
               == inject_Z L + inject_Z L * (1 # 9007199254740992)).
  { rewrite <- Eq. ring. }
  assert (L3 : inject_Z L <= 2199023255552).
  { eapply Qle_trans; [exact L1 |]. vm_compute. discriminate. }
  assert (B : value_of x * s <= inject_Z L + (1 # 4096)).
  { rewrite B3 in B2. clear - B1 B2 L3.
    generalize dependent (value_of x * s). generalize dependent (value_of m * s).
    generalize dependent (inject_Z L). intros. lra. }
  assert (B0 : 0 <= value_of x * s) by (apply Qmult_le_0_compat; lra).
  destruct (py_mul_spec x (Float s)) as [r [E V]].
  - exact Cx.
  - exact I.
  - right. exact I.
  - cbn [value_of]. apply (small_le _ 42); [discriminate |].
    apply Qabs_le_pos; [exact B0 |].
    eapply Qle_trans; [exact B |].
    assert (T : 2 ^ 42 == 4398046511104) by reflexivity. rewrite T.
    clear - L3. generalize dependent (inject_Z L). intros. lra.
  - cbn [value_of] in V. exists r. split; [exact E |].
    split; [exact I |]. cbn [value_of]. split.
    + rewrite V. apply round_nonneg, B0.
    + assert (X : inject_Z L + (1 # 4096) == inject_Z (L * 4096 + 1) * 2 ^ (-12)).
      { rewrite inject_Z_plus, inject_Z_mult. change (2 ^ (-12)) with (1 # 4096).
        change (inject_Z 4096) with 4096. change (inject_Z 1) with 1. ring. }
      assert (R : round (inject_Z L + (1 # 4096)) == inject_Z L + (1 # 4096)).
      { apply (round_exact (L * 4096 + 1) (-12) _ X);
          [change (2 ^ prec)%Z with (2 ^ 53)%Z; lia | discriminate]. }
      rewrite V. eapply Qle_trans; [apply (round_le _ _ B R) |].
      generalize (inject_Z L). intros. lra.
Qed.

Lemma clamp_positive (L : Z) (a b : number) :
  (0 < L < 2 ^ 41)%Z -> positive_dim a -> positive_dim b ->
  exists a' b', clamp_dimensions L a b = Ok (a', b')
                /\ bounded_dim L a' /\ bounded_dim L b'.
Proof.
  intros HL Pa Pb. unfold clamp_dimensions.
  destruct (py_max_cases a b (convertible_finite _ (proj1 Pa))
              (convertible_finite _ (proj1 Pb))) as [Hm [Ha Hb]].
  assert (Pm : positive_dim (py_max a b)) by (destruct Hm as [E | E]; rewrite E; assumption).
  set (m := py_max a b) in *.
  assert (P53 := pow2_pos (-53)).
  destruct (py_gt m (Int L)) eqn:G.
  - apply py_gt_true in G; [| exact (convertible_finite _ (proj1 Pm)) | exact I].
    cbn [value_of] in G.
    destruct Pm as [Cm [M1 M2]].
    assert (L0 := inject_Z_pos L ltac:(lia)).
    assert (L1 := inject_Z_le_pow2 L 41 ltac:(discriminate) ltac:(lia)).
    destruct (div_bounds (inject_Z L) (value_of m) 41 53 L0 L1 M1) as [Q0 Q1].
    destruct (py_truediv_spec (Int L) m) as [s [Es Vs]].
    + cbn; lia.
    + exact Cm.
    + lra.
    + cbn [value_of]. apply (small_le _ (41 + 53)); [discriminate |].
      apply Qabs_le_pos; [lra | exact Q1].
    + cbn [value_of] in Vs. rewrite Es. cbn [bind].
      destruct (scale_dimension L a m s HL Pa (conj Cm (conj M1 M2)) Ha Vs)
        as [ra [Ea Ba]].
      destruct (scale_dimension L b m s HL Pb (conj Cm (conj M1 M2)) Hb Vs)
        as [rb [Eb Bb]].
      rewrite Ea. cbn [bind]. rewrite Eb. cbn [bind].
      exists (Float ra), (Float rb). repeat split; assumption || apply Ba || apply Bb.
  - apply py_gt_false in G; [| exact (convertible_finite _ (proj1 Pm)) | exact I].
    cbn [value_of] in G.
    exists a, b. split; [reflexivity |].
    destruct Pa as [Ca [A1 A2]]. destruct Pb as [Cb [B1 B2]].
    split; (split; [assumption | split; lra]).
Qed.

Lemma int_round_bounded (L : Z) (x : number) :
  (0 <= L < 2 ^ 41)%Z -> bounded_dim L x ->
  exists n, int_round x = Ok n /\ (0 <= n <= L)%Z.
Proof.
  intros HL [Cx [X0 X1]]. unfold int_round.
  assert (L1 := inject_Z_le_pow2 L 41 ltac:(discriminate) ltac:(lia)).
  assert (L3 : inject_Z L <= 2199023255552).
  { eapply Qle_trans; [exact L1 |]. vm_compute. discriminate. }
  destruct (py_add_spec x (Float (1 # 2))) as [r [E V]].
  - exact Cx.
  - exact I.
  - right. exact I.
  - cbn [value_of]. apply (small_le _ 42); [discriminate |].
    assert (T : 2 ^ 42 == 4398046511104) by reflexivity. rewrite T.
    apply Qabs_le_pos; [lra |].
    clear - L3 X1. generalize dependent (inject_Z L). intros. lra.
  - cbn [value_of] in V. rewrite E. cbn [bind py_int].
    exists (trunc r). split; [reflexivity |].
    assert (X : inject_Z L + (3 # 4) == inject_Z (L * 4 + 3) * 2 ^ (-2)).
    { rewrite inject_Z_plus, inject_Z_mult. change (2 ^ (-2)) with (1 # 4).
      change (inject_Z 4) with 4. change (inject_Z 3) with 3. ring. }
    assert (R : round (inject_Z L + (3 # 4)) == inject_Z L + (3 # 4)).
    { apply (round_exact (L * 4 + 3) (-2) _ X);
        [change (2 ^ prec)%Z with (2 ^ 53)%Z; lia | discriminate]. }
    apply trunc_range.
    + rewrite V. apply round_nonneg. lra.
    + rewrite V. eapply Qle_lt_trans; [apply (round_le _ (inject_Z L + (3 # 4))) |].
      * clear - X1. generalize dependent (inject_Z L). intros. lra.
      * exact R.
      * generalize (inject_Z L). intros. lra.
Qed.

(** The rounded dimensions never exceed the longer-edge bound. *)
Lemma rounded_dimensions_positive (S h w : Z) :
  (0 < S < 2 ^ 40)%Z -> (0 < h < 2 ^ 53)%Z -> (0 < w < 2 ^ 53)%Z ->
  exists nh nw, rounded_dimensions S h w = Ok (nh, nw)
                /\ (0 <= nh <= 1333 * S / 800)%Z
                /\ (0 <= nw <= 1333 * S / 800)%Z.
Proof.
  intros HS Hh Hw. unfold rounded_dimensions.
  rewrite (longer_edge_floor S HS). cbn [bind].
  set (L := (1333 * S / 800)%Z).
  assert (HL : (0 < L < 2 ^ 41)%Z).
  { unfold L. split.
    - apply Z.div_str_pos. lia.
    - apply Z.div_lt_upper_bound; lia. }
  destruct (initial_dimensions_positive S h w HS Hh Hw) as [a [b [E1 [Pa Pb]]]].
  rewrite E1. cbn [bind].
  destruct (clamp_positive L a b HL Pa Pb) as [a' [b' [E2 [Ba Bb]]]].
  rewrite E2. cbn [bind].
  destruct (int_round_bounded L a' ltac:(lia) Ba) as [nh [E3 Nh]].
  destruct (int_round_bounded L b' ltac:(lia) Bb) as [nw [E4 Nw]].
  rewrite E3. cbn [bind]. rewrite E4. cbn [bind].
  exists nh, nw. repeat split; (reflexivity || lia).
Qed.

End ResizerFacts.

(** ** The resize target for a shortest edge that is zero or negative *)

Section NonPositiveTarget.

Import Binary64 Binary64Facts.
Local Open Scope Q_scope.

Lemma trunc_below_one (x : Q) : x < 1 -> (trunc x <= 0)%Z.
Proof.
  intros H. destruct (Qlt_le_dec x 0) as [N | P].
  - assert (T := trunc_opp x).
    assert (F : (0 <= Qfloor (- x))%Z).
    { change 0%Z with (Qfloor 0). apply Qfloor_resp_le. lra. }
    rewrite trunc_nonneg in T by lra. lia.
  - rewrite (trunc_between x 0); [lia | lia | exact P |].
    change (inject_Z 0) with 0. lra.
Qed.

Lemma trunc_lower (x : Q) (k : Z) :
  x <= 0 -> - inject_Z k - 1 < x -> (- k <= trunc x)%Z.
Proof.
  intros H0 H1.
  assert (R := trunc_range (- x) k ltac:(lra) ltac:(lra)).
  rewrite trunc_opp in R. lia.
Qed.

Lemma inject_Z_nonpos (z : Z) : (z <= 0)%Z -> inject_Z z <= 0.
Proof. intros H. change 0 with (inject_Z 0). rewrite <- Zle_Qle. exact H. Qed.

Lemma inject_Z_ge_opp_pow2 (z k : Z) :
  (0 <= k)%Z -> (- 2 ^ k <= z)%Z -> - 2 ^ k <= inject_Z z.
Proof.
  intros Hk H. rewrite pow2_Z by exact Hk. rewrite <- inject_Z_opp, <- Zle_Qle. exact H.
Qed.

Lemma inject_Z_le_m1 (z : Z) : (z < 0)%Z -> inject_Z z <= - (1).
Proof. intros H. change (- (1)) with (inject_Z (-1)). rewrite <- Zle_Qle. lia. Qed.

Lemma round_opp_pow2 (k : Z) : (emin <= k)%Z -> round (- 2 ^ k) == - 2 ^ k.
Proof. intros H. rewrite round_opp, round_pow2 by exact H. reflexivity. Qed.

Lemma Qabs_le_neg (q b : Q) : q <= 0 -> - b <= q -> Qabs q <= b.
Proof. intros H0 H. rewrite Qabs_neg by exact H0. lra. Qed.

Lemma longer_edge_nonpositive (S : Z) :
  (- 2 ^ 40 < S <= 0)%Z ->
  exists L, longer_edge S = Ok L /\ (- 2 ^ 41 <= L <= 0)%Z /\ (S = 0%Z -> L = 0%Z).
Proof.
  intros HS. destruct (longer_edge_value S ltac:(lia)) as [r [E V]].
  exists (trunc r). split; [exact E |].
  assert (S0 := inject_Z_nonpos S ltac:(lia)).
  assert (S1 : - (1099511627776) <= inject_Z S).
  { change (- (1099511627776)) with (inject_Z (- 2 ^ 40)). rewrite <- Zle_Qle. lia. }
  assert (R0 : r <= 0).
  { rewrite V. apply round_nonpos. unfold ratio.
    generalize dependent (inject_Z S). intros. lra. }
  assert (R1 : - 2 ^ 41 <= r).
  { rewrite V. apply round_ge; [| apply round_opp_pow2; discriminate].
    assert (T : 2 ^ 41 == 2199023255552) by reflexivity. rewrite T.
    unfold ratio. clear - S1. generalize dependent (inject_Z S). intros. lra. }
  split; [split |].
  - apply (trunc_lower r (2 ^ 41)); [exact R0 |].
    rewrite <- pow2_Z by discriminate. lra.
  - apply trunc_below_one. lra.
  - intros ->. apply (trunc_between r 0); [lia | |].
    + rewrite V. change (inject_Z 0) with 0. apply round_nonneg. unfold ratio. lra.
    + change (inject_Z 0) with 0. lra.
Qed.

Lemma mul_nonpositive (a b : Q) (i j : Z) :
  0 <= a -> a <= 2 ^ i -> - 2 ^ j <= b -> b <= 0 ->
  - 2 ^ (i + j) <= a * b /\ a * b <= 0.
Proof.
  intros A0 A1 B1 B0. rewrite pow2_add.
  assert (Pi := pow2_pos i). assert (Pj := pow2_pos j).
  assert (X1 : a * (- b) <= 2 ^ i * (- b)) by (apply Qmult_le_compat_r; lra).
  assert (X2 : 2 ^ i * (- b) <= 2 ^ i * 2 ^ j) by (apply Qmult_le_l; lra).
  assert (X3 : 0 <= a * (- b)) by (apply Qmult_le_0_compat; lra).
  assert (E : a * (- b) == - (a * b)) by ring.
  rewrite E in X1, X3.
  generalize dependent (a * b). generalize dependent (2 ^ i * - b).
  generalize dependent (2 ^ i * 2 ^ j). intros. split; lra.
Qed.

Lemma mul_negative (a b c : Q) : 1 <= a -> b <= - c -> 0 <= c -> a * b <= - c.
Proof.
  intros A B C.
  assert (X : 1 * (- b) <= a * (- b)) by (apply Qmult_le_compat_r; lra).
  assert (E : a * (- b) == - (a * b)) by ring.
  rewrite E in X. generalize dependent (a * b). intros. lra.
Qed.

Lemma scaled_nonpositive (S n d : Z) :
  (- 2 ^ 40 < S <= 0)%Z -> (0 < n < 2 ^ 53)%Z -> (0 < d < 2 ^ 53)%Z ->
  exists q r,
    py_truediv (Int S) (Int d) = Ok (Float q) /\
    py_mul (Int n) (Float q) = Ok (Float r) /\
    nonpositive_dim 93 (Float r) /\
    ((S < 0)%Z -> r <= - 2 ^ (-53)).
Proof.
  intros HS Hn Hd.
  assert (S0 := inject_Z_nonpos S ltac:(lia)).
  assert (S1 := inject_Z_ge_opp_pow2 S 40 ltac:(discriminate) ltac:(lia)).
  assert (D0 := inject_Z_pos d ltac:(lia)).
  assert (D1 := inject_Z_le_pow2 d 53 ltac:(discriminate) ltac:(lia)).
  assert (D2 := inject_Z_ge_1 d ltac:(lia)).
  assert (N0 := inject_Z_pos n ltac:(lia)).
  assert (N1 := inject_Z_le_pow2 n 53 ltac:(discriminate) ltac:(lia)).
  assert (N2 := inject_Z_ge_1 n ltac:(lia)).
  assert (P40 := pow2_pos 40). assert (P53 := pow2_pos (-53)).
  set (x := inject_Z S / inject_Z d).
  assert (Ex : x * inject_Z d == inject_Z S) by (unfold x; field; lra).
  assert (Q0 : x <= 0).
  { apply Qle_shift_div_r; [exact D0 | lra]. }
  assert (Q1 : - 2 ^ 40 <= x).
  { apply Qle_shift_div_l; [exact D0 |].
    assert (M : 2 ^ 40 * 1 <= 2 ^ 40 * inject_Z d) by (apply Qmult_le_l; assumption).
    assert (E : - 2 ^ 40 * inject_Z d == - (2 ^ 40 * inject_Z d)) by ring.
    rewrite E. clear - M S1.
    generalize dependent (2 ^ 40 * inject_Z d). generalize dependent (2 ^ 40).
    intros. lra. }
  assert (Q2 : (S < 0)%Z -> x <= - 2 ^ (-53)).
  { intros N. assert (SN := inject_Z_le_m1 S N).
    assert (X := div_lower (- inject_Z S) (inject_Z d) 0 53
                   ltac:(change (2 ^ (- 0)) with 1; lra) D0 D1).
    cbn [Z.add Z.opp] in X.
    assert (E : - inject_Z S / inject_Z d == - x) by (unfold x; field; lra).
    rewrite E in X. lra. }
  destruct (py_truediv_spec (Int S) (Int d)) as [q [Eq Vq]].
  - cbn; lia.
  - cbn; lia.
  - cbn [value_of]. lra.
  - cbn [value_of]. apply (small_le _ 40); [discriminate |].
    apply Qabs_le_neg; assumption.
  - cbn [value_of] in Vq. fold x in Vq.
    assert (Uq : q <= 0) by (rewrite Vq; apply round_nonpos, Q0).
    assert (Lq : - 2 ^ 40 <= q).
    { rewrite Vq. apply round_ge; [exact Q1 | apply round_opp_pow2; discriminate]. }
    assert (Nq : (S < 0)%Z -> q <= - 2 ^ (-53)).
    { intros N. rewrite Vq. apply round_le; [apply Q2, N |].
      apply round_opp_pow2. discriminate. }
    destruct (mul_nonpositive (inject_Z n) q 53 40 ltac:(lra) N1 Lq Uq) as [M1 M0].
    cbn [Z.add] in M1.
    destruct (py_mul_spec (Int n) (Float q)) as [r [Er Vr]].
    + cbn; lia.
    + exact I.
    + right. exact I.
    + cbn [value_of]. apply (small_le _ 93); [discriminate |].
      apply Qabs_le_neg; assumption.
    + cbn [value_of] in Vr. exists q, r. split; [exact Eq |]. split; [exact Er |].
      split.
      * split; [exact I |]. cbn [value_of]. split.
        -- rewrite Vr. apply round_ge; [exact M1 | apply round_opp_pow2; discriminate].
        -- rewrite Vr. apply round_nonpos, M0.
      * intros N. rewrite Vr. apply round_le; [| apply round_opp_pow2; discriminate].
        apply mul_negative; [exact N2 | apply Nq, N | lra].
Qed.

Lemma nonpositive_dim_Int (S : Z) : (- 2 ^ 40 < S <= 0)%Z -> nonpositive_dim 93 (Int S).
Proof.
  intros H. split; [cbn; lia |]. cbn [value_of]. split.
  - eapply Qle_trans; [| apply (inject_Z_ge_opp_pow2 S 40); [discriminate | lia]].
    assert (P := pow2_le 40 93 ltac:(discriminate)). lra.
  - apply inject_Z_nonpos. lia.
Qed.

Lemma initial_dimensions_nonpositive (S h w : Z) :
  (- 2 ^ 40 < S <= 0)%Z -> (0 < h < 2 ^ 53)%Z -> (0 < w < 2 ^ 53)%Z ->
  exists a b, initial_dimensions S h w = Ok (a, b)
              /\ nonpositive_dim 93 a /\ nonpositive_dim 93 b
              /\ ((S < 0)%Z -> value_of a <= - 2 ^ (-53) /\ value_of b <= - 2 ^ (-53)).
Proof.
  intros HS Hh Hw. unfold initial_dimensions.
  assert (SI : (S < 0)%Z -> inject_Z S <= - 2 ^ (-53)).
  { intros N. assert (X := inject_Z_le_m1 S N).
    assert (P : 2 ^ (-53) <= 1) by (vm_compute; discriminate). lra. }
  destruct (h <? w)%Z.
  - destruct (scaled_nonpositive S w h HS Hw Hh) as [q [r [E1 [E2 [B N]]]]].
    rewrite E1. cbn [bind]. rewrite E2. cbn [bind].
    exists (Int S), (Float r). split; [reflexivity |].
    split; [apply nonpositive_dim_Int, HS |]. split; [exact B |].
    intros Hn. cbn [value_of]. split; [apply SI, Hn | apply N, Hn].
  - destruct (scaled_nonpositive S h w HS Hh Hw) as [q [r [E1 [E2 [B N]]]]].
    rewrite E1. cbn [bind]. rewrite E2. cbn [bind].
    exists (Float r), (Int S). split; [reflexivity |].
    split; [exact B |]. split; [apply nonpositive_dim_Int, HS |].
    intros Hn. cbn [value_of]. split; [apply N, Hn | apply SI, Hn].
Qed.

Lemma nonpositive_dim_weaken (k k' : Z) (x : number) :
  (k <= k')%Z -> nonpositive_dim k x -> nonpositive_dim k' x.
Proof.
  intros H [C [L U]]. split; [exact C |]. split; [| exact U].
  assert (P := pow2_le k k' H). lra.
Qed.

Lemma scale_nonpositive (x : number) (s : Q) :
  nonpositive_dim 93 x -> 0 <= s -> s <= 2 ^ 94 ->
  exists r, py_mul x (Float s) = Ok (Float r) /\ nonpositive_dim 187 (Float r).
Proof.
  intros [Cx [X1 X0]] S0 S1.
  destruct (mul_nonpositive s (value_of x) 94 93 S0 S1 X1 X0) as [M1 M0].
  cbn [Z.add] in M1.
  assert (E : s * value_of x == value_of x * s) by ring. rewrite E in M1, M0.
  destruct (py_mul_spec x (Float s)) as [r [Er Vr]].
  - exact Cx.
  - exact I.
  - right. exact I.
  - cbn [value_of]. apply (small_le _ 187); [discriminate |].
    apply Qabs_le_neg; assumption.
  - cbn [value_of] in Vr. exists r. split; [exact Er |].
    split; [exact I |]. cbn [value_of]. split.
    + rewrite Vr. apply round_ge; [exact M1 | apply round_opp_pow2; discriminate].
    + rewrite Vr. apply round_nonpos, M0.
Qed.

Lemma clamp_nonpositive (L : Z) (a b : number) :
  (- 2 ^ 41 <= L <= 0)%Z ->
  nonpositive_dim 93 a -> nonpositive_dim 93 b ->
  ((L < 0)%Z -> value_of a <= - 2 ^ (-53) /\ value_of b <= - 2 ^ (-53)) ->
  exists a' b', clamp_dimensions L a b = Ok (a', b')
                /\ nonpositive_dim 187 a' /\ nonpositive_dim 187 b'.
Proof.
  intros HL Pa Pb Neg. unfold clamp_dimensions.
  destruct (py_max_cases a b (convertible_finite _ (proj1 Pa))
              (convertible_finite _ (proj1 Pb))) as [Hm [Ha Hb]].
  assert (Pm : nonpositive_dim 93 (py_max a b))
    by (destruct Hm as [E | E]; rewrite E; assumption).
  assert (Nm : (L < 0)%Z -> value_of (py_max a b) <= - 2 ^ (-53)).
  { intros N. destruct (Neg N) as [Na Nb]. destruct Hm as [E | E]; rewrite E; assumption. }
  set (m := py_max a b) in *.
  assert (P53 := pow2_pos (-53)).
  destruct (py_gt m (Int L)) eqn:G.
  - apply py_gt_true in G; [| exact (convertible_finite _ (proj1 Pm)) | exact I].
    cbn [value_of] in G.
    destruct Pm as [Cm [M1 M0]].
    assert (L0 := inject_Z_nonpos L ltac:(lia)).
    assert (LN : (L < 0)%Z).
    { destruct (Z_lt_ge_dec L 0) as [N | N]; [exact N | exfalso].
      replace L with 0%Z in G by lia. change (inject_Z 0) with 0 in G. lra. }
    specialize (Nm LN).
    assert (L1 : - inject_Z L <= 2 ^ 41).
    { assert (X := inject_Z_ge_opp_pow2 L 41 ltac:(discriminate) ltac:(lia)). lra. }
    assert (L2 : 0 < - inject_Z L) by (assert (X := inject_Z_le_m1 L LN); lra).
    assert (M2 : 2 ^ (- (53)) <= - value_of m).
    { change (2 ^ (- (53))) with (2 ^ (-53)). lra. }
    destruct (div_bounds (- inject_Z L) (- value_of m) 41 53 L2 L1 M2) as [Q0 Q1].
    assert (E : - inject_Z L / - value_of m == inject_Z L / value_of m).
    { field. lra. }
    rewrite E in Q0, Q1. cbn [Z.add] in Q1.
    destruct (py_truediv_spec (Int L) m) as [s [Es Vs]].
    + cbn; lia.
    + exact Cm.
    + lra.
    + cbn [value_of]. apply (small_le _ 94); [discriminate |].
      apply Qabs_le_pos; [lra | exact Q1].
    + cbn [value_of] in Vs. rewrite Es. cbn [bind].
      assert (S0 : 0 <= s) by (rewrite Vs; apply round_nonneg; lra).
      assert (S1 : s <= 2 ^ 94).
      { rewrite Vs. apply round_le; [exact Q1 | apply round_pow2; discriminate]. }
      destruct (scale_nonpositive a s Pa S0 S1) as [ra [Ea Ba]].
      destruct (scale_nonpositive b s Pb S0 S1) as [rb [Eb Bb]].
      rewrite Ea. cbn [bind]. rewrite Eb. cbn [bind].
      exists (Float ra), (Float rb). repeat split; apply Ba || apply Bb.
  - exists a, b. split; [reflexivity |].
    split; apply (nonpositive_dim_weaken 93); (discriminate || assumption).
Qed.

Lemma int_round_nonpositive (x : number) :
  nonpositive_dim 187 x -> exists n, int_round x = Ok n /\ (n <= 0)%Z.
Proof.
  intros [Cx [X1 X0]]. unfold int_round.
  assert (P := pow2_le 187 188 ltac:(discriminate)).
  assert (P1 : 1 <= 2 ^ 187) by (vm_compute; discriminate).
  destruct (py_add_spec x (Float (1 # 2))) as [r [E V]].
  - exact Cx.
  - exact I.
  - right. exact I.
  - cbn [value_of]. apply (small_le _ 188); [discriminate |].
    apply Qabs_Qle_condition. split; lra.
  - cbn [value_of] in V. rewrite E. cbn [bind py_int].
    exists (trunc r). split; [reflexivity |].
    apply trunc_below_one. rewrite V.
    eapply Qle_lt_trans; [apply (round_le _ (1 # 2)) | ].
    + lra.
    + reflexivity.
    + reflexivity.
Qed.

(** A target that is zero or negative is not rejected: the resizer goes on
    and computes dimensions that are zero or negative too. *)
Lemma rounded_dimensions_nonpositive (S h w : Z) :
  (- 2 ^ 40 < S <= 0)%Z -> (0 < h < 2 ^ 53)%Z -> (0 < w < 2 ^ 53)%Z ->
  exists nh nw, rounded_dimensions S h w = Ok (nh, nw)
                /\ (nh <= 0)%Z /\ (nw <= 0)%Z.
Proof.
  intros HS Hh Hw. unfold rounded_dimensions.
  destruct (longer_edge_nonpositive S HS) as [L [EL [HL ZL]]].
  rewrite EL. cbn [bind].
  destruct (initial_dimensions_nonpositive S h w HS Hh Hw) as [a [b [E1 [Pa [Pb N]]]]].
  rewrite E1. cbn [bind].
  destruct (clamp_nonpositive L a b HL Pa Pb) as [a' [b' [E2 [Ba Bb]]]].
  { intros LN. apply N. destruct (Z.eq_dec S 0) as [Z | Z]; [| lia].
    specialize (ZL Z). lia. }
  rewrite E2. cbn [bind].
  destruct (int_round_nonpositive a' Ba) as [nh [E3 Nh]].
  destruct (int_round_nonpositive b' Bb) as [nw [E4 Nw]].
  rewrite E3. cbn [bind]. rewrite E4. cbn [bind].
  exists nh, nw. repeat split; (reflexivity || lia).
Qed.

End NonPositiveTarget.

(** ** Statements on the resizer *)

Section ResizerStatements.

Import Binary64 Binary64Facts.
Local Open Scope Q_scope.

Lemma floor_le_spec_longer_edge (S : Z) :
  (0 <= S)%Z -> (1333 * S / 800 <= spec_longer_edge S)%Z.
Proof.
  intros HS. unfold spec_longer_edge.
  rewrite <- (rne_Z (1333 * S / 800)) at 1. apply rne_mono.
  assert (D := Z.div_mod (1333 * S) 800 ltac:(discriminate)).
  assert (M := Z.mod_pos_bound (1333 * S) 800 ltac:(reflexivity)).
  assert (K : (800 * (1333 * S / 800) <= 1333 * S)%Z) by lia.
  rewrite Zle_Qle, !inject_Z_mult in K.
  change (inject_Z 800) with 800 in K. change (inject_Z 1333) with 1333 in K.
  change (inject_Z MAX_LONGER_EDGE / inject_Z MAX_SHORTER_EDGE) with (1333 # 800).
  generalize dependent (inject_Z (1333 * S / 800)). generalize dependent (inject_Z S).
  intros. lra.
Qed.

Lemma close_to_refl (x : Q) : 0 <= x -> close_to x x.
Proof.
  intros H. unfold close_to. apply Qabs_Qle_condition.
  generalize dependent x. intros. split; lra.
Qed.

Lemma scaled_dimension_close (S n d : Z) (q r : Q) :
  (0 < S < 2 ^ 40)%Z -> (0 < n < 2 ^ 53)%Z -> (0 < d < 2 ^ 53)%Z ->
  q == round (inject_Z S / inject_Z d) ->
  r == round (inject_Z n * q) ->
  close_to r (inject_Z n * inject_Z S / inject_Z d).
Proof.
  intros HS Hn Hd Vq Vr.
  assert (S0 := inject_Z_pos S ltac:(lia)).
  assert (S1 := inject_Z_le_pow2 S 40 ltac:(discriminate) ltac:(lia)).
  assert (S2 := inject_Z_ge_1 S ltac:(lia)).
  assert (D0 := inject_Z_pos d ltac:(lia)).
  assert (D1 := inject_Z_le_pow2 d 53 ltac:(discriminate) ltac:(lia)).
  assert (D2 := inject_Z_ge_1 d ltac:(lia)).
  assert (N0 := inject_Z_pos n ltac:(lia)).
  assert (N1 := inject_Z_le_pow2 n 53 ltac:(discriminate) ltac:(lia)).
  assert (N2 := inject_Z_ge_1 n ltac:(lia)).
  set (x := inject_Z S / inject_Z d) in *.
  destruct (div_bounds (inject_Z S) (inject_Z d) 40 0 S0 S1 D2) as [X0 X1].
  assert (X2 := div_lower (inject_Z S) (inject_Z d) 0 53 S2 D0 D1).
  fold x in X0, X1, X2. cbn [Z.add Z.opp] in X1, X2.
  assert (Ex : Qabs (round x - x) <= Qabs x * 2 ^ (- prec)).
  { apply round_error. rewrite Qabs_pos by lra.
    eapply Qle_trans; [| exact X2]. apply pow2_le. discriminate. }
  rewrite (Qabs_pos x) in Ex by lra. apply Qabs_Qle_condition in Ex.
  change (2 ^ (- prec)) with (1 # 9007199254740992) in Ex. rewrite <- Vq in Ex.
  assert (Lq : 2 ^ (-53) <= q).
  { rewrite Vq. apply round_ge; [exact X2 | apply round_pow2; discriminate]. }
  assert (Uq : q <= 2 ^ 40).
  { rewrite Vq. apply round_le; [exact X1 | apply round_pow2; discriminate]. }
  destruct (mul_bounds (inject_Z n) q 0 53 (-53) 40 N2 N1 Lq Uq) as [Y1 Y2].
  cbn [Z.add] in Y1, Y2.
  assert (P53 := pow2_pos (-53)).
  assert (Ey : Qabs (round (inject_Z n * q) - inject_Z n * q)
               <= Qabs (inject_Z n * q) * 2 ^ (- prec)).
  { apply round_error. rewrite Qabs_pos by lra.
    eapply Qle_trans; [| exact Y1]. apply pow2_le. discriminate. }
  rewrite (Qabs_pos (inject_Z n * q)) in Ey by lra. apply Qabs_Qle_condition in Ey.
  change (2 ^ (- prec)) with (1 # 9007199254740992) in Ey. rewrite <- Vr in Ey.
  assert (A1 : inject_Z n * q <= inject_Z n * (x + x * (1 # 9007199254740992))).
  { apply Qmult_le_l; [exact N0 | lra]. }
  assert (A2 : inject_Z n * (x - x * (1 # 9007199254740992)) <= inject_Z n * q).
  { apply Qmult_le_l; [exact N0 | lra]. }
  assert (T : inject_Z n * inject_Z S / inject_Z d == inject_Z n * x).
  { unfold x. field. lra. }
  assert (XP : 0 < inject_Z n * x) by (apply Qmult_lt_0_compat; assumption).
  unfold close_to. rewrite T. apply Qabs_Qle_condition.
  assert (B1 : inject_Z n * (x + x * (1 # 9007199254740992))
               == inject_Z n * x + inject_Z n * x * (1 # 9007199254740992)) by ring.
  assert (B2 : inject_Z n * (x - x * (1 # 9007199254740992))
               == inject_Z n * x - inject_Z n * x * (1 # 9007199254740992)) by ring.
  rewrite B1 in A1. rewrite B2 in A2.
  clear - A1 A2 Ey XP.
  generalize dependent (inject_Z n * x). generalize dependent (inject_Z n * q).
  intros. split; lra.
Qed.

Lemma floor_to_divisor_spec (D x : Z) :
  D <> 0%Z -> floor_to_divisor (Some D) x = Ok (x / D * D)%Z.
Proof.
  intros H. unfold floor_to_divisor, py_floordiv.
  destruct (D =? 0)%Z eqn:E; [apply Z.eqb_eq in E; contradiction | reflexivity].
Qed.

Lemma floor_multiple (D x : Z) :
  (0 < D)%Z -> (x / D * D <= x)%Z /\ (x < x / D * D + D)%Z /\ (D | x / D * D)%Z.
Proof.
  intros H. assert (E := Z.div_mod x D ltac:(lia)).
  assert (M := Z.mod_pos_bound x D H).
  repeat split; try lia. exists (x / D)%Z. reflexivity.
Qed.

Lemma resize_target_unfold (S : Z) (D : option Z) (h w rh rw : Z) :
  rounded_dimensions S h w = Ok (rh, rw) ->
  resize_target S D h w =
    (nh <- floor_to_divisor D rh;; nw <- floor_to_divisor D rw;; Ok (nh, nw))%result.
Proof. intros E. unfold resize_target. rewrite E. reflexivity. Qed.

Lemma bind_Ok {A B : Type} (c : result A) (k : A -> result B) (v : B) :
  bind c k = Ok v -> exists a, c = Ok a /\ k a = Ok v.
Proof.
  destruct c as [a | e]; cbn; intros H; [exists a; split; [reflexivity | exact H] |].
  discriminate.
Qed.

Lemma rounded_dimensions_steps (S h w rh rw : Z) :
  rounded_dimensions S h w = Ok (rh, rw) ->
  exists L a b xh xw,
    longer_edge S = Ok L /\
    initial_dimensions S h w = Ok (a, b) /\
    clamp_dimensions L a b = Ok (xh, xw) /\
    int_round xh = Ok rh /\ int_round xw = Ok rw.
Proof.
  unfold rounded_dimensions. intros H.
  apply bind_Ok in H. destruct H as [L [E1 H]].
  apply bind_Ok in H. destruct H as [[a b] [E2 H]].
  apply bind_Ok in H. destruct H as [[xh xw] [E3 H]].
  apply bind_Ok in H. destruct H as [rh' [E4 H]].
  apply bind_Ok in H. destruct H as [rw' [E5 H]].
  injection H as -> ->. exists L, a, b, xh, xw. repeat split; assumption.
Qed.

(** C1, as the code has it: for every positive shortest edge [S] below
    [2^40] the longer-edge bound is [int(1333 / 800 * S)], the product
    truncated toward zero, that is the floor of [1333 * S / 800]; for
    [S = 384] the bound is 639. *)
Theorem longer_edge_truncates (S : Z) :
  (0 < S < 2 ^ 40)%Z ->
  longer_edge S = Ok (1333 * S / 800)%Z /\ longer_edge 384 = Ok 639%Z.
Proof.
  intros HS. split; [apply longer_edge_floor, HS |].
  apply (longer_edge_floor 384). lia.
Qed.

Lemma longer_edge_truncates_witness :
  (0 < 800 < 2 ^ 40)%Z /\ longer_edge 800 = Ok 1333%Z.
Proof.
  split; [lia |].
  exact (proj1 (longer_edge_truncates 800 (conj eq_refl eq_refl))).
Defined.

(** C1, as stated, fails at [S = 384]: the code yields 639 where
    rounding to nearest gives 640. *)
Lemma longer_edge_384_is_not_rounded :
  longer_edge 384 = Ok 639%Z /\ spec_longer_edge 384 = 640%Z
  /\ longer_edge 384 <> Ok (spec_longer_edge 384).
Proof.
  assert (E : longer_edge 384 = Ok 639%Z) by (vm_compute; reflexivity).
  assert (F : spec_longer_edge 384 = 640%Z) by (vm_compute; reflexivity).
  split; [exact E |]. split; [exact F |]. rewrite E, F. discriminate.
Qed.

Lemma resize_target_multiple_and_bounded (S D h w : Z) :
  (0 < S < 2 ^ 40)%Z -> (0 < D)%Z -> (0 < h < 2 ^ 53)%Z -> (0 < w < 2 ^ 53)%Z ->
  exists nh nw,
    resize_target S (Some D) h w = Ok (nh, nw)
    /\ (0 <= nh)%Z /\ (0 <= nw)%Z
    /\ (D | nh)%Z /\ (D | nw)%Z
    /\ (Z.max nh nw <= spec_longer_edge S + 1)%Z.
Proof.
  intros HS HD Hh Hw.
  destruct (rounded_dimensions_positive S h w HS Hh Hw) as [rh [rw [E [Bh Bw]]]].
  assert (F := floor_le_spec_longer_edge S ltac:(lia)).
  destruct (floor_multiple D rh HD) as [H1 [H2 H3]].
  destruct (floor_multiple D rw HD) as [W1 [W2 W3]].
  exists (rh / D * D)%Z, (rw / D * D)%Z.
  rewrite (resize_target_unfold S (Some D) h w rh rw E).
  rewrite !floor_to_divisor_spec by lia. cbn [bind].
  split; [reflexivity |].
  assert (Qh : (0 <= rh / D)%Z) by (apply Z.div_pos; lia).
  assert (Qw : (0 <= rw / D)%Z) by (apply Z.div_pos; lia).
  repeat split; try assumption; try nia.
Qed.

(** C5: before the longer-edge check the target is [(S, w * S / h)] when
    [h < w] and [(h * S / w, S)] otherwise, the scaled side being the
    float product the source computes, within two roundings of the exact
    quotient; a square image takes the second branch. *)
Theorem initial_dimensions_by_orientation (S h w : Z) :
  (0 < S < 2 ^ 40)%Z -> (0 < h < 2 ^ 53)%Z -> (0 < w < 2 ^ 53)%Z ->
  exists r : Q,
    initial_dimensions S h w
    = Ok (if (h <? w)%Z then (Int S, Float r) else (Float r, Int S))
    /\ close_to r (if (h <? w)%Z
                   then snd (spec_initial_dimensions S h w)
                   else fst (spec_initial_dimensions S h w))
    /\ inject_Z S == (if (h <? w)%Z
                      then fst (spec_initial_dimensions S h w)
                      else snd (spec_initial_dimensions S h w))
    /\ (h = w -> initial_dimensions S h w = Ok (Float r, Int S)).
Proof.
  intros HS Hh Hw. unfold initial_dimensions, spec_initial_dimensions.
  destruct (h <? w)%Z eqn:C.
  - destruct (scaled_dimension S w h HS Hw Hh) as [q [r [E1 [E2 [Vq [Vr _]]]]]].
    exists r. rewrite E1. cbn [bind]. rewrite E2. cbn [bind fst snd].
    split; [reflexivity |].
    split; [apply (scaled_dimension_close S w h q r); assumption |].
    split; [reflexivity |].
    intros ->. rewrite Z.ltb_irrefl in C. discriminate.
  - destruct (scaled_dimension S h w HS Hh Hw) as [q [r [E1 [E2 [Vq [Vr _]]]]]].
    exists r. rewrite E1. cbn [bind]. rewrite E2. cbn [bind fst snd].
    split; [reflexivity |].
    split; [apply (scaled_dimension_close S h w q r); assumption |].
    split; reflexivity.
Qed.

Lemma initial_dimensions_by_orientation_witness :
  exists r : Q,
    initial_dimensions 384 300 300 = Ok (Float r, Int 384)
    /\ close_to r (300 * 384 / 300).
Proof.
  destruct (initial_dimensions_by_orientation 384 300 300) as [r [E [H _]]];
    [repeat split; reflexivity .. |].
  exists r. split; [exact E | exact H].
Defined.

End ResizerStatements.

(** ** Masks *)

Section MaskFacts.

Local Open Scope nat_scope.

Lemma flat_index (r c W : nat) : c < W -> (r * W + c) / W = r /\ (r * W + c) mod W = c.
Proof.
  intros H. split.
  - rewrite Nat.div_add_l by lia. rewrite Nat.div_small by exact H. lia.
  - rewrite Nat.add_comm, Nat.Div0.mod_add. apply Nat.mod_small, H.
Qed.

Lemma flat_index_bound (r c H W : nat) : r < H -> c < W -> r * W + c < H * W.
Proof. intros Hr Hc. nia. Qed.

Lemma nth_error_repeat {A : Type} (a : A) (n i : nat) :
  i < n -> nth_error (repeat a n) i = Some a.
Proof.
  revert i. induction n as [| n IH]; intros i H; [lia |].
  destruct i as [| i]; cbn; [reflexivity | apply IH; lia].
Qed.

Lemma nth_error_indexed_map {A B : Type} (f : nat * A -> B) (l : list A) (k i : nat) (a : A) :
  nth_error l i = Some a ->
  nth_error (map f (combine (seq k (List.length l)) l)) i = Some (f (k + i, a)).
Proof.
  revert k i. induction l as [| x l IH]; intros k i H.
  - destruct i; discriminate.
  - destruct i as [| i]; cbn in *.
    + injection H as ->. rewrite Nat.add_0_r. reflexivity.
    + rewrite (IH (S k) i H). f_equal. f_equal. f_equal. lia.
Qed.

Lemma mask_at_ones (size : nat * nat) (r c : nat) :
  r < fst size -> c < snd size -> mask_at (torch_ones size) r c = Some 1%Z.
Proof.
  intros Hr Hc. unfold mask_at, torch_ones. cbn [mask_height mask_width mask_values].
  apply Nat.ltb_lt in Hr as Br. apply Nat.ltb_lt in Hc as Bc. rewrite Br, Bc. cbn [andb].
  apply nth_error_repeat, flat_index_bound; assumption.
Qed.

Lemma mask_at_fill_zeros (size : nat * nat) (rows cols r c : nat) :
  r < fst size -> c < snd size ->
  mask_at (fill_region (clone (torch_zeros size)) rows cols 1) r c
  = Some (if (r <? rows) && (c <? cols) then 1%Z else 0%Z).
Proof.
  intros Hr Hc. unfold mask_at, fill_region, clone, torch_zeros.
  cbn [mask_height mask_width mask_values].
  apply Nat.ltb_lt in Hr as Br. apply Nat.ltb_lt in Hc as Bc. rewrite Br, Bc. cbn [andb].
  assert (B := flat_index_bound r c _ _ Hr Hc).
  rewrite (nth_error_indexed_map _ _ 0 (r * snd size + c) 0%Z
             (nth_error_repeat 0%Z _ _ B)).
  cbn [fst snd Nat.add]. destruct (flat_index r c (snd size) Hc) as [E1 E2].
  rewrite E1, E2. reflexivity.
Qed.

Lemma fill_region_shape (m : mask) (rows cols : nat) (v : Z) :
  mask_height (fill_region m rows cols v) = mask_height m
  /\ mask_width (fill_region m rows cols v) = mask_width m.
Proof. split; reflexivity. Qed.

End MaskFacts.

(** ** The padding phase *)

Section PaddingFacts.

Local Open Scope nat_scope.

Variable pixel : Type.
Variable zero : pixel.

Lemma needs_padding_false (max_size : nat * nat) (img : image pixel) :
  needs_padding max_size img = false <-> spatial_size img = max_size.
Proof.
  unfold needs_padding, spatial_size. destruct max_size as [H W]. cbn [fst snd].
  rewrite orb_false_iff, !negb_false_iff, !Nat.eqb_eq. split.
  - intros [-> ->]. reflexivity.
  - intros E. injection E as -> ->. split; reflexivity.
Qed.

Lemma needs_padding_true (max_size : nat * nat) (img : image pixel) :
  needs_padding max_size img = true <-> spatial_size img <> max_size.
Proof.
  rewrite <- needs_padding_false. destruct (needs_padding max_size img); split;
    intros H; congruence.
Qed.

Lemma pad_image_unfold (max_size : nat * nat) (t : option mask) (img : image pixel) :
  pad_image zero max_size t img
  = if needs_padding max_size img then
      match t with
      | Some template =>
          Ok (F_pad img (0, 0, snd max_size - width img, fst max_size - height img) zero,
              fill_region (clone template) (height img) (width img) 1)
      | None => Raise UnboundLocalError
      end
    else Ok (img, torch_ones max_size).
Proof.
  unfold pad_image, needs_padding. cbn [fst snd].
  destruct (negb (height img =? fst max_size) || negb (width img =? snd max_size));
    [destruct t |]; reflexivity.
Qed.

Lemma max_size_bounds (images : list (image pixel)) (img : image pixel) :
  In img images ->
  height img <= fst (get_max_height_width images)
  /\ width img <= snd (get_max_height_width images).
Proof.
  intros H. unfold get_max_height_width. cbn [fst snd]. split.
  - assert (F := proj1 (list_max_le (map (@height pixel) images) _) (Nat.le_refl _)).
    rewrite Forall_forall in F. apply F, in_map, H.
  - assert (F := proj1 (list_max_le (map (@width pixel) images) _) (Nat.le_refl _)).
    rewrite Forall_forall in F. apply F, in_map, H.
Qed.

(** Without a template the loop stops at the first image that needs
    padding. *)
Lemma pad_loop_unbound (max_size : nat * nat) (images : list (image pixel)) :
  (exists img, In img images /\ spatial_size img <> max_size) ->
  mapM (pad_image zero max_size None) images = Raise UnboundLocalError.
Proof.
  induction images as [| x l IH]; intros [img [Hin Hne]]; [destruct Hin |].
  cbn [mapM]. rewrite pad_image_unfold.
  destruct (needs_padding max_size x) eqn:N; [reflexivity |].
  cbn [bind]. rewrite IH; [reflexivity |].
  destruct Hin as [-> | Hin].
  - apply needs_padding_false in N. contradiction.
  - exists img. split; assumption.
Qed.

Lemma pad_loop_full_size (max_size : nat * nat) (t : option mask)
  (images : list (image pixel)) :
  (forall img, In img images -> spatial_size img = max_size) ->
  mapM (pad_image zero max_size t) images
  = Ok (map (fun img => (img, torch_ones max_size)) images).
Proof.
  induction images as [| x l IH]; intros H; [reflexivity |].
  cbn [mapM map]. rewrite pad_image_unfold.
  rewrite (proj2 (needs_padding_false max_size x) (H x (or_introl eq_refl))).
  cbn [bind]. rewrite IH by (intros img Hin; apply H; right; exact Hin).
  reflexivity.
Qed.

Lemma mapM_nth_error {A B : Type} (f : A -> result B) (l : list A) (l' : list B)
  (i : nat) (a : A) :
  mapM f l = Ok l' -> nth_error l i = Some a ->
  exists b, f a = Ok b /\ nth_error l' i = Some b.
Proof.
  revert l' i. induction l as [| x l IH]; intros l' i H Hi; [destruct i; discriminate |].
  cbn [mapM] in H. destruct (f x) as [b |] eqn:Fx; [| discriminate].
  cbn [bind] in H. destruct (mapM f l) as [bs |] eqn:M; [| discriminate].
  cbn [bind] in H. injection H as <-.
  destruct i as [| i]; cbn in *.
  - injection Hi as <-. exists b. split; [exact Fx | reflexivity].
  - apply (IH bs i eq_refl Hi).
Qed.

Lemma mapM_total {A B : Type} (f : A -> result B) (l : list A) :
  (forall a, In a l -> exists b, f a = Ok b) -> exists l', mapM f l = Ok l'.
Proof.
  induction l as [| x l IH]; intros H; [exists []; reflexivity |].
  destruct (H x (or_introl eq_refl)) as [b Fx].
  destruct IH as [bs M]; [intros a Ha; apply H; right; exact Ha |].
  exists (b :: bs). cbn [mapM]. rewrite Fx. cbn [bind]. rewrite M. reflexivity.
Qed.

Lemma map_const_repeat {A B : Type} (b : B) (l : list A) :
  map (fun _ => b) l = repeat b (List.length l).
Proof. induction l as [| x l IH]; [reflexivity |]. cbn. f_equal. exact IH. Qed.

Lemma is_pt_false (return_tensors : option string) :
  return_tensors <> Some "pt"%string -> is_pt return_tensors = false.
Proof.
  destruct return_tensors as [s |]; [| reflexivity]. cbn. intros H.
  destruct (String.eqb s "pt") eqn:E; [| reflexivity].
  apply String.eqb_eq in E. subst s. contradiction.
Qed.

(** What one turn of the padding loop produces when it produces
    something. *)
Lemma pad_image_mask (max_size : nat * nat) (nonempty : bool) (rt : option string)
  (img p : image pixel) (m : mask) :
  height img <= fst max_size -> width img <= snd max_size ->
  pad_image zero max_size
    (if is_pt rt && nonempty then Some (torch_zeros max_size) else None) img
  = Ok (p, m) ->
  spatial_size p = max_size
  /\ (mask_height m, mask_width m) = max_size
  /\ forall r c, r < fst max_size -> c < snd max_size ->
       mask_at m r c = Some (if (r <? height img) && (c <? width img) then 1%Z else 0%Z).
Proof.
  intros Hh Hw. rewrite pad_image_unfold.
  destruct (needs_padding max_size img) eqn:N.
  - destruct (is_pt rt && nonempty); [| discriminate].
    intros E. injection E as <- <-. destruct max_size as [H W]. cbn [fst snd] in *.
    split; [| split].
    + unfold spatial_size, F_pad. cbn [height width]. f_equal; lia.
    + reflexivity.
    + intros r c Hr Hc. apply (mask_at_fill_zeros (H, W)); assumption.
  - apply needs_padding_false in N. intros E. injection E as <- <-.
    split; [exact N | split].
    + destruct max_size; reflexivity.
    + intros r c Hr Hc. rewrite mask_at_ones by assumption.
      unfold spatial_size in N. rewrite <- N in Hr, Hc. cbn [fst snd] in Hr, Hc.
      apply Nat.ltb_lt in Hr, Hc. rewrite Hr, Hc. reflexivity.
Qed.

(** C2: when padding is on, every mask the padder produces has the
    spatial shape of the padded image, which is the maximum size of the
    batch, and holds 1 exactly on the rows and columns of the original
    image and 0 elsewhere; with tensor output requested the padder always
    produces them. *)
Theorem pixel_mask_marks_original_region (return_tensors : option string)
  (images : list (image pixel)) :
  (is_pt return_tensors = true ->
   exists padded masks, pad_images zero return_tensors images = Ok (padded, masks))
  /\
  forall padded masks,
    pad_images zero return_tensors images = Ok (padded, masks) ->
    forall i img, nth_error images i = Some img ->
      let max_size := get_max_height_width images in
      height img <= fst max_size /\ width img <= snd max_size /\
      exists p m,
        nth_error padded i = Some p /\ nth_error masks i = Some m /\
        spatial_size p = max_size /\
        (mask_height m, mask_width m) = max_size /\
        forall r c, r < fst max_size -> c < snd max_size ->
          mask_at m r c
          = Some (if (r <? height img) && (c <? width img) then 1%Z else 0%Z).
Proof.
  unfold pad_images. set (max_size := get_max_height_width images).
  set (template := if is_pt return_tensors && (0 <? List.length images)
                   then Some (torch_zeros max_size) else None).
  split.
  - intros Pt.
    destruct (mapM_total (pad_image zero max_size template) images) as [l' M].
    + intros img Hin. rewrite pad_image_unfold.
      destruct (needs_padding max_size img); [| eexists; reflexivity].
      unfold template. rewrite Pt.
      destruct images as [| x l]; [destruct Hin |]. cbn. eexists. reflexivity.
    + rewrite M. cbn [bind]. eexists. eexists. reflexivity.
  - intros padded masks H i img Hi.
    destruct (mapM (pad_image zero max_size template) images) as [pairs |] eqn:M;
      [| discriminate].
    cbn [bind] in H. injection H as <- <-.
    destruct (max_size_bounds images img (nth_error_In _ _ Hi)) as [Bh Bw].
    fold max_size in Bh, Bw. cbn zeta.
    split; [exact Bh |]. split; [exact Bw |].
    destruct (mapM_nth_error _ _ _ i img M Hi) as [[p m] [E Hp]].
    exists p, m.
    split; [rewrite nth_error_map, Hp; reflexivity |].
    split; [rewrite nth_error_map, Hp; reflexivity |].
    apply (pad_image_mask max_size (0 <? List.length images) return_tensors img p m Bh Bw E).
Qed.

Lemma pad_images_unbound_template (return_tensors : option string)
  (processed_images : list (image pixel)) :
  return_tensors <> Some "pt"%string ->
  (exists img, In img processed_images
               /\ spatial_size img <> get_max_height_width processed_images) ->
  pad_images zero return_tensors processed_images = Raise UnboundLocalError
  /\ assemble zero true return_tensors processed_images = Raise UnboundLocalError.
Proof.
  intros Hrt Hex.
  assert (P : pad_images zero return_tensors processed_images = Raise UnboundLocalError).
  { unfold pad_images. rewrite (is_pt_false _ Hrt). cbn [andb].
    rewrite (pad_loop_unbound _ _ Hex). reflexivity. }
  split; [exact P |]. unfold assemble. rewrite P. reflexivity.
Qed.

(** C9: when every image already has the maximum size of the batch,
    padding returns the images as they are and every mask is all ones of
    that size. *)
Theorem padding_full_size_batch_is_identity (return_tensors : option string)
  (images : list (image pixel)) :
  (forall img, In img images -> spatial_size img = get_max_height_width images) ->
  let H := fst (get_max_height_width images) in
  let W := snd (get_max_height_width images) in
  pad_images zero return_tensors images
  = Ok (images, repeat (Mask H W (repeat 1%Z (H * W))) (List.length images)).
Proof.
  intros Hall H W. unfold pad_images.
  rewrite (pad_loop_full_size _ _ images Hall). cbn [bind].
  rewrite !map_map. cbn [fst snd]. rewrite map_id. f_equal. f_equal.
  unfold torch_ones. cbn [fst snd]. fold H W. apply map_const_repeat.
Qed.

End PaddingFacts.

(** ** Shape grouping and reordering *)

Section GroupingFacts.

Local Open Scope nat_scope.

Variable pixel : Type.

Lemma shape_eqb_eq (a b : shape_key) : shape_eqb a b = true <-> a = b.
Proof.
  destruct a as [[c1 h1] w1], b as [[c2 h2] w2]. cbn.
  rewrite !andb_true_iff, !Nat.eqb_eq. split.
  - intros [[-> ->] ->]. reflexivity.
  - intros E. injection E as -> -> ->. repeat split.
Qed.

Lemma shape_eqb_refl (a : shape_key) : shape_eqb a a = true.
Proof. apply shape_eqb_eq. reflexivity. Qed.

Lemma shape_eqb_neq (a b : shape_key) : a <> b -> shape_eqb a b = false.
Proof.
  intros H. destruct (shape_eqb a b) eqn:E; [| reflexivity].
  apply shape_eqb_eq in E. contradiction.
Qed.

Lemma dict_get_set_same {V : Type} (k : shape_key) (v : V) (d : dict shape_key V) :
  dict_get k (dict_set k v d) = Some v.
Proof.
  induction d as [| [k' v'] d IH]; cbn.
  - rewrite shape_eqb_refl. reflexivity.
  - destruct (shape_eqb k' k) eqn:E; cbn; rewrite E; [reflexivity | exact IH].
Qed.

Lemma dict_get_set_other {V : Type} (k k' : shape_key) (v : V) (d : dict shape_key V) :
  k' <> k -> dict_get k' (dict_set k v d) = dict_get k' d.
Proof.
  intros N. induction d as [| [k0 v0] d IH]; cbn.
  - rewrite shape_eqb_neq by congruence. reflexivity.
  - destruct (shape_eqb k0 k) eqn:E; cbn.
    + apply shape_eqb_eq in E. subst k0.
      rewrite shape_eqb_neq by congruence. reflexivity.
    + destruct (shape_eqb k0 k'); [reflexivity | exact IH].
Qed.

Lemma total_size_set (key : shape_key) (img : image pixel)
  (grouped : dict shape_key (list (image pixel))) :
  total_size (dict_set key (members_of key grouped ++ [img]) grouped)
  = S (total_size grouped).
Proof.
  unfold members_of, total_size, list_sum.
  induction grouped as [| [k l] d IH]; cbn; [reflexivity |].
  destruct (shape_eqb k key) eqn:E; cbn.
  - rewrite length_app. cbn. lia.
  - rewrite IH. lia.
Qed.

Lemma group_inv_nil : @group_inv pixel [] [] [].
Proof.
  constructor; cbn; try reflexivity.
  - intros [| i] k j H; discriminate.
  - intros k l j H. discriminate.
  - constructor.
Qed.

Lemma group_inv_step (seen : list (image pixel))
  (grouped : dict shape_key (list (image pixel)))
  (index : list (shape_key * nat)) (img : image pixel) :
  group_inv seen grouped index ->
  group_inv (seen ++ [img])
    (dict_set (image_shape img) (members_of (image_shape img) grouped ++ [img]) grouped)
    (index ++ [(image_shape img, List.length (members_of (image_shape img) grouped))]).
Proof.
  intros [Hlen Hlook Hcover Hnodup Htotal].
  set (key := image_shape img). set (members := members_of key grouped).
  constructor.
  - rewrite !length_app. cbn. lia.
  - intros i k j Hi.
    destruct (Nat.lt_ge_cases i (List.length index)) as [Lt | Ge].
    + rewrite nth_error_app1 in Hi by exact Lt.
      destruct (Hlook i k j Hi) as [l [x [G [Nl [Ns Sh]]]]].
      destruct (shape_eqb k key) eqn:E.
      * apply shape_eqb_eq in E. rewrite E in *. clear E.
        exists (members ++ [img]), x. rewrite dict_get_set_same.
        assert (M : members = l) by (unfold members, members_of; rewrite G; reflexivity).
        split; [reflexivity |]. split.
        -- rewrite M, nth_error_app1; [exact Nl |]. apply nth_error_Some. congruence.
        -- split; [| exact Sh]. rewrite nth_error_app1; [exact Ns |].
           apply nth_error_Some. congruence.
      * assert (N : k <> key).
        { intros ->. rewrite shape_eqb_refl in E. discriminate. }
        exists l, x. rewrite dict_get_set_other by exact N.
        split; [exact G |]. split; [exact Nl |]. split; [| exact Sh].
        rewrite nth_error_app1; [exact Ns |]. apply nth_error_Some. congruence.
    + rewrite nth_error_app2 in Hi by exact Ge.
      destruct (i - List.length index) as [| n] eqn:D; cbn in Hi;
        [| destruct n; discriminate].
      injection Hi as <- <-.
      exists (members ++ [img]), img. rewrite dict_get_set_same.
      split; [reflexivity |]. split.
      * rewrite nth_error_app2 by lia. rewrite Nat.sub_diag. reflexivity.
      * split; [| reflexivity].
        rewrite nth_error_app2 by lia.
        replace (i - List.length seen) with 0 by lia. reflexivity.
  - intros k l j G Hj. apply in_or_app.
    destruct (shape_eqb k key) eqn:E.
    + apply shape_eqb_eq in E. rewrite E in *. clear E.
      rewrite dict_get_set_same in G. injection G as <-. rewrite length_app in Hj. cbn in Hj.
      destruct (Nat.eq_dec j (List.length members)) as [-> | N].
      * right. left. reflexivity.
      * left. unfold members, members_of in *.
        destruct (dict_get key grouped) as [l |] eqn:G.
        -- apply (Hcover key l j G). lia.
        -- cbn in Hj, N. lia.
    + assert (N : k <> key).
      { intros ->. rewrite shape_eqb_refl in E. discriminate. }
      rewrite dict_get_set_other in G by exact N.
      left. apply (Hcover k l j G Hj).
  - apply NoDup_app; [exact Hnodup | repeat constructor; intros [] |].
    intros [k j] Hin [E | []]. injection E as <- <-.
    apply In_nth_error in Hin. destruct Hin as [i Hi].
    destruct (Hlook i _ _ Hi) as [l [x [G [Nl _]]]].
    unfold members, members_of in Nl. fold key in G. rewrite G in Nl.
    assert (C : List.length l < List.length l) by (apply nth_error_Some; congruence).
    lia.
  - subst members key. rewrite total_size_set, length_app. cbn. lia.
Qed.

Lemma group_loop_inv (images seen : list (image pixel))
  (grouped : dict shape_key (list (image pixel)))
  (index : list (shape_key * nat)) :
  group_inv seen grouped index ->
  group_inv (seen ++ images) (fst (group_loop images grouped index))
    (snd (group_loop images grouped index)).
Proof.
  revert seen grouped index.
  induction images as [| img rest IH]; intros seen grouped index Inv.
  - cbn. rewrite app_nil_r. exact Inv.
  - cbn [group_loop]. replace (seen ++ img :: rest) with ((seen ++ [img]) ++ rest)
      by (rewrite <- app_assoc; reflexivity).
    apply IH. apply (group_inv_step seen grouped index img Inv).
Qed.

Lemma group_images_by_shape_unfold (images : list (image pixel)) :
  group_images_by_shape images
  = (map (@stack_group pixel) (fst (group_loop images [] [])),
     snd (group_loop images [] [])).
Proof.
  unfold group_images_by_shape. destruct (group_loop images [] []). reflexivity.
Qed.

Lemma dict_get_stacked (k : shape_key) (grouped : dict shape_key (list (image pixel))) :
  dict_get k (map (@stack_group pixel) grouped)
  = option_map (fun l => snd (stack_group (k, l))) (dict_get k grouped).
Proof.
  induction grouped as [| [k' l] d IH]; cbn; [reflexivity |].
  unfold stack_group at 1. cbn [fst snd]. destruct k' as [[c h] w]. cbn [dict_get].
  destruct (shape_eqb (c, h, w) k) eqn:E.
  - apply shape_eqb_eq in E. subst k. reflexivity.
  - exact IH.
Qed.

Lemma stacked_get_member (l : list (image pixel)) (j : nat) (img : image pixel) :
  nth_error l j = Some img ->
  stacked_get (snd (stack_group (image_shape img, l))) j = Ok img.
Proof.
  intros H. unfold stack_group, image_shape, stacked_get. cbn.
  rewrite nth_error_map, H. cbn. destruct img. reflexivity.
Qed.

Lemma mapM_pointwise {A B : Type} (f : A -> result B) (l : list A) (l' : list B) :
  List.length l = List.length l' ->
  (forall i a, nth_error l i = Some a ->
               exists b, nth_error l' i = Some b /\ f a = Ok b) ->
  mapM f l = Ok l'.
Proof.
  revert l'. induction l as [| a l IH]; intros [| b l'] Hlen H; try discriminate.
  - reflexivity.
  - cbn [mapM]. destruct (H 0 a eq_refl) as [b' [E F]]. injection E as <-.
    rewrite F. cbn [bind]. rewrite (IH l').
    + reflexivity.
    + cbn in Hlen. lia.
    + intros i x Hi. apply (H (S i) x Hi).
Qed.

(** C8: grouping by shape and reordering by the recorded index gives back
    the original list in its original order; every image sits in exactly
    one slot of the group of its shape, no slot is used twice and none is
    left out. *)
Theorem grouping_round_trip (images : list (image pixel)) :
  let grouped := fst (group_images_by_shape images) in
  let index := snd (group_images_by_shape images) in
  reorder_images grouped index = Ok images
  /\ List.length index = List.length images
  /\ (forall i img, nth_error images i = Some img ->
        exists j s, nth_error index i = Some (image_shape img, j)
                    /\ dict_get (image_shape img) grouped = Some s
                    /\ stacked_get s j = Ok img)
  /\ NoDup index
  /\ (forall k s j, dict_get k grouped = Some s ->
        j < List.length (s_slices s) -> In (k, j) index)
  /\ list_sum (map (fun e : shape_key * stacked pixel =>
                      List.length (s_slices (snd e))) grouped)
     = List.length images.
Proof.
  rewrite group_images_by_shape_unfold. cbn [fst snd].
  destruct (group_loop_inv images [] [] [] (group_inv_nil))
    as [Hlen Hlook Hcover Hnodup Htotal].
  cbn [app] in *.
  set (raw := fst (group_loop images [] [])) in *.
  set (index := snd (group_loop images [] [])) in *.
  assert (Slot : forall i img, nth_error images i = Some img ->
            exists j s, nth_error index i = Some (image_shape img, j)
                        /\ dict_get (image_shape img) (map (@stack_group pixel) raw) = Some s
                        /\ stacked_get s j = Ok img).
  { intros i img Hi.
    destruct (nth_error index i) as [[k j] |] eqn:Ni.
    - destruct (Hlook i k j Ni) as [l [x [G [Nl [Ns Sh]]]]].
      assert (x = img) by congruence. subst x. subst k.
      exists j, (snd (stack_group (image_shape img, l))).
      split; [reflexivity |]. split.
      + rewrite dict_get_stacked, G. reflexivity.
      + apply stacked_get_member, Nl.
    - apply nth_error_None in Ni.
      assert (i < List.length images) by (apply nth_error_Some; congruence). lia. }
  split; [| split; [exact Hlen | split; [exact Slot | split; [exact Hnodup | split]]]].
  - unfold reorder_images. apply mapM_pointwise; [exact Hlen |].
    intros i [k j] Hi. cbn [fst snd].
    destruct (Hlook i k j Hi) as [l [x [G [Nl [Ns Sh]]]]]. subst k.
    exists x. split; [exact Ns |].
    rewrite dict_get_stacked, G. cbn [option_map]. apply stacked_get_member, Nl.
  - intros k s j G Hj. rewrite dict_get_stacked in G.
    destruct (dict_get k raw) as [l |] eqn:Gr; [| discriminate].
    cbn [option_map] in G. injection G as <-.
    apply (Hcover k l j Gr).
    unfold stack_group in Hj. destruct k as [[c h] w]. cbn in Hj.
    rewrite length_map in Hj. exact Hj.
  - rewrite <- Htotal. unfold total_size. rewrite map_map. f_equal.
    apply map_ext. intros [[[c h] w] l]. cbn. apply length_map.
Qed.

End GroupingFacts.

(** ** The whole of [_preprocess] *)

Section PreprocessFacts.

Variable pixel : Type.
Variable zero : pixel.
Variable interpolation_mode : Type.
Variable F_resize :
  stacked pixel -> list Z -> option interpolation_mode -> result (stacked pixel).
Variable rescale_and_normalize :
  stacked pixel -> bool -> Q -> bool -> option (list Q) -> option (list Q) ->
  result (stacked pixel).

Lemma rounded_dimensions_total (S h w : Z) :
  (- 2 ^ 40 < S < 2 ^ 40)%Z -> (0 < h < 2 ^ 53)%Z -> (0 < w < 2 ^ 53)%Z ->
  exists rh rw, rounded_dimensions S h w = Ok (rh, rw)
                /\ ((S <= 0)%Z -> (rh <= 0)%Z /\ (rw <= 0)%Z)
                /\ ((0 < S)%Z -> (0 <= rh <= 1333 * S / 800)%Z
                                  /\ (0 <= rw <= 1333 * S / 800)%Z).
Proof.
  intros HS Hh Hw. destruct (Z_lt_le_dec 0 S) as [P | N].
  - destruct (rounded_dimensions_positive S h w ltac:(lia) Hh Hw)
      as [rh [rw [E [Bh Bw]]]].
    exists rh, rw. split; [exact E |]. split; [lia |]. intros _. split; assumption.
  - destruct (rounded_dimensions_nonpositive S h w ltac:(lia) Hh Hw)
      as [rh [rw [E [Bh Bw]]]].
    exists rh, rw. split; [exact E |]. split; [| lia]. intros _. split; assumption.
Qed.

Lemma floor_nonpositive (D x : Z) : D <> 0%Z -> (x <= 0)%Z -> (x / D * D <= 0)%Z.
Proof.
  intros HD Hx. destruct (Z_lt_le_dec 0 D) as [P | N].
  - assert (Q : (x / D <= 0)%Z) by (apply Z.div_le_upper_bound; lia). nia.
  - assert (Q : (0 <= x / D)%Z).
    { rewrite <- Z.div_opp_opp by exact HD. apply Z.div_pos; lia. }
    nia.
Qed.

(** C10, as the code has it: a shortest edge that is zero or negative, or
    a divisor that floors a dimension to zero, is not rejected.  For a
    shortest edge of magnitude below [2^40] and image sides below [2^53],
    with or without a divisor, the resizer computes the target all the
    same (zero or negative dimensions for a shortest edge that is not
    positive, zero when the divisor exceeds the longer-edge bound) and
    its result is that of the resize primitive called with this target;
    a divisor of zero raises [ZeroDivisionError] at line 140. *)
Theorem invalid_configuration_reaches_resize (S : Z) (size_divisor : option Z)
  (interpolation : option interpolation_mode) (stacked_images : stacked pixel) :
  (- 2 ^ 40 < S < 2 ^ 40)%Z ->
  (0 < Z.of_nat (s_height stacked_images) < 2 ^ 53)%Z ->
  (0 < Z.of_nat (s_width stacked_images) < 2 ^ 53)%Z ->
  let h := Z.of_nat (s_height stacked_images) in
  let w := Z.of_nat (s_width stacked_images) in
  let size := {| shortest_edge := Some S |} in
  (size_divisor = Some 0%Z ->
   resize_group F_resize true size interpolation size_divisor stacked_images
   = Raise ZeroDivisionError)
  /\
  (size_divisor <> Some 0%Z ->
   exists nh nw,
     resize_target S size_divisor h w = Ok (nh, nw)
     /\ resize_group F_resize true size interpolation size_divisor stacked_images
        = F_resize stacked_images [nh; nw] interpolation
     /\ ((S <= 0)%Z -> (nh <= 0)%Z /\ (nw <= 0)%Z)
     /\ ((0 < S)%Z ->
         forall D, size_divisor = Some D -> (1333 * S / 800 < D)%Z ->
                   nh = 0%Z /\ nw = 0%Z)).
Proof.
  intros HS Hh Hw h w size.
  destruct (rounded_dimensions_total S h w HS Hh Hw) as [rh [rw [E [Neg Pos]]]].
  unfold resize_group, size. cbn [shortest_edge bind]. fold h w.
  rewrite (resize_target_unfold S size_divisor h w rh rw E). split.
  - intros ->. reflexivity.
  - intros HD. destruct size_divisor as [D |].
    + assert (HD' : D <> 0%Z) by congruence.
      rewrite !floor_to_divisor_spec by exact HD'. cbn [bind].
      exists (rh / D * D)%Z, (rw / D * D)%Z.
      split; [reflexivity |]. split; [reflexivity |]. split.
      * intros N. destruct (Neg N) as [A B].
        split; apply floor_nonpositive; assumption.
      * intros P D' ED Big. injection ED as <-. destruct (Pos P) as [A B].
        rewrite (Z.div_small rh D), (Z.div_small rw D) by lia. split; reflexivity.
    + cbn [floor_to_divisor bind]. exists rh, rw.
      split; [reflexivity |]. split; [reflexivity |]. split.
      * exact Neg.
      * intros _ D' ED. discriminate ED.
Qed.

(** C3: after a resize with shortest edge [S] and divisor [D], both
    dimensions requested from the resize primitive are non-negative
    multiples of [D], and the larger one is at most [round(1333/800*S)] up
    to one pixel. *)
Theorem resize_output_multiple_and_bounded (S D : Z)
  (interpolation : option interpolation_mode) (stacked_images : stacked pixel) :
  (0 < S < 2 ^ 40)%Z -> (0 < D)%Z ->
  (0 < Z.of_nat (s_height stacked_images) < 2 ^ 53)%Z ->
  (0 < Z.of_nat (s_width stacked_images) < 2 ^ 53)%Z ->
  exists nh nw,
    resize_group F_resize true {| shortest_edge := Some S |} interpolation (Some D)
      stacked_images
    = F_resize stacked_images [nh; nw] interpolation
    /\ (0 <= nh)%Z /\ (0 <= nw)%Z
    /\ (D | nh)%Z /\ (D | nw)%Z
    /\ (Z.max nh nw <= spec_longer_edge S + 1)%Z.
Proof.
  intros HS HD Hh Hw.
  destruct (resize_target_multiple_and_bounded S D _ _ HS HD Hh Hw)
    as (nh & nw & E & R).
  exists nh, nw. split; [| exact R].
  unfold resize_group. cbn [shortest_edge bind]. rewrite E. reflexivity.
Qed.

(** C6: in a call with padding on, a [return_tensors] other than ["pt"] and
    a processed image smaller than the batch maximum, the padding phase
    raises an unbound-name error, and so does the call: the zero template
    the loop clones was never created. *)
Theorem padding_without_template_raises (self : processor)
  (images : list (image pixel)) (do_resize : bool) (size : SizeDict)
  (interpolation : option interpolation_mode) (crop_size : SizeDict)
  (do_rescale : bool) (rescale_factor : Q) (do_normalize : bool)
  (image_mean image_std : option (list Q)) (return_tensors : option string)
  (kw : kwargs) (processed_images : list (image pixel)) :
  process_images F_resize rescale_and_normalize images do_resize size
    interpolation do_rescale rescale_factor do_normalize image_mean image_std
    (kwargs_get (kw_size_divisor kw) (self_size_divisor self))
  = Ok processed_images ->
  kwargs_get (kw_do_pad kw) (self_do_pad self) = Some true ->
  return_tensors <> Some "pt"%string ->
  (exists img, In img processed_images
               /\ spatial_size img <> get_max_height_width processed_images) ->
  pad_images zero return_tensors processed_images = Raise UnboundLocalError
  /\ _preprocess zero F_resize rescale_and_normalize self images do_resize size
       interpolation crop_size do_rescale rescale_factor do_normalize image_mean
       image_std return_tensors kw
     = Raise UnboundLocalError.
Proof.
  intros Hp Hpad Hrt Hex.
  destruct (pad_images_unbound_template pixel zero return_tensors processed_images
              Hrt Hex) as [P A].
  split; [exact P |]. unfold _preprocess. rewrite Hp, Hpad. exact A.
Qed.

Lemma new_BatchFeature_Ok (d : list (string * value pixel))
  (tensor_type : option string) (bf : BatchFeature pixel) :
  new_BatchFeature d tensor_type = Ok bf ->
  bf = {| data := d; tensor_type := tensor_type |}.
Proof.
  unfold new_BatchFeature. destruct (supported_tensor_type tensor_type); congruence.
Qed.

Lemma new_BatchFeature_pt (d : list (string * value pixel))
  (tensor_type : option string) :
  is_pt tensor_type = true ->
  new_BatchFeature d tensor_type = Ok {| data := d; tensor_type := tensor_type |}.
Proof.
  destruct tensor_type as [t |]; [| discriminate]. cbn [is_pt]. intros E.
  apply String.eqb_eq in E. subst t. reflexivity.
Qed.

Lemma assemble_keys (do_pad : bool) (return_tensors : option string)
  (processed_images : list (image pixel)) (bf : BatchFeature pixel) :
  assemble zero do_pad return_tensors processed_images = Ok bf ->
  map fst (data bf)
  = (if do_pad then ["pixel_values"; "pixel_mask"] else ["pixel_values"])%string
  /\ (do_pad = false ->
      if is_pt return_tensors
      then exists t, torch_stack processed_images = Ok t
                     /\ getitem "pixel_values" (data bf) = Some (ImageTensor t)
      else getitem "pixel_values" (data bf) = Some (ImageList processed_images)).
Proof.
  unfold assemble. intros H. apply bind_Ok in H. destruct H as [d [Hd H]].
  apply new_BatchFeature_Ok in H. subst bf. cbn [data]. destruct do_pad.
  - apply bind_Ok in Hd. destruct Hd as [[padded masks] [_ Hd]].
    apply bind_Ok in Hd. destruct Hd as [[pv pm] [_ Hd]].
    injection Hd as <-. split; [reflexivity | discriminate].
  - apply bind_Ok in Hd. destruct Hd as [pv [Hv Hd]]. injection Hd as <-.
    split; [reflexivity |]. intros _.
    destruct (is_pt return_tensors).
    + apply bind_Ok in Hv. destruct Hv as [t [Ht Hv]]. injection Hv as <-.
      exists t. split; [exact Ht | reflexivity].
    + injection Hv as <-. reflexivity.
Qed.

Lemma getitem_keys (key : string) (d : list (string * value pixel)) :
  getitem key d <> None <-> In key (map fst d).
Proof.
  induction d as [| [k v] d IH]; cbn.
  - split; [congruence | intros []].
  - destruct (String.eqb k key) eqn:E.
    + apply String.eqb_eq in E. split; [intros _; left; exact E | discriminate].
    + apply String.eqb_neq in E. rewrite IH. split; [intros H; right; exact H |].
      intros [H | H]; [contradiction | exact H].
Qed.

(** C7: the container [_preprocess] returns always holds [pixel_values];
    it holds [pixel_mask] exactly when [do_pad] is true; without padding
    no mask is produced and the images are stacked only when tensor
    output is requested. *)
Theorem returned_container_keys (self : processor) (images : list (image pixel))
  (do_resize : bool) (size : SizeDict) (interpolation : option interpolation_mode)
  (crop_size : SizeDict) (do_rescale : bool) (rescale_factor : Q)
  (do_normalize : bool) (image_mean image_std : option (list Q))
  (return_tensors : option string) (kw : kwargs) (bf : BatchFeature pixel) :
  _preprocess zero F_resize rescale_and_normalize self images do_resize size
    interpolation crop_size do_rescale rescale_factor do_normalize image_mean
    image_std return_tensors kw = Ok bf ->
  let do_pad := kwargs_get (kw_do_pad kw) (self_do_pad self) in
  getitem "pixel_values" (data bf) <> None
  /\ (getitem "pixel_mask" (data bf) <> None <-> do_pad = Some true)
  /\ map fst (data bf)
     = (if truthy do_pad then ["pixel_values"; "pixel_mask"] else ["pixel_values"])%string
  /\ (truthy do_pad = false ->
      exists processed_images,
        process_images F_resize rescale_and_normalize images do_resize size
          interpolation do_rescale rescale_factor do_normalize image_mean image_std
          (kwargs_get (kw_size_divisor kw) (self_size_divisor self))
        = Ok processed_images
        /\ if is_pt return_tensors
           then exists t, torch_stack processed_images = Ok t
                          /\ getitem "pixel_values" (data bf) = Some (ImageTensor t)
           else getitem "pixel_values" (data bf) = Some (ImageList processed_images)).
Proof.
  intros H do_pad. unfold _preprocess in H. cbv zeta in H.
  apply bind_Ok in H. destruct H as [processed [Hp H]]. fold do_pad in H.
  destruct (assemble_keys (truthy do_pad) return_tensors processed bf H) as [K V].
  rewrite !getitem_keys, K.
  split; [destruct (truthy do_pad); left; reflexivity |].
  split; [| split; [reflexivity |]].
  - destruct do_pad as [[|] |]; cbn [truthy]; split; intros X;
      try reflexivity; try discriminate.
    + right. left. reflexivity.
    + destruct X as [X | []]. discriminate.
    + destruct X as [X | []]. discriminate.
  - intros F. exists processed. split; [exact Hp | exact (V F)].
Qed.

End PreprocessFacts.

(** ** The statements at concrete inputs *)

Section Instances.

Local Open Scope nat_scope.

Lemma padding_without_template_raises_witness :
  small_run None [gray_image 2 3; gray_image 4 3] = Raise UnboundLocalError.
Proof.
  assert (E : process_images blank_resize keep_values
                [gray_image 2 3; gray_image 4 3] true
                {| shortest_edge := Some 4%Z |} None true (1 # 255) true None None
                (Some 2%Z)
              = Ok [Image 1 4 6 (repeat 0%Z 24); Image 1 4 4 (repeat 0%Z 16)])
    by (vm_compute; reflexivity).
  apply (padding_without_template_raises Z 0%Z unit blank_resize keep_values
           ViltImageProcessorFast _ _ _ _ {| shortest_edge := None |} _ _ _ _ _
           None {| kw_size_divisor := Some (Some 2%Z); kw_do_pad := None |} _ E).
  - reflexivity.
  - discriminate.
  - exists (Image 1 4 4 (repeat 0%Z 16)). split; [right; left; reflexivity |].
    vm_compute. discriminate.
Defined.

Lemma resize_output_multiple_and_bounded_witness :
  exists nh nw,
    resize_group blank_resize true {| shortest_edge := Some 384%Z |} None (Some 32%Z)
      (Stacked 3 200 300 [])
    = blank_resize (Stacked 3 200 300 []) [nh; nw] None
    /\ (0 <= nh)%Z /\ (0 <= nw)%Z
    /\ (32 | nh)%Z /\ (32 | nw)%Z
    /\ (Z.max nh nw <= spec_longer_edge 384 + 1)%Z.
Proof.
  apply (resize_output_multiple_and_bounded Z unit blank_resize 384 32 None
           (Stacked 3 200 300 [])); cbn; lia.
Defined.

Lemma padding_full_size_batch_is_identity_witness :
  pad_images 0%Z (Some "pt"%string) [gray_image 2 3; gray_image 2 3]
  = Ok ([gray_image 2 3; gray_image 2 3],
        [Mask 2 3 [1; 1; 1; 1; 1; 1]%Z; Mask 2 3 [1; 1; 1; 1; 1; 1]%Z]).
Proof.
  apply (padding_full_size_batch_is_identity Z 0%Z (Some "pt"%string)
           [gray_image 2 3; gray_image 2 3]).
  intros img [<- | [<- | []]]; reflexivity.
Defined.

Lemma pixel_mask_marks_original_region_witness :
  exists padded masks p m,
    pad_images 0%Z (Some "pt"%string) [gray_image 2 3; gray_image 4 3]
    = Ok (padded, masks)
    /\ nth_error padded 0 = Some p /\ nth_error masks 0 = Some m
    /\ spatial_size p = (4, 3)
    /\ (mask_height m, mask_width m) = (4, 3)
    /\ mask_at m 1 2 = Some 1%Z /\ mask_at m 2 2 = Some 0%Z.
Proof.
  destruct (pixel_mask_marks_original_region Z 0%Z (Some "pt"%string)
              [gray_image 2 3; gray_image 4 3]) as [Total Masks].
  destruct (Total eq_refl) as [padded [masks E]].
  destruct (Masks padded masks E 0 (gray_image 2 3) eq_refl)
    as (_ & _ & p & m & Hp & Hm & Sp & Sm & At).
  exists padded, masks, p, m.
  split; [exact E |]. split; [exact Hp |]. split; [exact Hm |].
  split; [exact Sp |]. split; [exact Sm |]. split.
  - apply (At 1 2); cbn; lia.
  - apply (At 2 2); cbn; lia.
Defined.

Lemma returned_container_keys_witness :
  exists bf,
    small_run (Some "pt"%string) [gray_image 2 3; gray_image 4 3] = Ok bf
    /\ map fst (data bf) = ["pixel_values"; "pixel_mask"]%string.
Proof.
  destruct (small_run (Some "pt"%string) [gray_image 2 3; gray_image 4 3])
    as [bf | e] eqn:E; [| vm_compute in E; discriminate].
  exists bf. split; [reflexivity |]. unfold small_run in E.
  destruct (returned_container_keys Z 0%Z unit blank_resize keep_values
              _ _ _ _ _ _ _ _ _ _ _ _ _ bf E) as (_ & _ & K & _).
  exact K.
Defined.

Lemma invalid_configuration_reaches_resize_witness :
  resize_group blank_resize true {| shortest_edge := Some 0%Z |} None (Some 32%Z)
    (Stacked 3 200 300 [])
  = blank_resize (Stacked 3 200 300 []) [0; 0]%Z None.
Proof.
  destruct (invalid_configuration_reaches_resize Z unit blank_resize 0 (Some 32%Z)
              None (Stacked 3 200 300 [])) as [_ H]; [cbn; lia .. |].
  destruct (H ltac:(discriminate)) as (nh & nw & T & R & N & _).
  destruct (N ltac:(lia)) as [Nh Nw].
  rewrite R. vm_compute in T. injection T as <- <-. reflexivity.
Defined.

(** C10, as stated, fails: with a shortest edge of 0, of -5, or with a
    divisor of 1000, the target computation raises nothing and the resize
    primitive is called with the dimensions it produced. *)
Lemma invalid_configuration_is_not_rejected :
  resize_target 0 (Some 32%Z) 200 300 = Ok (0, 0)%Z
  /\ resize_target (-5) (Some 32%Z) 200 300 = Ok (-32, -32)%Z
  /\ resize_target 384 (Some 1000%Z) 200 300 = Ok (0, 0)%Z
  /\ resize_group blank_resize true {| shortest_edge := Some 0%Z |} None (Some 32%Z)
       (Stacked 3 200 300 [])
     = blank_resize (Stacked 3 200 300 []) [0; 0]%Z None
  /\ forall e, resize_target 0 (Some 32%Z) 200 300 <> Raise e.
Proof.
  assert (T : resize_target 0 (Some 32%Z) 200 300 = Ok (0, 0)%Z)
    by (vm_compute; reflexivity).
  split; [exact T |].
  split; [vm_compute; reflexivity |].
  split; [vm_compute; reflexivity |].
  split; [unfold resize_group; cbn [shortest_edge bind]; cbn [s_height s_width];
          change (Z.of_nat 200) with 200%Z; change (Z.of_nat 300) with 300%Z;
          rewrite T; reflexivity |].
  intros e. rewrite T. discriminate.
Qed.

End Instances.

(** * Further properties of the code *)

(** ** Relative errors of float operations *)

Section RelativeError.

Import Binary64 Binary64Facts.
Local Open Scope Q_scope.

Lemma mul_le_l (a b c : Q) : 0 <= a -> b <= c -> a * b <= a * c.
Proof.
  intros Ha H. rewrite (Qmult_comm a b), (Qmult_comm a c).
  apply Qmult_le_compat_r; assumption.
Qed.

Lemma within_comp (e v v' x x' : Q) : v == v' -> x == x' -> within e v x -> within e v' x'.
Proof. intros Ev Ex [H1 H2]. unfold within. rewrite <- Ev, <- Ex. split; assumption. Qed.

Lemma within_pos (e v x : Q) : 0 < v -> e < 1 -> within e v x -> 0 < x.
Proof.
  intros Hv He [H1 _]. eapply Qlt_le_trans; [| exact H1].
  apply Qmult_lt_0_compat; lra.
Qed.

(** One rounding adds a relative error of at most [2^(-53)]. *)
Lemma within_round (e v x : Q) :
  0 < v -> 0 <= e -> e <= 1 # 2 -> 2 ^ (emin + (prec - 1)) <= x ->
  within e v x -> within (e + (1 # 4503599627370496)) v (round x).
Proof.
  intros Hv He0 He Hn [H1 H2].
  assert (P := pow2_pos (emin + (prec - 1))).
  assert (Hx : 0 < x) by lra.
  assert (E := round_error x). rewrite (Qabs_pos x) in E by lra.
  specialize (E Hn). apply Qabs_Qle_condition in E.
  change (2 ^ (- prec)) with (1 # 9007199254740992) in E.
  destruct E as [E1 E2].
  assert (A : x * (1 # 9007199254740992) <= v * (1 + e) * (1 # 9007199254740992)).
  { apply Qmult_le_compat_r; [exact H2 | discriminate]. }
  assert (B : v * e <= v * (1 # 2)) by (apply mul_le_l; lra).
  assert (C : 0 <= v * e) by (apply Qmult_le_0_compat; lra).
  assert (T1 : v * (1 - e) == v - v * e) by ring.
  assert (T2 : v * (1 + e) == v + v * e) by ring.
  assert (T3 : v * (1 + e) * (1 # 9007199254740992)
               == (v + v * e) * (1 # 9007199254740992)) by ring.
  assert (T4 : v * (1 - (e + (1 # 4503599627370496)))
               == v - v * e - v * (1 # 4503599627370496)) by ring.
  assert (T5 : v * (1 + (e + (1 # 4503599627370496)))
               == v + v * e + v * (1 # 4503599627370496)) by ring.
  unfold within. rewrite T4, T5. rewrite T1 in H1. rewrite T2 in H2. rewrite T3 in A.
  generalize dependent (round x). generalize dependent (v * e). intros. split; lra.
Qed.

(** Multiplication by an exact factor. *)
Lemma within_scale (e v x c : Q) : 0 <= c -> within e v x -> within e (c * v) (c * x).
Proof.
  intros Hc [H1 H2]. unfold within. split.
  - rewrite <- Qmult_assoc. apply mul_le_l; assumption.
  - rewrite <- Qmult_assoc. apply mul_le_l; assumption.
Qed.

(** Quotients: the relative error of the divisor at most doubles. *)
Lemma within_div (e v x c : Q) :
  0 <= c -> 0 < v -> 0 <= e -> e <= 1 # 2 ->
  within e v x -> within (2 * e) (c / v) (c / x).
Proof.
  intros Hc Hv He0 He W. assert (Hx := within_pos e v x Hv ltac:(lra) W).
  destruct W as [H1 H2]. unfold within.
  assert (Q : 0 <= c / v) by (apply Qle_shift_div_l; lra).
  assert (Q' : 0 <= c / x) by (apply Qle_shift_div_l; lra).
  assert (Ev : c / v * v == c) by (field; lra).
  assert (Ex : c / x * x == c) by (field; lra).
  split.
  - apply Qle_shift_div_l; [exact Hx |].
    apply Qle_trans with (c / v * (1 - 2 * e) * (v * (1 + e))).
    + apply mul_le_l; [apply Qmult_le_0_compat; lra | exact H2].
    + assert (T : c / v * (1 - 2 * e) * (v * (1 + e))
                  == c * ((1 - 2 * e) * (1 + e))).
      { transitivity (c / v * v * ((1 - 2 * e) * (1 + e))); [ring | rewrite Ev; reflexivity]. }
      rewrite T.
      assert (M : (1 - 2 * e) * (1 + e) == 1 - e - 2 * (e * e)) by ring.
      rewrite M. assert (EE : 0 <= e * e) by (apply Qmult_le_0_compat; lra).
      rewrite <- (Qmult_1_r c) at 2. apply mul_le_l; [exact Hc |].
      generalize dependent (e * e). intros. lra.
  - apply Qle_shift_div_r; [exact Hx |].
    apply Qle_trans with (c / v * (1 + 2 * e) * (v * (1 - e))).
    + assert (T : c / v * (1 + 2 * e) * (v * (1 - e))
                  == c * ((1 + 2 * e) * (1 - e))).
      { transitivity (c / v * v * ((1 + 2 * e) * (1 - e))); [ring | rewrite Ev; reflexivity]. }
      rewrite T.
      assert (M : (1 + 2 * e) * (1 - e) == 1 + e - 2 * (e * e)) by ring.
      rewrite M.
      assert (EE : e * e <= e * (1 # 2)) by (apply mul_le_l; lra).
      rewrite <- (Qmult_1_r c) at 1. apply mul_le_l; [exact Hc |].
      generalize dependent (e * e). intros. lra.
    + apply mul_le_l; [apply Qmult_le_0_compat; lra | exact H1].
Qed.

End RelativeError.

(** ** Rounding to an integer *)

Section IntegerRounding.

Import Binary64 Binary64Facts.
Local Open Scope Q_scope.

Lemma quarter_exact (k j : Z) :
  (0 <= k < 2 ^ 41)%Z -> (0 <= j < 4)%Z ->
  round (inject_Z k + inject_Z j * (1 # 4)) == inject_Z k + inject_Z j * (1 # 4).
Proof.
  intros Hk Hj.
  apply (round_exact (k * 4 + j) (-2)).
  - rewrite inject_Z_plus, inject_Z_mult. change (2 ^ (-2)) with (1 # 4).
    change (inject_Z 4) with 4. ring.
  - change (2 ^ prec)%Z with (2 ^ 53)%Z. lia.
  - discriminate.
Qed.

(** [int(x + 0.5)] of a number within a quarter of an integer is that
    integer. *)
Lemma int_round_near (x : number) (k : Z) :
  convertible x -> (0 <= k < 2 ^ 41)%Z ->
  inject_Z k - (1 # 4) <= value_of x -> value_of x <= inject_Z k + (1 # 4) ->
  int_round x = Ok k.
Proof.
  intros Cx Hk H1 H2. unfold int_round.
  assert (K0 : 0 <= inject_Z k) by (change 0 with (inject_Z 0); rewrite <- Zle_Qle; lia).
  assert (K1 := inject_Z_le_pow2 k 41 ltac:(discriminate) ltac:(lia)).
  assert (K3 : inject_Z k <= 2199023255552).
  { eapply Qle_trans; [exact K1 |]. vm_compute. discriminate. }
  destruct (py_add_spec x (Float (1 # 2))) as [r [E V]].
  - exact Cx.
  - exact I.
  - right. exact I.
  - cbn [value_of]. apply (small_le _ 42); [discriminate |].
    assert (T : 2 ^ 42 == 4398046511104) by reflexivity. rewrite T.
    apply Qabs_le_pos; [lra |].
    clear - K3 H2. generalize dependent (inject_Z k). intros. lra.
  - cbn [value_of] in V. rewrite E. cbn [bind py_int]. f_equal.
    assert (R1 := quarter_exact k 1 Hk ltac:(lia)).
    assert (R3 := quarter_exact k 3 Hk ltac:(lia)).
    change (inject_Z 1) with 1 in R1. change (inject_Z 3) with 3 in R3.
    apply trunc_between; [lia | |].
    + rewrite V. apply Qle_trans with (inject_Z k + 1 * (1 # 4)).
      * generalize (inject_Z k). intros. lra.
      * apply round_ge; [| exact R1].
        clear - H1. generalize dependent (inject_Z k). intros. lra.
    + rewrite V. apply Qle_lt_trans with (inject_Z k + 3 * (1 # 4)).
      * apply round_le; [| exact R3].
        clear - H2. generalize dependent (inject_Z k). intros. lra.
      * generalize (inject_Z k). intros. lra.
Qed.

(** [int(x + 0.5)] is within a little more than a half of [x]. *)
Lemma int_round_close (x : number) :
  convertible x -> 0 <= value_of x -> value_of x <= 2 ^ 41 ->
  exists n, int_round x = Ok n /\ (0 <= n)%Z
            /\ inject_Z n <= value_of x + (1 # 2) + (1 # 2048)
            /\ value_of x + (1 # 2) - (1 # 2048) < inject_Z n + 1.
Proof.
  intros Cx H0 H1. unfold int_round.
  assert (T41 : 2 ^ 41 == 2199023255552) by reflexivity. rewrite T41 in H1.
  destruct (py_add_spec x (Float (1 # 2))) as [r [E V]].
  - exact Cx.
  - exact I.
  - right. exact I.
  - cbn [value_of]. apply (small_le _ 42); [discriminate |].
    assert (T : 2 ^ 42 == 4398046511104) by reflexivity. rewrite T.
    apply Qabs_le_pos; lra.
  - cbn [value_of] in V. rewrite E. cbn [bind py_int].
    exists (trunc r). split; [reflexivity |].
    set (y := value_of x + (1 # 2)) in *.
    assert (Y0 : 1 # 2 <= y) by (unfold y; lra).
    assert (Er : Qabs (round y - y) <= Qabs y * 2 ^ (- prec)).
    { apply round_error. rewrite Qabs_pos by lra.
      eapply Qle_trans; [| exact Y0]. vm_compute. discriminate. }
    rewrite (Qabs_pos y) in Er by lra. apply Qabs_Qle_condition in Er.
    change (2 ^ (- prec)) with (1 # 9007199254740992) in Er. rewrite <- V in Er.
    assert (R0 : 0 <= r) by (rewrite V; apply round_nonneg; lra).
    rewrite trunc_nonneg by exact R0.
    assert (F1 := Qfloor_le r). assert (F2 := Qlt_floor r).
    rewrite inject_Z_plus in F2. change (inject_Z 1) with 1 in F2.
    assert (F0 : (Qfloor 0 <= Qfloor r)%Z) by (apply Qfloor_resp_le, R0).
    change (Qfloor 0) with 0%Z in F0.
    split; [exact F0 |].
    assert (Y1 : y <= 2199023255552 + (1 # 2)) by (unfold y; lra).
    unfold y in *. clear y.
    generalize dependent (inject_Z (Qfloor r)). generalize dependent (value_of x).
    intros. split; lra.
Qed.


(** From a distance below one to the cross-multiplied statement on
    integers. *)
Lemma cross_multiplied (r a c b : Z) :
  (0 < b)%Z ->
  inject_Z r < inject_Z a * inject_Z c / inject_Z b + 1 ->
  inject_Z a * inject_Z c / inject_Z b < inject_Z r + 1 ->
  (Z.abs (r * b - a * c) < b)%Z.
Proof.
  intros Hb H1 H2. assert (B0 := inject_Z_pos b Hb).
  set (g := inject_Z a * inject_Z c / inject_Z b) in *.
  assert (G : g * inject_Z b == inject_Z a * inject_Z c).
  { unfold g. field. lra. }
  assert (A1 : inject_Z r * inject_Z b < (g + 1) * inject_Z b).
  { apply Qmult_lt_compat_r; assumption. }
  assert (A2 : g * inject_Z b < (inject_Z r + 1) * inject_Z b).
  { apply Qmult_lt_compat_r; assumption. }
  assert (T1 : (g + 1) * inject_Z b == inject_Z (a * c + b)).
  { rewrite inject_Z_plus, inject_Z_mult, <- G. ring. }
  assert (T2 : (inject_Z r + 1) * inject_Z b == inject_Z (r * b + b)).
  { rewrite inject_Z_plus, inject_Z_mult. ring. }
  rewrite T1, <- inject_Z_mult, <- Zlt_Qlt in A1.
  rewrite T2, G, <- inject_Z_mult, <- Zlt_Qlt in A2.
  lia.
Qed.

End IntegerRounding.

(** ** Rounding, then flooring to the divisor *)

Section RoundingThenFlooring.

Import Binary64 Binary64Facts.
Local Open Scope Q_scope.

(** C4: with a nonzero divisor set, each dimension is first rounded by
    [int(x + 0.5)] and then taken to a multiple of the divisor by
    [// D * D], so the outputs are multiples of the divisor.  For a
    positive divisor the flooring never increases the rounded value and
    stays within one divisor of it.  For a positive shortest edge below
    [2^40] and sides below [2^53] the rounded value is within
    [1/2 + 2^(-11)] of the dimension it rounds: the nearest integer. *)
Theorem divisor_flooring_never_increases (S D h w nh nw : Z) :
  D <> 0%Z ->
  resize_target S (Some D) h w = Ok (nh, nw) ->
  exists L a b xh xw rh rw,
    longer_edge S = Ok L /\
    initial_dimensions S h w = Ok (a, b) /\
    clamp_dimensions L a b = Ok (xh, xw) /\
    int_round xh = Ok rh /\ int_round xw = Ok rw /\
    nh = (rh / D * D)%Z /\ nw = (rw / D * D)%Z /\
    (D | nh)%Z /\ (D | nw)%Z /\
    ((0 < D)%Z -> (nh <= rh < nh + D)%Z /\ (nw <= rw < nw + D)%Z) /\
    ((0 < S < 2 ^ 40)%Z -> (0 < h < 2 ^ 53)%Z -> (0 < w < 2 ^ 53)%Z ->
     Qabs (inject_Z rh - value_of xh) <= (1 # 2) + (1 # 2048)
     /\ Qabs (inject_Z rw - value_of xw) <= (1 # 2) + (1 # 2048)).
Proof.
  intros HD H. unfold resize_target in H.
  apply bind_Ok in H. destruct H as [[rh rw] [E H]].
  rewrite !floor_to_divisor_spec in H by exact HD. cbn [bind] in H.
  injection H as <- <-.
  destruct (rounded_dimensions_steps S h w rh rw E)
    as [L [a [b [xh [xw [E1 [E2 [E3 [E4 E5]]]]]]]]].
  exists L, a, b, xh, xw, rh, rw.
  repeat (split; [assumption || reflexivity |]).
  split; [exists (rh / D)%Z; reflexivity |].
  split; [exists (rw / D)%Z; reflexivity |].
  split.
  - intros P.
    destruct (floor_multiple D rh P) as [H1 [H2 _]].
    destruct (floor_multiple D rw P) as [W1 [W2 _]].
    split; split; assumption.
  - intros HS Hh Hw.
    assert (EL := longer_edge_floor S HS).
    assert (HL : (0 < L < 2 ^ 41)%Z).
    { assert (L = (1333 * S / 800)%Z) by congruence. subst L. split.
      - apply Z.div_str_pos. lia.
      - apply Z.div_lt_upper_bound; lia. }
    destruct (initial_dimensions_positive S h w HS Hh Hw) as [a' [b' [E2' [Pa Pb]]]].
    assert (Eab : (a', b') = (a, b)) by congruence. injection Eab as -> ->.
    destruct (clamp_positive L a b HL Pa Pb) as [xh' [xw' [E3' [Bh Bw]]]].
    assert (Ex : (xh', xw') = (xh, xw)) by congruence. injection Ex as -> ->.
    assert (L1 : inject_Z L + (1 # 4) <= 2 ^ 41).
    { assert (A : inject_Z L <= inject_Z (2 ^ 41 - 1)) by (rewrite <- Zle_Qle; lia).
      assert (T : 2 ^ 41 == inject_Z (2 ^ 41 - 1) + 1) by reflexivity.
      rewrite T. generalize dependent (inject_Z L).
      generalize (inject_Z (2 ^ 41 - 1)). intros. lra. }
    assert (Near : forall x r, bounded_dim L x -> int_round x = Ok r ->
              Qabs (inject_Z r - value_of x) <= (1 # 2) + (1 # 2048)).
    { intros x r [Cx [X0 X1]] Er.
      destruct (int_round_close x Cx X0) as [n [En [_ [N1 N2]]]].
      - eapply Qle_trans; [exact X1 | exact L1].
      - assert (n = r) by congruence. subst n. apply Qabs_Qle_condition.
        clear - N1 N2. generalize dependent (inject_Z r).
        generalize (value_of x). intros. split; lra. }
    split; [apply (Near xh rh Bh E4) | apply (Near xw rw Bw E5)].
Qed.

Lemma divisor_flooring_never_increases_witness :
  32%Z <> 0%Z /\ resize_target 384 (Some 32%Z) 100 1000 = Ok (64, 608)%Z
  /\ exists (xh xw : number) (rh rw : Z),
       (64 = rh / 32 * 32)%Z /\ (608 = rw / 32 * 32)%Z
       /\ (64 <= rh < 64 + 32)%Z /\ (608 <= rw < 608 + 32)%Z
       /\ Qabs (inject_Z rh - value_of xh) <= (1 # 2) + (1 # 2048)
       /\ Qabs (inject_Z rw - value_of xw) <= (1 # 2) + (1 # 2048).
Proof.
  assert (H0 : 32%Z <> 0%Z) by discriminate.
  assert (H1 : resize_target 384 (Some 32%Z) 100 1000 = Ok (64, 608)%Z)
    by (vm_compute; reflexivity).
  split; [exact H0 |]. split; [exact H1 |].
  destruct (divisor_flooring_never_increases 384 32 100 1000 64 608 H0 H1)
    as (L & a & b & xh & xw & rh & rw & _ & _ & _ & _ & _ & A & B & _ & _ & C & N).
  destruct (C eq_refl) as [Ch Cw].
  destruct N as [Nh Nw]; [lia | lia | lia |].
  exists xh, xw, rh, rw. repeat split; assumption || apply Ch || apply Cw.
Defined.

(** A negative divisor takes the rounded value up: 5 becomes 6 with a
    divisor of -2. *)
Lemma negative_divisor_increases :
  rounded_dimensions 5 7 7 = Ok (5, 5)%Z
  /\ resize_target 5 (Some (-2)%Z) 7 7 = Ok (6, 6)%Z
  /\ (5 < 6)%Z.
Proof. repeat split; vm_compute; reflexivity. Qed.

End RoundingThenFlooring.

(** ** The longer-edge check on the held and the scaled side *)

Section LongerEdgeCheck.

Import Binary64 Binary64Facts.
Local Open Scope Q_scope.

Lemma py_max_float_l (S : Z) (x : Q) :
  inject_Z S < x -> py_max (Int S) (Float x) = Float x /\ py_max (Float x) (Int S) = Float x.
Proof.
  intros H. unfold py_max. rewrite !py_gt_finite by exact I. cbn [value_of].
  assert (A : Qle_bool x (inject_Z S) = false).
  { destruct (Qle_bool x (inject_Z S)) eqn:E; [| reflexivity].
    apply Qle_bool_iff in E. lra. }
  assert (B : Qle_bool (inject_Z S) x = true) by (apply Qle_bool_iff; lra).
  rewrite A, B. split; reflexivity.
Qed.

Lemma py_gt_Int_true (m : number) (L : Z) :
  finite m -> inject_Z L < value_of m -> py_gt m (Int L) = true.
Proof.
  intros Fm H. rewrite py_gt_finite by (exact Fm || exact I). cbn [value_of].
  destruct (Qle_bool (value_of m) (inject_Z L)) eqn:E; [| reflexivity].
  apply Qle_bool_iff in E. lra.
Qed.

Lemma py_gt_Int_false (m : number) (L : Z) :
  finite m -> value_of m <= inject_Z L -> py_gt m (Int L) = false.
Proof.
  intros Fm H. rewrite py_gt_finite by (exact Fm || exact I). cbn [value_of].
  apply Qle_bool_iff in H. rewrite H. reflexivity.
Qed.

Lemma clamp_not_needed (L : Z) (a b : number) :
  finite a -> finite b ->
  value_of a <= inject_Z L -> value_of b <= inject_Z L ->
  clamp_dimensions L a b = Ok (a, b).
Proof.
  intros Fa Fb Ha Hb. unfold clamp_dimensions.
  destruct (py_max_cases a b Fa Fb) as [[E | E] _]; rewrite E;
    rewrite py_gt_Int_false by assumption; reflexivity.
Qed.

Lemma within_of_close (x t : Q) :
  close_to x t -> within (1 # 2251799813685248) t x.
Proof.
  unfold close_to, within. intros H. apply Qabs_Qle_condition in H.
  generalize dependent t. generalize dependent x. intros. split; lra.
Qed.

Lemma within_refl (v : Q) : within 0 v v.
Proof. unfold within. generalize v. intros. split; lra. Qed.

(** The comparison of an approximated quotient with an integer, on
    integers. *)
Lemma quotient_below (a c b L : Z) :
  (0 < b)%Z ->
  inject_Z a * inject_Z c / inject_Z b * (1 - (1 # 2251799813685248)) <= inject_Z L ->
  (a * c * (2 ^ 51 - 1) <= L * b * 2 ^ 51)%Z.
Proof.
  intros Hb H. assert (B0 := inject_Z_pos b Hb).
  set (g := inject_Z a * inject_Z c / inject_Z b) in *.
  assert (G : g * inject_Z b == inject_Z a * inject_Z c).
  { unfold g. field. lra. }
  assert (A : g * (1 - (1 # 2251799813685248)) * (inject_Z b * 2251799813685248)
              <= inject_Z L * (inject_Z b * 2251799813685248)).
  { apply Qmult_le_compat_r; [exact H |]. apply Qmult_le_0_compat; lra. }
  assert (T1 : g * (1 - (1 # 2251799813685248)) * (inject_Z b * 2251799813685248)
               == inject_Z (a * c * (2 ^ 51 - 1))).
  { rewrite !inject_Z_mult, <- G.
    change (inject_Z (2 ^ 51 - 1)) with 2251799813685247. ring. }
  assert (T2 : inject_Z L * (inject_Z b * 2251799813685248)
               == inject_Z (L * b * 2 ^ 51)).
  { rewrite !inject_Z_mult. change (inject_Z (2 ^ 51)) with 2251799813685248. ring. }
  rewrite T1, T2, <- Zle_Qle in A. exact A.
Qed.

Lemma quotient_above (a c b L : Z) :
  (0 < b)%Z ->
  inject_Z L < inject_Z a * inject_Z c / inject_Z b * (1 + (1 # 2251799813685248)) ->
  (L * b * 2 ^ 51 < a * c * (2 ^ 51 + 1))%Z.
Proof.
  intros Hb H. assert (B0 := inject_Z_pos b Hb).
  set (g := inject_Z a * inject_Z c / inject_Z b) in *.
  assert (G : g * inject_Z b == inject_Z a * inject_Z c).
  { unfold g. field. lra. }
  assert (A : inject_Z L * (inject_Z b * 2251799813685248)
              < g * (1 + (1 # 2251799813685248)) * (inject_Z b * 2251799813685248)).
  { apply Qmult_lt_compat_r; [| exact H].
    apply Qmult_lt_0_compat; [exact B0 | reflexivity]. }
  assert (T1 : g * (1 + (1 # 2251799813685248)) * (inject_Z b * 2251799813685248)
               == inject_Z (a * c * (2 ^ 51 + 1))).
  { rewrite !inject_Z_mult, <- G.
    change (inject_Z (2 ^ 51 + 1)) with 2251799813685249. ring. }
  assert (T2 : inject_Z L * (inject_Z b * 2251799813685248)
               == inject_Z (L * b * 2 ^ 51)).
  { rewrite !inject_Z_mult. change (inject_Z (2 ^ 51)) with 2251799813685248. ring. }
  rewrite T1, T2, <- Zlt_Qlt in A. exact A.
Qed.

(** The held side [S] and the scaled side [x], an approximation of
    [n * S / d] with [d <= n], through the longer-edge check and the
    rounding, in either order. *)
Lemma clamp_round_pair (S L n d : Z) (x : Q) :
  (0 < S < 2 ^ 40)%Z -> (S <= L < 2 ^ 41)%Z -> (0 < d <= n)%Z -> (n < 2 ^ 53)%Z ->
  2 ^ (-53) <= x -> x <= 2 ^ 93 ->
  close_to x (inject_Z n * inject_Z S / inject_Z d) ->
  exists rs rl : Z,
    (exists a b, clamp_dimensions L (Int S) (Float x) = Ok (a, b)
                 /\ int_round a = Ok rs /\ int_round b = Ok rl)
    /\ (exists a b, clamp_dimensions L (Float x) (Int S) = Ok (a, b)
                    /\ int_round a = Ok rl /\ int_round b = Ok rs)
    /\ ((rs = S /\ (0 <= rl <= L)%Z /\ (Z.abs (rl * d - n * S) < d)%Z
         /\ (n * S * (2 ^ 51 - 1) <= L * d * 2 ^ 51)%Z)
        \/ (rl = L /\ (0 <= rs <= S)%Z /\ (Z.abs (rs * n - L * d) < n)%Z
            /\ (L * d * 2 ^ 51 < n * S * (2 ^ 51 + 1))%Z)).
Proof.
  intros HS HL Hd Hn X1 X2 Cl.
  assert (S0 := inject_Z_pos S ltac:(lia)).
  assert (S1 := inject_Z_le_pow2 S 40 ltac:(discriminate) ltac:(lia)).
  assert (S2 := inject_Z_ge_1 S ltac:(lia)).
  assert (L0 := inject_Z_pos L ltac:(lia)).
  assert (L1 := inject_Z_le_pow2 L 41 ltac:(discriminate) ltac:(lia)).
  assert (L2 := inject_Z_ge_1 L ltac:(lia)).
  assert (D0 := inject_Z_pos d ltac:(lia)).
  assert (N0 := inject_Z_pos n ltac:(lia)).
  assert (SL : inject_Z S <= inject_Z L) by (rewrite <- Zle_Qle; lia).
  assert (DN : inject_Z d <= inject_Z n) by (rewrite <- Zle_Qle; lia).
  assert (T40 : 2 ^ 40 == 1099511627776) by reflexivity.
  assert (T41 : 2 ^ 41 == 2199023255552) by reflexivity.
  assert (P53 := pow2_pos (-53)).
  assert (X0 : 0 < x) by lra.
  set (t := inject_Z n * inject_Z S / inject_Z d) in *.
  assert (Ht : 0 < t).
  { unfold t. apply Qlt_shift_div_l; [exact D0 |].
    rewrite Qmult_0_l. apply Qmult_lt_0_compat; assumption. }
  assert (W := within_of_close x t Cl).
  assert (CS : int_round (Int S) = Ok S).
  { apply int_round_near; [cbn; lia | lia | |]; cbn [value_of];
      generalize (inject_Z S); intros; lra. }
  destruct (Qlt_le_dec (inject_Z L) x) as [Hc | Hc].
  - (* the longer side exceeds the bound: both sides are scaled *)
    destruct (py_max_float_l S x ltac:(lra)) as [M1 M2].
    assert (G : py_gt (Float x) (Int L) = true) by (apply py_gt_Int_true; [exact I | exact Hc]).
    set (v := inject_Z L / x) in *.
    destruct (div_bounds (inject_Z L) x 41 53 L0 L1 X1) as [V0 _].
    assert (V1 : v <= 1).
    { unfold v. apply Qle_shift_div_r; [exact X0 | lra]. }
    assert (V2 := div_lower (inject_Z L) x 0 93 L2 X0 X2).
    fold v in V0, V2. cbn [Z.add Z.opp] in V2.
    assert (Vn : 2 ^ (emin + (prec - 1)) <= v).
    { eapply Qle_trans; [| exact V2]. apply pow2_le. discriminate. }
    destruct (py_truediv_spec (Int L) (Float x)) as [s [Es Vs]].
    { cbn; lia. } { exact I. } { cbn [value_of]. lra. }
    { cbn [value_of]. fold v. apply (small_le _ 0); [discriminate |].
      apply Qabs_le_pos; [lra | exact V1]. }
    cbn [value_of] in Vs. fold v in Vs.
    assert (Ls : 2 ^ (-93) <= s).
    { rewrite Vs. apply round_ge; [exact V2 | apply round_pow2; discriminate]. }
    assert (Us : s <= 1).
    { rewrite Vs. apply (round_le _ 1 V1). apply (round_pow2 0). discriminate. }
    assert (P93 := pow2_pos (-93)).
    (* the exact scale, through the exact scaled side *)
    assert (Wv : within (2 * (1 # 2251799813685248)) (inject_Z L / t) v).
    { apply within_div; [lra | exact Ht | discriminate | discriminate | exact W]. }
    assert (LT0 : 0 < inject_Z L / t).
    { apply Qlt_shift_div_l; [exact Ht | lra]. }
    assert (Ws : within (2 * (1 # 2251799813685248) + (1 # 4503599627370496))
                   (inject_Z L / t) s).
    { eapply within_comp; [reflexivity | symmetry; exact Vs |].
      apply within_round; [exact LT0 | discriminate | discriminate | exact Vn | exact Wv]. }
    (* the held side *)
    assert (Ss0 : 0 < inject_Z S * s) by (apply Qmult_lt_0_compat; lra).
    assert (Ss1 : inject_Z S * s <= inject_Z S).
    { rewrite <- (Qmult_1_r (inject_Z S)) at 2. apply mul_le_l; lra. }
    destruct (py_mul_spec (Int S) (Float s)) as [ns [Ens Vns]].
    { cbn; lia. } { exact I. } { right. exact I. }
    { cbn [value_of]. apply (small_le _ 40); [discriminate |].
      apply Qabs_le_pos; lra. }
    cbn [value_of] in Vns.
    set (g := inject_Z L * inject_Z d / inject_Z n) in *.
    assert (Eg : inject_Z S * (inject_Z L / t) == g).
    { unfold g, t. field. repeat split; lra. }
    assert (G0 : 0 < g).
    { unfold g. apply Qlt_shift_div_l; [exact N0 |].
      rewrite Qmult_0_l. apply Qmult_lt_0_compat; assumption. }
    assert (G1 : g <= inject_Z L).
    { unfold g. apply Qle_shift_div_r; [exact N0 |]. apply mul_le_l; lra. }
    assert (Wns : within (2 * (1 # 2251799813685248) + (1 # 4503599627370496)
                          + (1 # 4503599627370496)) g ns).
    { eapply within_comp; [reflexivity | symmetry; exact Vns |].
      apply within_round; [exact G0 | discriminate | discriminate | |].
      - apply Qle_trans with (2 ^ (-93)).
        + apply pow2_le. discriminate.
        + apply Qle_trans with (1 * s); [lra |].
          apply Qmult_le_compat_r; lra.
      - eapply within_comp; [exact Eg | reflexivity |].
        apply within_scale; [lra | exact Ws]. }
    assert (Ns0 : 0 <= ns) by (rewrite Vns; apply round_nonneg; lra).
    assert (Ns1 : ns <= inject_Z S).
    { rewrite Vns. apply (round_le _ _ Ss1). apply round_Z.
      change (2 ^ prec)%Z with (2 ^ 53)%Z. lia. }
    destruct (int_round_close (Float ns)) as [rs [Ers [Rs0 [Rs1 Rs2]]]].
    { exact I. } { exact Ns0. } { cbn [value_of]. lra. }
    cbn [value_of] in Rs1, Rs2.
    destruct (int_round_bounded S (Float ns)) as [rs' [Ers' Rs3]].
    { lia. } { split; [exact I |]. cbn [value_of]. split; lra. }
    assert (rs' = rs) by congruence. subst rs'.
    (* the scaled side *)
    assert (Wxs : within (0 + (1 # 4503599627370496)) (inject_Z L) (x * s)).
    { assert (Exv : x * v == inject_Z L) by (unfold v; field; lra).
      eapply within_comp; [exact Exv | reflexivity |].
      apply within_scale; [lra |].
      eapply within_comp; [reflexivity | symmetry; exact Vs |].
      apply within_round; [exact V0 | discriminate | discriminate | exact Vn |].
      apply within_refl. }
    assert (Xs0 : 1 # 2 <= x * s).
    { destruct Wxs as [A _]. clear - A L2.
      generalize dependent (x * s). generalize dependent (inject_Z L). intros. lra. }
    assert (Xs1 : x * s <= 2 ^ 42).
    { destruct Wxs as [_ A]. assert (T : 2 ^ 42 == 4398046511104) by reflexivity.
      rewrite T. clear - A L1 T41.
      generalize dependent (x * s). generalize dependent (inject_Z L).
      generalize dependent (2 ^ 41). intros. lra. }
    destruct (py_mul_spec (Float x) (Float s)) as [nl [Enl Vnl]].
    { exact I. } { exact I. } { right. exact I. }
    { cbn [value_of]. apply (small_le _ 42); [discriminate |].
      apply Qabs_le_pos; lra. }
    cbn [value_of] in Vnl.
    assert (Wnl : within (0 + (1 # 4503599627370496) + (1 # 4503599627370496))
                    (inject_Z L) nl).
    { eapply within_comp; [reflexivity | symmetry; exact Vnl |].
      apply within_round; [exact L0 | discriminate | discriminate | | exact Wxs].
      eapply Qle_trans; [| exact Xs0]. vm_compute. discriminate. }
    assert (Cnl : int_round (Float nl) = Ok L).
    { destruct Wnl as [A B]. apply int_round_near; [exact I | lia | |]; cbn [value_of].
      - clear - A L1 T41. generalize dependent (inject_Z L). generalize dependent (2 ^ 41).
        intros. lra.
      - clear - B L1 T41. generalize dependent (inject_Z L). generalize dependent (2 ^ 41).
        intros. lra. }
    exists rs, L. split; [| split].
    + exists (Float ns), (Float nl). unfold clamp_dimensions.
      rewrite M1, G, Es. cbn [bind]. rewrite Ens. cbn [bind]. rewrite Enl. cbn [bind].
      repeat split; assumption.
    + exists (Float nl), (Float ns). unfold clamp_dimensions.
      rewrite M2, G, Es. cbn [bind]. rewrite Enl. cbn [bind]. rewrite Ens. cbn [bind].
      repeat split; assumption.
    + right. split; [reflexivity |]. split; [lia |]. split;
        [| apply quotient_above; [lia |]; fold t; destruct W as [_ B]; lra].
      apply cross_multiplied; [lia | |]; fold g; destruct Wns as [A B].
      * clear - B Rs1 G1 L1 T41 G0.
        generalize dependent (inject_Z rs). generalize dependent (inject_Z L).
        generalize dependent (2 ^ 41). intros. lra.
      * clear - A Rs2 G1 L1 T41 G0.
        generalize dependent (inject_Z rs). generalize dependent (inject_Z L).
        generalize dependent (2 ^ 41). intros. lra.
  - (* within the bound: nothing is scaled *)
    destruct (int_round_close (Float x)) as [rl [Erl [Rl0 [Rl1 Rl2]]]].
    { exact I. } { cbn [value_of]. lra. } { cbn [value_of]. lra. }
    cbn [value_of] in Rl1, Rl2.
    destruct (int_round_bounded L (Float x)) as [rl' [Erl' Rl3]].
    { lia. } { split; [exact I |]. cbn [value_of]. split; lra. }
    assert (rl' = rl) by congruence. subst rl'.
    exists S, rl. split; [| split].
    + exists (Int S), (Float x). rewrite clamp_not_needed by (exact I || (cbn [value_of]; lra)).
      repeat split; assumption.
    + exists (Float x), (Int S). rewrite clamp_not_needed by (exact I || (cbn [value_of]; lra)).
      repeat split; assumption.
    + left. split; [reflexivity |]. split; [lia |]. split;
        [| apply quotient_below; [lia |]; fold t; destruct W as [A _]; lra].
      apply cross_multiplied; [lia | |]; fold t; destruct W as [A B].
      * clear - B Rl1 Hc L1 T41 A Ht.
        generalize dependent (inject_Z rl). generalize dependent (inject_Z L).
        generalize dependent (2 ^ 41). intros. lra.
      * clear - B Rl2 Hc L1 T41 A Ht.
        generalize dependent (inject_Z rl). generalize dependent (inject_Z L).
        generalize dependent (2 ^ 41). intros. lra.
Qed.

End LongerEdgeCheck.

(** ** The resize target in terms of the exact quotients *)

Section ResizeTargetCases.

Import Binary64 Binary64Facts.
Local Open Scope Z_scope.

Lemma rounded_sides_of_cases (S L n d rs rl : Z) :
  0 < S < 2 ^ 40 -> S <= L < 2 ^ 41 -> 0 < d <= n ->
  (rs = S /\ 0 <= rl <= L /\ Z.abs (rl * d - n * S) < d
   /\ n * S * (2 ^ 51 - 1) <= L * d * 2 ^ 51)
  \/ (rl = L /\ 0 <= rs <= S /\ Z.abs (rs * n - L * d) < n
      /\ L * d * 2 ^ 51 < n * S * (2 ^ 51 + 1)) ->
  rounded_sides S L n d rs rl.
Proof.
  intros HS HL Hd H. unfold rounded_sides.
  destruct (n * S <=? L * d) eqn:C; [apply Z.leb_le in C | apply Z.leb_gt in C];
    destruct H as [(E & R & A & K) | (E & R & A & K)].
  - repeat split; assumption || lia.
  - subst rl.
    assert (P : L * d - n * S < d).
    { destruct (Z_lt_le_dec (L * d - n * S) d) as [Y | Y]; [exact Y | exfalso].
      assert (d * 2 ^ 51 <= (L * d - n * S) * 2 ^ 51) by (apply Z.mul_le_mono_nonneg_r; lia).
      assert (L * d < 2 ^ 41 * d) by (apply Z.mul_lt_mono_pos_r; lia).
      lia. }
    assert (Q : S - 1 < rs).
    { apply (Z.mul_lt_mono_pos_r n); lia. }
    repeat split; lia.
  - subst rs.
    assert (P : n * S - L * d < n).
    { destruct (Z_lt_le_dec (n * S - L * d) n) as [Y | Y]; [exact Y | exfalso].
      assert (n * 2 ^ 51 <= (n * S - L * d) * 2 ^ 51) by (apply Z.mul_le_mono_nonneg_r; lia).
      assert (n * S < n * 2 ^ 40) by (apply Z.mul_lt_mono_pos_l; lia).
      lia. }
    assert (Q : L - 1 < rl).
    { apply (Z.mul_lt_mono_pos_r d); lia. }
    repeat split; lia.
  - repeat split; assumption || lia.
Qed.

Lemma longer_edge_range (S : Z) :
  0 < S < 2 ^ 40 -> S <= 1333 * S / 800 < 2 ^ 41.
Proof.
  intros H. split.
  - apply Z.div_le_lower_bound; lia.
  - apply Z.div_lt_upper_bound; lia.
Qed.

(** The rounded dimensions of lines 116-137, in terms of the exact
    quotients. *)
Lemma rounded_dimensions_cases (S h w : Z) :
  0 < S < 2 ^ 40 -> 0 < h < 2 ^ 53 -> 0 < w < 2 ^ 53 ->
  exists rh rw,
    rounded_dimensions S h w = Ok (rh, rw)
    /\ if h <? w
       then rounded_sides S (1333 * S / 800) w h rh rw
       else rounded_sides S (1333 * S / 800) h w rw rh.
Proof.
  intros HS Hh Hw. unfold rounded_dimensions.
  rewrite (longer_edge_floor S HS). cbn [bind].
  assert (HL := longer_edge_range S HS).
  set (L := 1333 * S / 800) in *.
  unfold initial_dimensions. destruct (h <? w) eqn:C.
  - apply Z.ltb_lt in C.
    destruct (scaled_dimension S w h HS Hw Hh) as [q [r [E1 [E2 [Vq [Vr [X1 X2]]]]]]].
    assert (Cl := scaled_dimension_close S w h q r HS Hw Hh Vq Vr).
    rewrite E1. cbn [bind]. rewrite E2. cbn [bind].
    destruct (clamp_round_pair S L w h r HS HL ltac:(lia) ltac:(lia) X1 X2 Cl)
      as [rs [rl [[a [b [Ec [Ea Eb]]]] [_ K]]]].
    rewrite Ec. cbn [bind]. rewrite Ea. cbn [bind]. rewrite Eb. cbn [bind].
    exists rs, rl. split; [reflexivity |].
    apply rounded_sides_of_cases; assumption || lia.
  - apply Z.ltb_ge in C.
    destruct (scaled_dimension S h w HS Hh Hw) as [q [r [E1 [E2 [Vq [Vr [X1 X2]]]]]]].
    assert (Cl := scaled_dimension_close S h w q r HS Hh Hw Vq Vr).
    rewrite E1. cbn [bind]. rewrite E2. cbn [bind].
    destruct (clamp_round_pair S L h w r HS HL ltac:(lia) ltac:(lia) X1 X2 Cl)
      as [rs [rl [_ [[a [b [Ec [Ea Eb]]]] K]]]].
    rewrite Ec. cbn [bind]. rewrite Ea. cbn [bind]. rewrite Eb. cbn [bind].
    exists rl, rs. split; [reflexivity |].
    apply rounded_sides_of_cases; assumption || lia.
Qed.

Lemma floor_mono (D x y : Z) : 0 < D -> x <= y -> x / D * D <= y / D * D.
Proof.
  intros HD H. apply Z.mul_le_mono_nonneg_r; [lia |].
  apply Z.div_le_mono; assumption.
Qed.

Lemma floor_of_multiple (D x : Z) : 0 < D -> (D | x) -> x / D * D = x.
Proof.
  intros HD [k E]. subst x. rewrite Z.div_mul by lia. reflexivity.
Qed.

Lemma floor_below (D x : Z) : 0 < D -> 0 <= x < D -> x / D * D = 0.
Proof. intros HD H. rewrite Z.div_small by exact H. reflexivity. Qed.

(** The target with a divisor, from the rounded dimensions. *)
Lemma resize_target_cases (S D h w : Z) :
  0 < S < 2 ^ 40 -> 0 < D -> 0 < h < 2 ^ 53 -> 0 < w < 2 ^ 53 ->
  exists rh rw,
    resize_target S (Some D) h w = Ok (rh / D * D, rw / D * D)
    /\ if h <? w
       then rounded_sides S (1333 * S / 800) w h rh rw
       else rounded_sides S (1333 * S / 800) h w rw rh.
Proof.
  intros HS HD Hh Hw.
  destruct (rounded_dimensions_cases S h w HS Hh Hw) as [rh [rw [E K]]].
  exists rh, rw. split; [| exact K].
  rewrite (resize_target_unfold S (Some D) h w rh rw E).
  rewrite !floor_to_divisor_spec by lia. reflexivity.
Qed.

(** X1: without a divisor the target keeps the aspect ratio within one
    pixel.  With [L] the longer-edge bound: when the longer side scaled to a
    shorter side of [S] stays within [L], the shorter side becomes exactly
    [S] and the longer one is less than a pixel away from the exact quotient;
    otherwise the longer side becomes exactly [L] and the shorter one is less
    than a pixel away from its exact quotient. *)
Theorem resize_target_keeps_aspect_ratio (S h w : Z) :
  0 < S < 2 ^ 40 -> 0 < h < 2 ^ 53 -> 0 < w < 2 ^ 53 ->
  let L := 1333 * S / 800 in
  exists nh nw,
    resize_target S None h w = Ok (nh, nw)
    /\ if h <? w then
         if w * S <=? L * h
         then nh = S /\ 0 <= nw <= L /\ Z.abs (nw * h - w * S) < h
         else nw = L /\ 0 <= nh <= S /\ Z.abs (nh * w - L * h) < w
       else
         if h * S <=? L * w
         then nw = S /\ 0 <= nh <= L /\ Z.abs (nh * w - h * S) < w
         else nh = L /\ 0 <= nw <= S /\ Z.abs (nw * h - L * w) < h.
Proof.
  intros HS Hh Hw L.
  destruct (rounded_dimensions_cases S h w HS Hh Hw) as [rh [rw [E K]]].
  exists rh, rw. split; [| exact K].
  rewrite (resize_target_unfold S None h w rh rw E). reflexivity.
Qed.

Lemma resize_target_keeps_aspect_ratio_witness :
  exists nh nw,
    resize_target 384 None 200 300 = Ok (nh, nw)
    /\ nh = 384 /\ Z.abs (nw * 200 - 300 * 384) < 200.
Proof.
  destruct (resize_target_keeps_aspect_ratio 384 200 300) as [nh [nw [E K]]];
    [lia | lia | lia |].
  exists nh, nw. split; [exact E |].
  vm_compute Z.ltb in K. vm_compute Z.leb in K. cbv iota in K.
  destruct K as [K1 [_ K2]]. split; assumption.
Defined.

(** X2: when the longer side scaled to a shorter side of [S] exceeds the
    bound [L], the larger target dimension is exactly [L] floored to the
    divisor, [L // D * D]: 608 for the class defaults. *)
Theorem elongated_image_longer_side (S D h w : Z) :
  0 < S < 2 ^ 40 -> 0 < D -> 0 < h < 2 ^ 53 -> 0 < w < 2 ^ 53 ->
  let L := 1333 * S / 800 in
  L * Z.min h w < Z.max h w * S ->
  exists nh nw,
    resize_target S (Some D) h w = Ok (nh, nw)
    /\ Z.max nh nw = L / D * D.
Proof.
  intros HS HD Hh Hw L C.
  assert (HL := longer_edge_range S HS). fold L in HL.
  destruct (resize_target_cases S D h w HS HD Hh Hw) as [rh [rw [E K]]].
  fold L in K. exists (rh / D * D), (rw / D * D). split; [exact E |].
  unfold rounded_sides in K. destruct (h <? w) eqn:O.
  - apply Z.ltb_lt in O. rewrite Z.min_l, Z.max_r in C by lia.
    destruct (w * S <=? L * h) eqn:T; [apply Z.leb_le in T; lia |].
    destruct K as [-> [R _]].
    assert (M := floor_mono D rh L HD ltac:(lia)). lia.
  - apply Z.ltb_ge in O. rewrite Z.min_r, Z.max_l in C by lia.
    destruct (h * S <=? L * w) eqn:T; [apply Z.leb_le in T; lia |].
    destruct K as [-> [R _]].
    assert (M := floor_mono D rw L HD ltac:(lia)). lia.
Qed.

Lemma elongated_image_longer_side_witness :
  exists nh nw,
    resize_target 384 (Some 32) 100 1000 = Ok (nh, nw) /\ Z.max nh nw = 608.
Proof.
  destruct (elongated_image_longer_side 384 32 100 1000) as [nh [nw [E K]]];
    [lia | lia | lia | lia | vm_compute; reflexivity |].
  exists nh, nw. split; [exact E | exact K].
Defined.

(** X3: a valid configuration can still ask for an empty image.  When the
    sides satisfy [L * min(h, w) < (D - 1) * max(h, w)], the smaller target
    dimension is 0, and that is what is passed to the resize primitive. *)
Theorem panoramic_image_zero_side (S D h w : Z) :
  0 < S < 2 ^ 40 -> 0 < D -> 0 < h < 2 ^ 53 -> 0 < w < 2 ^ 53 ->
  let L := 1333 * S / 800 in
  L * Z.min h w < (D - 1) * Z.max h w ->
  exists nh nw,
    resize_target S (Some D) h w = Ok (nh, nw)
    /\ Z.min nh nw = 0.
Proof.
  intros HS HD Hh Hw L C.
  assert (HL := longer_edge_range S HS). fold L in HL.
  destruct (resize_target_cases S D h w HS HD Hh Hw) as [rh [rw [E K]]].
  fold L in K. exists (rh / D * D), (rw / D * D). split; [exact E |].
  assert (Core : forall n d rs rl, 0 < d <= n -> L * d < (D - 1) * n ->
            rounded_sides S L n d rs rl -> 0 <= rs < D /\ 0 <= rl).
  { intros n d rs rl Hnd Hc R. unfold rounded_sides in R.
    destruct (n * S <=? L * d) eqn:T; [apply Z.leb_le in T | apply Z.leb_gt in T].
    - destruct R as [-> [R _]]. split; [| lia]. split; [lia |].
      destruct (Z_lt_le_dec S D) as [Y | Y]; [exact Y | exfalso].
      assert (n * D <= n * S) by (apply Z.mul_le_mono_nonneg_l; lia). lia.
    - destruct R as [-> [R A]]. split; [| lia]. split; [lia |].
      apply (Z.mul_lt_mono_pos_r n); lia. }
  destruct (h <? w) eqn:O.
  - apply Z.ltb_lt in O. rewrite Z.min_l, Z.max_r in C by lia.
    destruct (Core w h rh rw ltac:(lia) C K) as [A B].
    rewrite (floor_below D rh HD A).
    assert (0 <= rw / D * D) by (apply Z.mul_nonneg_nonneg; [apply Z.div_pos |]; lia).
    lia.
  - apply Z.ltb_ge in O. rewrite Z.min_r, Z.max_l in C by lia.
    destruct (Core h w rw rh ltac:(lia) C K) as [A B].
    rewrite (floor_below D rw HD A).
    assert (0 <= rh / D * D) by (apply Z.mul_nonneg_nonneg; [apply Z.div_pos |]; lia).
    lia.
Qed.

Lemma panoramic_image_zero_side_witness :
  exists nh nw,
    resize_target 384 (Some 32) 30 639 = Ok (nh, nw) /\ Z.min nh nw = 0.
Proof.
  destruct (panoramic_image_zero_side 384 32 30 639) as [nh [nw [E K]]];
    [lia | lia | lia | lia | vm_compute; reflexivity |].
  exists nh, nw. split; [exact E | exact K].
Defined.

(** X4: when the divisor divides [S] and the longer side scaled to a
    shorter side of [S] stays within the bound, the smaller target dimension
    is exactly [S], whatever the size of the input. *)
Theorem moderate_image_shorter_side (S D h w : Z) :
  0 < S < 2 ^ 40 -> 0 < D -> (D | S) -> 0 < h < 2 ^ 53 -> 0 < w < 2 ^ 53 ->
  let L := 1333 * S / 800 in
  Z.max h w * S <= L * Z.min h w ->
  exists nh nw,
    resize_target S (Some D) h w = Ok (nh, nw)
    /\ Z.min nh nw = S.
Proof.
  intros HS HD HDS Hh Hw L C.
  assert (HL := longer_edge_range S HS). fold L in HL.
  destruct (resize_target_cases S D h w HS HD Hh Hw) as [rh [rw [E K]]].
  fold L in K. exists (rh / D * D), (rw / D * D). split; [exact E |].
  assert (Core : forall n d rs rl, 0 < d <= n -> n * S <= L * d ->
            rounded_sides S L n d rs rl -> rs = S /\ S <= rl).
  { intros n d rs rl Hnd Hc R. unfold rounded_sides in R.
    apply Z.leb_le in Hc. rewrite Hc in R. apply Z.leb_le in Hc.
    destruct R as [-> [R A]]. split; [reflexivity |].
    assert (d * S <= n * S) by (apply Z.mul_le_mono_nonneg_r; lia).
    assert (Q : S - 1 < rl) by (apply (Z.mul_lt_mono_pos_r d); lia).
    lia. }
  destruct (h <? w) eqn:O.
  - apply Z.ltb_lt in O. rewrite Z.min_l, Z.max_r in C by lia.
    destruct (Core w h rh rw ltac:(lia) C K) as [-> B].
    assert (M := floor_mono D S rw HD B).
    rewrite (floor_of_multiple D S HD HDS) in *. lia.
  - apply Z.ltb_ge in O. rewrite Z.min_r, Z.max_l in C by lia.
    destruct (Core h w rw rh ltac:(lia) C K) as [-> B].
    assert (M := floor_mono D S rh HD B).
    rewrite (floor_of_multiple D S HD HDS) in *. lia.
Qed.

Lemma moderate_image_shorter_side_witness :
  exists nh nw,
    resize_target 384 (Some 32) 400 300 = Ok (nh, nw) /\ Z.min nh nw = 384.
Proof.
  destruct (moderate_image_shorter_side 384 32 400 300) as [nh [nw [E K]]];
    [lia | lia | exists 12; reflexivity | lia | lia | vm_compute; discriminate |].
  exists nh, nw. split; [exact E | exact K].
Defined.

(** The side held at [S] never exceeds the scaled one. *)
Lemma rounded_sides_order (S L n d rs rl : Z) :
  0 < S -> S <= L -> 0 < d <= n -> rounded_sides S L n d rs rl ->
  rs <= rl /\ (n = d -> rl = rs).
Proof.
  intros HS HL Hd R. unfold rounded_sides in R.
  destruct (n * S <=? L * d) eqn:C; [apply Z.leb_le in C | apply Z.leb_gt in C].
  - destruct R as [-> [R A]].
    assert (d * S <= n * S) by (apply Z.mul_le_mono_nonneg_r; lia).
    assert (Q : S - 1 < rl) by (apply (Z.mul_lt_mono_pos_r d); lia).
    split; [lia |]. intros ->.
    assert (Q' : rl < S + 1) by (apply (Z.mul_lt_mono_pos_r d); lia).
    lia.
  - destruct R as [-> [R A]]. split; [lia |]. intros ->.
    assert (d * S <= d * L) by (apply Z.mul_le_mono_nonneg_l; lia). lia.
Qed.

(** X5: the resizer never turns a landscape into a portrait or back: the
    target of an image with [h <= w] has [nh <= nw], and conversely, so a
    square image gets a square target. *)
Theorem resize_keeps_orientation (S h w : Z) (size_divisor : option Z) :
  0 < S < 2 ^ 40 -> 0 < h < 2 ^ 53 -> 0 < w < 2 ^ 53 ->
  match size_divisor with
  | Some D => 0 < D
  | None => True
  end ->
  exists nh nw,
    resize_target S size_divisor h w = Ok (nh, nw)
    /\ (h <= w -> nh <= nw) /\ (w <= h -> nw <= nh).
Proof.
  intros HS Hh Hw HD. assert (HL := longer_edge_range S HS).
  destruct (rounded_dimensions_cases S h w HS Hh Hw) as [rh [rw [E K]]].
  assert (O : (h <= w -> rh <= rw) /\ (w <= h -> rw <= rh)).
  { destruct (h <? w) eqn:C; [apply Z.ltb_lt in C | apply Z.ltb_ge in C].
    - destruct (rounded_sides_order S (1333 * S / 800) w h rh rw) as [A _];
        [lia | lia | lia | exact K |]. split; lia.
    - destruct (rounded_sides_order S (1333 * S / 800) h w rw rh) as [A B];
        [lia | lia | lia | exact K |]. split; [| lia].
      intros Hle. assert (Ehw : h = w) by lia. rewrite (B Ehw). lia. }
  rewrite (resize_target_unfold S size_divisor h w rh rw E).
  destruct size_divisor as [D |].
  - rewrite !floor_to_divisor_spec by lia. cbn [bind].
    exists (rh / D * D), (rw / D * D). split; [reflexivity |].
    destruct O as [O1 O2]. split; intros Hle; apply floor_mono; auto.
  - exists rh, rw. split; [reflexivity | exact O].
Qed.

Lemma resize_keeps_orientation_witness :
  exists nh nw,
    resize_target 384 (Some 32) 300 300 = Ok (nh, nw) /\ nh <= nw /\ nw <= nh.
Proof.
  destruct (resize_keeps_orientation 384 300 300 (Some 32)) as [nh [nw [E [A B]]]];
    [lia | lia | lia | reflexivity |].
  exists nh, nw. split; [exact E |]. split; [apply A | apply B]; lia.
Defined.

End ResizeTargetCases.

(** ** Images that are already of the target size *)

Section FixedTargets.

Import Binary64 Binary64Facts.
Local Open Scope Q_scope.

(** [n * (S / S)] is [n]: the quotient is exactly one. *)
Lemma scaled_by_one (S n : Z) :
  (0 < S < 2 ^ 40)%Z -> (0 < n < 2 ^ 53)%Z ->
  exists q r,
    py_truediv (Int S) (Int S) = Ok (Float q)
    /\ py_mul (Int n) (Float q) = Ok (Float r)
    /\ r == inject_Z n.
Proof.
  intros HS Hn.
  destruct (scaled_dimension S n S HS Hn ltac:(lia)) as [q [r [E1 [E2 [Vq [Vr _]]]]]].
  exists q, r. split; [exact E1 |]. split; [exact E2 |].
  assert (S0 := inject_Z_pos S ltac:(lia)).
  assert (One : inject_Z S / inject_Z S == 1) by (field; lra).
  rewrite Vr, Vq, One. rewrite (round_pow2 0) by discriminate.
  change (2 ^ 0) with 1. rewrite Qmult_1_r. apply round_Z.
  change (2 ^ prec)%Z with (2 ^ 53)%Z. lia.
Qed.

Lemma int_round_exact (x : number) (k : Z) :
  convertible x -> (0 <= k < 2 ^ 41)%Z -> value_of x == inject_Z k -> int_round x = Ok k.
Proof.
  intros Cx Hk E. apply int_round_near; [exact Cx | exact Hk | |]; rewrite E;
    generalize (inject_Z k); intros; lra.
Qed.

Lemma rounded_dimensions_fixed (S b : Z) :
  (0 < S < 2 ^ 40)%Z -> (S <= b <= 1333 * S / 800)%Z ->
  rounded_dimensions S S b = Ok (S, b) /\ rounded_dimensions S b S = Ok (b, S).
Proof.
  intros HS Hb. assert (HL := longer_edge_range S HS).
  set (L := (1333 * S / 800)%Z) in *.
  assert (SL : inject_Z S <= inject_Z L) by (rewrite <- Zle_Qle; lia).
  assert (BL : inject_Z b <= inject_Z L) by (rewrite <- Zle_Qle; lia).
  destruct (scaled_by_one S b HS ltac:(lia)) as [q [r [E1 [E2 Vr]]]].
  destruct (scaled_by_one S S HS ltac:(lia)) as [q' [r' [E1' [E2' Vr']]]].
  assert (q' = q) by congruence. subst q'.
  assert (RS : int_round (Int S) = Ok S).
  { apply int_round_exact; [cbn; lia | lia | reflexivity]. }
  assert (Rb : int_round (Float r) = Ok b).
  { apply int_round_exact; [exact I | lia | exact Vr]. }
  assert (Rs : int_round (Float r') = Ok S).
  { apply int_round_exact; [exact I | lia | exact Vr']. }
  unfold rounded_dimensions. rewrite (longer_edge_floor S HS). fold L. cbn [bind].
  unfold initial_dimensions. split.
  - destruct (S <? b)%Z eqn:C.
    + rewrite E1. cbn [bind]. rewrite E2. cbn [bind].
      rewrite clamp_not_needed by (exact I || (cbn [value_of]; rewrite ?Vr; assumption)).
      cbn [bind]. rewrite RS. cbn [bind]. rewrite Rb. reflexivity.
    + apply Z.ltb_ge in C. assert (b = S) by lia. subst b.
      rewrite E1. cbn [bind]. rewrite E2. cbn [bind].
      rewrite clamp_not_needed by (exact I || (cbn [value_of]; rewrite ?Vr; assumption)).
      cbn [bind]. rewrite Rb. cbn [bind]. rewrite RS. reflexivity.
  - assert (C : (b <? S)%Z = false) by (apply Z.ltb_ge; lia). rewrite C.
    rewrite E1. cbn [bind]. rewrite E2. cbn [bind].
    rewrite clamp_not_needed by (exact I || (cbn [value_of]; rewrite ?Vr; assumption)).
    cbn [bind]. rewrite Rb. cbn [bind]. rewrite RS. reflexivity.
Qed.

End FixedTargets.

(** ** The target of an image of the target size *)

Section FixedTargetStatements.

Import Binary64 Binary64Facts.
Local Open Scope Z_scope.

Lemma floor_to_divisor_multiple (d : option Z) (x : Z) :
  match d with
  | Some D => D <> 0 /\ (D | x)
  | None => True
  end ->
  floor_to_divisor d x = Ok x.
Proof.
  destruct d as [D |]; [| reflexivity]. intros [HD [k ->]].
  rewrite floor_to_divisor_spec by exact HD. rewrite Z.div_mul by exact HD. reflexivity.
Qed.

(** X6: an image whose shorter side is already [S] and whose longer side
    is within the bound keeps its size: no rounding error moves it, and a
    divisor that divides both sides leaves them alone. *)
Theorem target_size_is_fixed_point (S b : Z) (size_divisor : option Z) :
  0 < S < 2 ^ 40 -> S <= b <= 1333 * S / 800 ->
  match size_divisor with
  | Some D => D <> 0 /\ (D | S) /\ (D | b)
  | None => True
  end ->
  resize_target S size_divisor S b = Ok (S, b)
  /\ resize_target S size_divisor b S = Ok (b, S).
Proof.
  intros HS Hb HD. destruct (rounded_dimensions_fixed S b HS Hb) as [E1 E2].
  assert (FS : floor_to_divisor size_divisor S = Ok S).
  { apply floor_to_divisor_multiple. destruct size_divisor; tauto. }
  assert (Fb : floor_to_divisor size_divisor b = Ok b).
  { apply floor_to_divisor_multiple. destruct size_divisor; tauto. }
  rewrite (resize_target_unfold _ _ _ _ _ _ E1), (resize_target_unfold _ _ _ _ _ _ E2).
  rewrite FS, Fb. split; reflexivity.
Qed.

Lemma target_size_is_fixed_point_witness :
  resize_target 384 (Some 32) 384 576 = Ok (384, 576)
  /\ resize_target 384 (Some 32) 576 384 = Ok (576, 384).
Proof.
  apply (target_size_is_fixed_point 384 576 (Some 32)).
  - lia.
  - vm_compute. split; discriminate.
  - split; [discriminate |]. split; [exists 12 | exists 18]; reflexivity.
Defined.

End FixedTargetStatements.

(** ** Rounding halves *)

Section HalfUp.

Import Binary64 Binary64Facts.
Local Open Scope Q_scope.

(** X7: [int(x + 0.5)] leaves a non-negative integer alone and rounds a
    half up, where rounding to nearest with ties to even, as Python's
    [round], would give the even neighbour. *)
Theorem int_round_rounds_half_up (k : Z) :
  (0 <= k < 2 ^ 41)%Z ->
  int_round (Int k) = Ok k
  /\ int_round (Float (inject_Z k + (1 # 2))) = Ok (k + 1)%Z
  /\ (Z.even k = true -> rne (inject_Z k + (1 # 2)) = k).
Proof.
  intros Hk.
  assert (K0 : 0 <= inject_Z k) by (change 0 with (inject_Z 0); rewrite <- Zle_Qle; lia).
  assert (K1 := inject_Z_le_pow2 k 41 ltac:(discriminate) ltac:(lia)).
  assert (T41 : 2 ^ 41 == 2199023255552) by reflexivity. rewrite T41 in K1.
  split; [| split].
  - apply int_round_exact; [cbn; lia | exact Hk | reflexivity].
  - unfold int_round.
    destruct (py_add_spec (Float (inject_Z k + (1 # 2))) (Float (1 # 2))) as [r [E V]].
    + exact I.
    + exact I.
    + right. exact I.
    + cbn [value_of]. apply (small_le _ 42); [discriminate |].
      assert (T : 2 ^ 42 == 4398046511104) by reflexivity. rewrite T.
      apply Qabs_le_pos; [lra |].
      generalize dependent (inject_Z k). intros. lra.
    + cbn [value_of] in V. rewrite E. cbn [bind py_int]. f_equal.
      assert (X : inject_Z k + (1 # 2) + (1 # 2) == inject_Z (k + 1)).
      { rewrite inject_Z_plus. change (inject_Z 1) with 1. ring. }
      rewrite X, round_Z in V by (change (2 ^ prec)%Z with (2 ^ 53)%Z; lia).
      apply trunc_between; [lia | rewrite V; apply Qle_refl |].
      rewrite V. generalize (inject_Z (k + 1)). intros. lra.
  - intros Ev. unfold rne.
    assert (F : Qfloor (inject_Z k + (1 # 2)) = k).
    { apply Qfloor_between; generalize (inject_Z k); intros; lra. }
    rewrite F.
    assert (C : Qcompare (inject_Z k + (1 # 2) - inject_Z k) (1 # 2) = Eq).
    { apply Qeq_alt. ring. }
    rewrite C, Ev. reflexivity.
Qed.

Lemma int_round_rounds_half_up_witness :
  int_round (Float (inject_Z 2 + (1 # 2))) = Ok 3%Z
  /\ rne (inject_Z 2 + (1 # 2)) = 2%Z.
Proof.
  destruct (int_round_rounds_half_up 2 ltac:(lia)) as [_ [H1 H2]].
  split; [exact H1 | exact (H2 eq_refl)].
Defined.

End HalfUp.

(** ** Images with an empty side *)

Section EmptySide.

Local Open Scope nat_scope.

Variable pixel : Type.
Variable interpolation_mode : Type.
Variable F_resize :
  stacked pixel -> list Z -> option interpolation_mode -> result (stacked pixel).

(** X8: a shape group of images with an empty side, a height or a width
    of 0, makes the resizer raise [ZeroDivisionError] at line 125 or 127,
    before the resize primitive is called. *)
Theorem empty_side_raises_ZeroDivisionError (S : Z) (size_divisor : option Z)
  (interpolation : option interpolation_mode) (stacked_images : stacked pixel) :
  (Z.abs S <= 2 ^ 53)%Z ->
  s_height stacked_images = 0 \/ s_width stacked_images = 0 ->
  resize_group F_resize true {| shortest_edge := Some S |} interpolation size_divisor
    stacked_images
  = Raise ZeroDivisionError.
Proof.
  intros HS Hz. unfold resize_group. cbn [shortest_edge bind].
  unfold resize_target, rounded_dimensions.
  destruct (longer_edge_value S HS) as [r [E _]]. rewrite E. cbn [bind].
  unfold initial_dimensions.
  destruct (Z.of_nat (s_height stacked_images) <? Z.of_nat (s_width stacked_images))%Z eqn:C.
  - apply Z.ltb_lt in C.
    assert (H0 : s_height stacked_images = 0) by lia.
    rewrite H0. reflexivity.
  - apply Z.ltb_ge in C.
    assert (W0 : s_width stacked_images = 0) by lia.
    rewrite W0. reflexivity.
Qed.

End EmptySide.

(** ** The values of padded images *)

Section PaddedContent.

Local Open Scope nat_scope.

Variable pixel : Type.
Variable zero : pixel.

Lemma flat_map_seq_length {B : Type} (f : nat -> list B) (n s m : nat) :
  (forall k, s <= k < s + m -> List.length (f k) = n) ->
  List.length (flat_map f (seq s m)) = m * n.
Proof.
  revert s. induction m as [| m IH]; intros s H; [reflexivity |].
  cbn [seq flat_map]. rewrite length_app, (H s) by lia.
  rewrite IH by (intros k Hk; apply H; lia). reflexivity.
Qed.

Lemma nth_flat_map_seq {B : Type} (f : nat -> list B) (n s m i j : nat) (d : B) :
  (forall k, s <= k < s + m -> List.length (f k) = n) ->
  i < m -> j < n ->
  nth (i * n + j) (flat_map f (seq s m)) d = nth j (f (s + i)) d.
Proof.
  revert s i. induction m as [| m IH]; intros s i H Hi Hj; [lia |].
  cbn [seq flat_map]. destruct i as [| i].
  - rewrite app_nth1 by (rewrite (H s) by lia; cbn; lia).
    rewrite Nat.add_0_r. reflexivity.
  - rewrite app_nth2 by (rewrite (H s) by lia; cbn; lia).
    rewrite (H s) by lia.
    replace (S i * n + j - n) with (i * n + j) by (cbn; lia).
    rewrite IH; [| intros k Hk; apply H; lia | lia | exact Hj].
    f_equal. f_equal. lia.
Qed.

Lemma nth_map_seq {B : Type} (g : nat -> B) (n j : nat) (d : B) :
  j < n -> nth j (map g (seq 0 n)) d = g j.
Proof.
  intros H. rewrite (nth_indep _ d (g 0)) by (rewrite length_map, length_seq; exact H).
  rewrite map_nth, seq_nth by exact H. reflexivity.
Qed.

(** [F.pad] with padding on the right and at the bottom only. *)
Lemma F_pad_bottom_right (img : image pixel) (pr pb : nat) :
  let p := F_pad img (0, 0, pr, pb) zero in
  channels p = channels img
  /\ height p = height img + pb
  /\ width p = width img + pr
  /\ well_formed p
  /\ forall ch r c, ch < channels img -> r < height img + pb -> c < width img + pr ->
       pixel_at zero p ch r c
       = if (r <? height img) && (c <? width img) then pixel_at zero img ch r c else zero.
Proof.
  cbn zeta. unfold F_pad. cbn [channels height width pixels Nat.add].
  set (H := height img + pb). set (W := width img + pr).
  set (row := fun ch r : nat =>
                map (fun c : nat =>
                       if (0 <=? r) && (r <? height img) && (0 <=? c) && (c <? width img)
                       then nth ((ch * height img + (r - 0)) * width img + (c - 0))
                              (pixels img) zero
                       else zero) (seq 0 W)).
  assert (Lrow : forall ch r, List.length (row ch r) = W).
  { intros ch r. unfold row. rewrite length_map, length_seq. reflexivity. }
  assert (Lch : forall ch, List.length (flat_map (row ch) (seq 0 H)) = H * W).
  { intros ch. apply flat_map_seq_length. intros k _. apply Lrow. }
  repeat split.
  - unfold well_formed. cbn [channels height width pixels].
    rewrite (flat_map_seq_length _ (H * W)) by (intros k _; apply Lch). lia.
  - intros ch r c Hch Hr Hc. unfold pixel_at at 1. cbn [channels height width pixels].
    replace ((ch * H + r) * W + c) with (ch * (H * W) + (r * W + c)) by lia.
    rewrite (nth_flat_map_seq _ (H * W) 0 (channels img) ch (r * W + c));
      [| intros k _; apply Lch | exact Hch | apply flat_index_bound; assumption].
    rewrite (nth_flat_map_seq _ W 0 H r c);
      [| intros k _; apply Lrow | exact Hr | exact Hc].
    cbn [Nat.add]. unfold row. rewrite nth_map_seq by exact Hc.
    cbn [Nat.leb andb]. rewrite !Nat.sub_0_r.
    destruct (r <? height img); [| reflexivity]. cbn [andb].
    destruct (c <? width img); reflexivity.
Qed.

Lemma mapM_length {A B : Type} (f : A -> result B) (l : list A) (l' : list B) :
  mapM f l = Ok l' -> List.length l' = List.length l.
Proof.
  revert l'. induction l as [| x l IH]; intros l' H.
  - injection H as <-. reflexivity.
  - cbn [mapM] in H. destruct (f x) as [b |]; [| discriminate].
    cbn [bind] in H. destruct (mapM f l) as [bs |]; [| discriminate].
    cbn [bind] in H. injection H as <-. cbn. f_equal. apply IH. reflexivity.
Qed.

(** What one turn of the padding loop does to the image. *)
Lemma pad_image_content (max_size : nat * nat) (t : option mask)
  (img p : image pixel) (m : mask) :
  height img <= fst max_size -> width img <= snd max_size ->
  pad_image zero max_size t img = Ok (p, m) ->
  channels p = channels img
  /\ spatial_size p = max_size
  /\ (well_formed img -> well_formed p)
  /\ forall ch r c, ch < channels img -> r < fst max_size -> c < snd max_size ->
       pixel_at zero p ch r c
       = if (r <? height img) && (c <? width img) then pixel_at zero img ch r c else zero.
Proof.
  intros Hh Hw. rewrite pad_image_unfold.
  destruct (needs_padding max_size img) eqn:N.
  - destruct t as [template |]; [| discriminate].
    intros E. destruct max_size as [H W]. cbn [fst snd] in *.
    assert (Ep : F_pad img (0, 0, W - width img, H - height img) zero = p) by congruence.
    destruct (F_pad_bottom_right img (W - width img) (H - height img))
      as [C [Eh [Ew [Wf Px]]]].
    rewrite Ep in C, Eh, Ew, Wf, Px. clear E Ep.
    replace (height img + (H - height img)) with H in Eh, Px by lia.
    replace (width img + (W - width img)) with W in Ew, Px by lia.
    split; [exact C |]. split; [unfold spatial_size; congruence |].
    split; [intros _; exact Wf | exact Px].
  - apply needs_padding_false in N. intros E. injection E as <- _.
    split; [reflexivity |]. split; [exact N |]. split; [tauto |].
    intros ch r c _ Hr Hc. unfold spatial_size in N. rewrite <- N in Hr, Hc.
    cbn [fst snd] in Hr, Hc. apply Nat.ltb_lt in Hr, Hc. rewrite Hr, Hc. reflexivity.
Qed.

(** X9: the padding loop returns one image per input; each has the
    channels of its input and the maximum size of the batch, holds the
    input's values in its top-left corner and the fill value 0 to the right
    and below, and has as many values as its shape says. *)
Theorem padding_keeps_content_top_left (return_tensors : option string)
  (images padded : list (image pixel)) (masks : list mask) :
  pad_images zero return_tensors images = Ok (padded, masks) ->
  let max_size := get_max_height_width images in
  List.length padded = List.length images
  /\ forall i img, nth_error images i = Some img ->
       exists p,
         nth_error padded i = Some p
         /\ channels p = channels img
         /\ spatial_size p = max_size
         /\ (well_formed img -> well_formed p)
         /\ forall ch r c, ch < channels img -> r < fst max_size -> c < snd max_size ->
              pixel_at zero p ch r c
              = if (r <? height img) && (c <? width img)
                then pixel_at zero img ch r c else zero.
Proof.
  unfold pad_images. set (max_size := get_max_height_width images).
  set (template := if is_pt return_tensors && (0 <? List.length images)
                   then Some (torch_zeros max_size) else None).
  intros H.
  destruct (mapM (pad_image zero max_size template) images) as [pairs |] eqn:M;
    [| discriminate].
  cbn [bind] in H. injection H as <- <-. cbn zeta. split.
  - rewrite length_map. apply (mapM_length _ _ _ M).
  - intros i img Hi.
    destruct (max_size_bounds pixel images img (nth_error_In _ _ Hi)) as [Bh Bw].
    fold max_size in Bh, Bw.
    destruct (mapM_nth_error _ _ _ i img M Hi) as [[p m] [E Hp]].
    exists p. split; [rewrite nth_error_map, Hp; reflexivity |].
    apply (pad_image_content max_size template img p m Bh Bw E).
Qed.

End PaddedContent.

(** ** Stacking the batch *)

Section Stacking.

Local Open Scope nat_scope.

Variable pixel : Type.
Variable zero : pixel.

Lemma pad_images_pointwise (return_tensors : option string)
  (images padded : list (image pixel)) (masks : list mask) :
  pad_images zero return_tensors images = Ok (padded, masks) ->
  let max_size := get_max_height_width images in
  List.length padded = List.length images
  /\ List.length masks = List.length images
  /\ forall i img, nth_error images i = Some img ->
       height img <= fst max_size /\ width img <= snd max_size
       /\ exists p m,
            nth_error padded i = Some p /\ nth_error masks i = Some m
            /\ pad_image zero max_size
                 (if is_pt return_tensors && (0 <? List.length images)
                  then Some (torch_zeros max_size) else None) img
               = Ok (p, m).
Proof.
  unfold pad_images. set (max_size := get_max_height_width images).
  set (template := if is_pt return_tensors && (0 <? List.length images)
                   then Some (torch_zeros max_size) else None).
  intros H.
  destruct (mapM (pad_image zero max_size template) images) as [pairs |] eqn:M;
    [| discriminate].
  cbn [bind] in H. injection H as <- <-. cbn zeta.
  rewrite !length_map, (mapM_length _ _ _ M).
  split; [reflexivity |]. split; [reflexivity |].
  intros i img Hi.
  destruct (max_size_bounds pixel images img (nth_error_In _ _ Hi)) as [Bh Bw].
  split; [exact Bh |]. split; [exact Bw |].
  destruct (mapM_nth_error _ _ _ i img M Hi) as [[p m] [E Hp]].
  exists p, m. rewrite !nth_error_map, Hp. repeat split. exact E.
Qed.

(** With tensors requested the template is bound and the loop runs to
    its end. *)
Lemma pad_images_with_template (return_tensors : option string)
  (images : list (image pixel)) :
  is_pt return_tensors = true ->
  exists padded masks, pad_images zero return_tensors images = Ok (padded, masks).
Proof.
  intros Pt. unfold pad_images.
  destruct (mapM_total (pad_image zero (get_max_height_width images)
              (if is_pt return_tensors && (0 <? List.length images)
               then Some (torch_zeros (get_max_height_width images)) else None))
              images) as [l' M].
  - intros img Hin. rewrite pad_image_unfold.
    destruct (needs_padding _ img); [| eexists; reflexivity].
    rewrite Pt. destruct images as [| x l]; [destruct Hin |]. cbn. eexists. reflexivity.
  - rewrite M. cbn [bind]. eexists. eexists. reflexivity.
Qed.

Lemma torch_stack_uniform (l : list (image pixel)) (c h w : nat) :
  l <> [] -> (forall img, In img l -> image_shape img = (c, h, w)) ->
  torch_stack l = Ok (Stacked c h w (map (@pixels pixel) l)).
Proof.
  intros Hne H. destruct l as [| first rest]; [contradiction |].
  unfold torch_stack.
  assert (F : forallb (fun img => shape_eqb (image_shape img) (image_shape first))
                (first :: rest) = true).
  { apply forallb_forall. intros img Hin. apply shape_eqb_eq.
    rewrite (H img Hin), (H first (or_introl eq_refl)). reflexivity. }
  rewrite F. assert (E := H first (or_introl eq_refl)). unfold image_shape in E.
  injection E as -> -> ->. reflexivity.
Qed.

Lemma torch_stack_mixed (l : list (image pixel)) :
  (exists a b, In a l /\ In b l /\ image_shape a <> image_shape b) ->
  torch_stack l = Raise RuntimeError.
Proof.
  intros [a [b [Ha [Hb N]]]]. destruct l as [| first rest]; [destruct Ha |].
  unfold torch_stack.
  destruct (forallb (fun img => shape_eqb (image_shape img) (image_shape first))
              (first :: rest)) eqn:F; [exfalso | reflexivity].
  rewrite forallb_forall in F. apply N.
  rewrite (proj1 (shape_eqb_eq _ _) (F a Ha)), (proj1 (shape_eqb_eq _ _) (F b Hb)).
  reflexivity.
Qed.

Lemma torch_stack_masks_uniform (l : list mask) (h w : nat) :
  l <> [] -> (forall m, In m l -> (mask_height m, mask_width m) = (h, w)) ->
  torch_stack_masks l = Ok (StackedMasks h w (map mask_values l)).
Proof.
  intros Hne H. destruct l as [| first rest]; [contradiction |].
  unfold torch_stack_masks.
  assert (F : forallb (fun m => (mask_height m =? mask_height first)
                                && (mask_width m =? mask_width first))
                (first :: rest) = true).
  { apply forallb_forall. intros m Hin.
    assert (E1 := H m Hin). assert (E2 := H first (or_introl eq_refl)).
    injection E1 as -> ->. injection E2 as -> ->. rewrite !Nat.eqb_refl. reflexivity. }
  rewrite F. assert (E := H first (or_introl eq_refl)).
  injection E as -> ->. reflexivity.
Qed.

Lemma nonempty_length {A B : Type} (l : list A) (l' : list B) :
  l <> [] -> List.length l' = List.length l -> l' <> [].
Proof. destruct l, l'; cbn; congruence. Qed.

(** After the padding loop every image has the channels of the batch and
    the maximum size, and every mask has the maximum size. *)
Lemma padded_shapes (return_tensors : option string)
  (images padded : list (image pixel)) (masks : list mask) (c : nat) :
  pad_images zero return_tensors images = Ok (padded, masks) ->
  (forall img, In img images -> channels img = c) ->
  (forall p, In p padded ->
     image_shape p = (c, fst (get_max_height_width images),
                      snd (get_max_height_width images)))
  /\ (forall m, In m masks ->
        (mask_height m, mask_width m) = get_max_height_width images)
  /\ List.length padded = List.length images
  /\ List.length masks = List.length images.
Proof.
  intros E Hch.
  destruct (pad_images_pointwise return_tensors images padded masks E) as [Lp [Lm Pw]].
  split; [| split; [| split; assumption]].
  - intros p Hin. destruct (In_nth_error _ _ Hin) as [i Hi].
    assert (Hlt : i < List.length images).
    { rewrite <- Lp. apply nth_error_Some. congruence. }
    destruct (nth_error images i) as [img |] eqn:Hg;
      [| apply nth_error_None in Hg; lia].
    destruct (Pw i img Hg) as [Bh [Bw [p' [m [Hp [_ Ep]]]]]].
    assert (p' = p) by congruence. subst p'.
    destruct (pad_image_content pixel zero _ _ img p m Bh Bw Ep) as [C [Sz _]].
    unfold image_shape. unfold spatial_size in Sz. rewrite <- Sz. cbn [fst snd].
    rewrite C, (Hch img (nth_error_In _ _ Hg)). reflexivity.
  - intros m Hin. destruct (In_nth_error _ _ Hin) as [i Hi].
    assert (Hlt : i < List.length images).
    { rewrite <- Lm. apply nth_error_Some. congruence. }
    destruct (nth_error images i) as [img |] eqn:Hg;
      [| apply nth_error_None in Hg; lia].
    destruct (Pw i img Hg) as [Bh [Bw [p [m' [_ [Hm Ep]]]]]].
    assert (m' = m) by congruence. subst m'.
    apply (pad_image_mask pixel zero _ _ _ img p m Bh Bw Ep).
Qed.

(** Lines 198-204 on padded images and masks of one shape. *)
Lemma assemble_stacked (return_tensors : option string)
  (images padded : list (image pixel)) (masks : list mask) (c h w : nat) :
  is_pt return_tensors = true ->
  pad_images zero return_tensors images = Ok (padded, masks) ->
  padded <> [] -> masks <> [] ->
  (forall p, In p padded -> image_shape p = (c, h, w)) ->
  (forall m, In m masks -> (mask_height m, mask_width m) = (h, w)) ->
  assemble zero true return_tensors images
  = Ok {| data := [("pixel_values"%string,
                    ImageTensor (Stacked c h w (map (@pixels pixel) padded)));
                   ("pixel_mask"%string,
                    MaskTensor pixel (StackedMasks h w (map mask_values masks)))];
          tensor_type := return_tensors |}.
Proof.
  intros Pt E Np Nm Sp Sm. unfold assemble. rewrite E. cbn [bind]. rewrite Pt.
  rewrite (torch_stack_uniform padded _ _ _ Np Sp). cbn [bind].
  rewrite (torch_stack_masks_uniform masks _ _ Nm Sm). cbn [bind].
  apply new_BatchFeature_pt, Pt.
Qed.

(** X10: with padding on and tensors requested, a batch that is not empty
    and has one channel count always assembles: both keys hold one stacked
    tensor with a slice per image, of the maximum height and width of the
    batch. *)
Theorem padded_batch_stacks (return_tensors : option string)
  (images : list (image pixel)) :
  is_pt return_tensors = true -> images <> [] ->
  (forall a b, In a images -> In b images -> channels a = channels b) ->
  exists pv pm,
    assemble zero true return_tensors images
    = Ok {| data := [("pixel_values"%string, ImageTensor pv);
                     ("pixel_mask"%string, MaskTensor pixel pm)];
            tensor_type := return_tensors |}
    /\ (s_height pv, s_width pv) = get_max_height_width images
    /\ (sm_height pm, sm_width pm) = get_max_height_width images
    /\ List.length (s_slices pv) = List.length images
    /\ List.length (sm_slices pm) = List.length images.
Proof.
  intros Pt Hne Hch.
  destruct (pad_images_with_template return_tensors images Pt) as [padded [masks E]].
  destruct images as [| x0 rest] eqn:EI; [contradiction |]. rewrite <- EI in *.
  destruct (padded_shapes return_tensors images padded masks (channels x0) E)
    as [Sp [Sm [Lp Lm]]].
  { intros img Hin. apply Hch; [exact Hin | rewrite EI; left; reflexivity]. }
  destruct (get_max_height_width images) as [H W] eqn:EM. cbn [fst snd] in Sp.
  assert (Np : padded <> []) by (apply (nonempty_length images); [congruence | exact Lp]).
  assert (Nm : masks <> []) by (apply (nonempty_length images); [congruence | exact Lm]).
  exists (Stacked (channels x0) H W (map (@pixels pixel) padded)),
         (StackedMasks H W (map mask_values masks)).
  split; [apply (assemble_stacked _ _ _ _ _ _ _ Pt E Np Nm Sp Sm) |].
  cbn [s_height s_width sm_height sm_width s_slices sm_slices].
  rewrite !length_map. repeat split; assumption.
Qed.

(** X11: with padding off and tensors requested, the images are stacked
    as they are: that succeeds when the batch is not empty and has one
    shape, and raises [RuntimeError] when the batch is empty or holds two
    shapes. *)
Theorem unpadded_stack_needs_one_shape (return_tensors : option string)
  (images : list (image pixel)) :
  is_pt return_tensors = true ->
  (images <> [] ->
   (forall a b, In a images -> In b images -> image_shape a = image_shape b) ->
   exists t,
     assemble zero false return_tensors images
     = Ok {| data := [("pixel_values"%string, ImageTensor t)];
             tensor_type := return_tensors |}
     /\ s_slices t = map (@pixels pixel) images)
  /\ (images = []
      \/ (exists a b, In a images /\ In b images /\ image_shape a <> image_shape b) ->
      assemble zero false return_tensors images = Raise RuntimeError).
Proof.
  intros Pt. split.
  - intros Hne Hsh. destruct images as [| x0 rest] eqn:EI; [contradiction |].
    rewrite <- EI in *.
    exists (Stacked (channels x0) (height x0) (width x0) (map (@pixels pixel) images)).
    split; [| reflexivity].
    unfold assemble. rewrite Pt.
    rewrite (torch_stack_uniform images (channels x0) (height x0) (width x0)).
    + cbn [bind]. apply new_BatchFeature_pt, Pt.
    + congruence.
    + intros img Hin. apply (Hsh img x0 Hin). rewrite EI. left. reflexivity.
  - intros [-> | Hmix]; unfold assemble; rewrite Pt.
    + reflexivity.
    + rewrite (torch_stack_mixed images Hmix). reflexivity.
Qed.

(** X12: with padding on and tensors requested, a batch with two channel
    counts is padded to the end and then fails: [torch.stack] raises
    [RuntimeError] at line 200; nothing checks the channels before. *)
Theorem mixed_channels_fail_on_stacking (return_tensors : option string)
  (images : list (image pixel)) :
  is_pt return_tensors = true ->
  (exists a b, In a images /\ In b images /\ channels a <> channels b) ->
  (exists padded masks, pad_images zero return_tensors images = Ok (padded, masks))
  /\ assemble zero true return_tensors images = Raise RuntimeError.
Proof.
  intros Pt [a [b [Ha [Hb N]]]].
  destruct (pad_images_with_template return_tensors images Pt) as [padded [masks E]].
  split; [exists padded, masks; exact E |].
  destruct (pad_images_pointwise return_tensors images padded masks E) as [_ [_ Pw]].
  assert (Kept : forall img, In img images ->
            exists p, In p padded /\ channels p = channels img).
  { intros img Hin. destruct (In_nth_error _ _ Hin) as [i Hi].
    destruct (Pw i img Hi) as [Bh [Bw [p [m [Hp [_ Ep]]]]]].
    destruct (pad_image_content pixel zero _ _ img p m Bh Bw Ep) as [C _].
    exists p. split; [apply (nth_error_In _ _ Hp) | exact C]. }
  destruct (Kept a Ha) as [pa [Ia Ca]]. destruct (Kept b Hb) as [pb [Ib Cb]].
  unfold assemble. rewrite E. cbn [bind]. rewrite Pt.
  rewrite (torch_stack_mixed padded); [reflexivity |].
  exists pa, pb. split; [exact Ia |]. split; [exact Ib |].
  unfold image_shape. intros C. injection C as C _ _. congruence.
Qed.

End Stacking.

(** ** Processing by shape group *)

Section GroupedProcessing.

Local Open Scope nat_scope.

Variable pixel : Type.

Lemma dict_set_keys {V : Type} (k : shape_key) (v : V) (d : dict shape_key V) :
  map fst (dict_set k v d)
  = if existsb (fun e => shape_eqb (fst e) k) d then map fst d else map fst d ++ [k].
Proof.
  induction d as [| [k' v'] d IH]; cbn; [reflexivity |].
  destruct (shape_eqb k' k) eqn:E; cbn; [reflexivity |].
  rewrite IH. destruct (existsb _ d); reflexivity.
Qed.

Lemma dict_set_nodup {V : Type} (k : shape_key) (v : V) (d : dict shape_key V) :
  NoDup (map fst d) -> NoDup (map fst (dict_set k v d)).
Proof.
  intros H. rewrite dict_set_keys.
  destruct (existsb (fun e => shape_eqb (fst e) k) d) eqn:E; [exact H |].
  apply NoDup_app; [exact H | repeat constructor; intros [] |].
  intros x Hin [<- | []].
  apply in_map_iff in Hin. destruct Hin as [[k' v'] [Ek Hin]]. cbn in Ek. subst k'.
  assert (C : existsb (fun e : shape_key * V => shape_eqb (fst e) k) d = true).
  { apply existsb_exists. exists (k, v'). split; [exact Hin | apply shape_eqb_refl]. }
  congruence.
Qed.

Lemma group_loop_nodup (images : list (image pixel))
  (grouped : dict shape_key (list (image pixel))) (index : list (shape_key * nat)) :
  NoDup (map fst grouped) -> NoDup (map fst (fst (group_loop images grouped index))).
Proof.
  revert grouped index. induction images as [| img rest IH]; intros grouped index H.
  - exact H.
  - cbn [group_loop]. apply IH. apply dict_set_nodup, H.
Qed.

Lemma dict_get_In {V : Type} (k : shape_key) (v : V) (d : dict shape_key V) :
  NoDup (map fst d) -> In (k, v) d -> dict_get k d = Some v.
Proof.
  induction d as [| [k' v'] d IH]; intros N Hin; [destruct Hin |].
  cbn [map fst] in N. apply NoDup_cons_iff in N. destruct N as [N1 N2].
  cbn [dict_get]. destruct Hin as [E | Hin].
  - injection E as -> ->. rewrite shape_eqb_refl. reflexivity.
  - destruct (shape_eqb k' k) eqn:E.
    + apply shape_eqb_eq in E. subst k'. exfalso. apply N1.
      apply in_map_iff. exists (k, v). split; [reflexivity | exact Hin].
    + apply IH; assumption.
Qed.

Lemma dict_set_In {V : Type} (k : shape_key) (v : V) (d : dict shape_key V)
  (e : shape_key * V) :
  In e (dict_set k v d) -> snd e = v \/ In e d.
Proof.
  induction d as [| [k' v'] d IH]; cbn.
  - intros [<- | []]. left. reflexivity.
  - destruct (shape_eqb k' k); cbn.
    + intros [<- | H]; [left; reflexivity | right; right; exact H].
    + intros [<- | H]; [right; left; reflexivity |].
      destruct (IH H) as [E | Hin]; [left; exact E | right; right; exact Hin].
Qed.

Lemma group_loop_nonempty (images : list (image pixel))
  (grouped : dict shape_key (list (image pixel))) (index : list (shape_key * nat)) :
  (forall e, In e grouped -> snd e <> []) ->
  forall e, In e (fst (group_loop images grouped index)) -> snd e <> [].
Proof.
  revert grouped index. induction images as [| img rest IH]; intros grouped index H.
  - exact H.
  - cbn [group_loop]. apply IH. intros e Hin.
    destruct (dict_set_In _ _ _ _ Hin) as [E | Hin'].
    + rewrite E. intros C. apply app_eq_nil in C. destruct C as [_ C]. discriminate.
    + apply H, Hin'.
Qed.

(** The members of every group are images of the batch, of the shape the
    group is kept under. *)
Lemma group_members (images : list (image pixel)) (k : shape_key)
  (l : list (image pixel)) (j : nat) (img : image pixel) :
  dict_get k (fst (group_loop images [] [])) = Some l ->
  nth_error l j = Some img ->
  image_shape img = k /\ In img images.
Proof.
  intros G Hj.
  destruct (group_loop_inv pixel images [] [] [] (group_inv_nil pixel))
    as [Hlen Hlook Hcover Hnodup Htotal].
  cbn [app] in *.
  assert (Hlt : j < List.length l) by (apply nth_error_Some; congruence).
  destruct (In_nth_error _ _ (Hcover k l j G Hlt)) as [i Hi].
  destruct (Hlook i k j Hi) as [l' [x [G' [Nl [Ns Sh]]]]].
  assert (l' = l) by congruence. subst l'.
  assert (x = img) by congruence. subst x.
  split; [exact Sh | apply (nth_error_In _ _ Ns)].
Qed.

Lemma map_groups_lookup (op : stacked pixel -> result (stacked pixel))
  (d d' : dict shape_key (stacked pixel)) (k : shape_key) (s : stacked pixel) :
  map_groups op d = Ok d' -> dict_get k d = Some s ->
  exists s', op s = Ok s' /\ dict_get k d' = Some s'.
Proof.
  unfold map_groups. revert d'. induction d as [| [k0 s0] d IH]; intros d' M G;
    [discriminate |].
  cbn [mapM fst snd] in M. destruct (op s0) as [s0' |] eqn:O; [| discriminate].
  cbn [bind] in M.
  destruct (mapM (fun entry : shape_key * stacked pixel =>
                    s1 <- op (snd entry);; Ok (fst entry, s1)) d) as [rest |] eqn:R;
    [| discriminate].
  cbn [bind] in M. injection M as <-. cbn [dict_get] in *.
  destruct (shape_eqb k0 k).
  - injection G as <-. exists s0'. split; [exact O | reflexivity].
  - apply (IH rest eq_refl G).
Qed.

(** Processing by shape group and restoring the order is processing
    every image by itself, when the operation on a group gives at every
    slot what [per] gives on the image at that slot. *)
Lemma grouped_apply (op : stacked pixel -> result (stacked pixel))
  (per : image pixel -> image pixel) (images : list (image pixel)) :
  (forall k l, l <> [] ->
     (forall j img, nth_error l j = Some img -> image_shape img = k /\ In img images) ->
     exists s', op (snd (stack_group (k, l))) = Ok s'
                /\ forall j img, nth_error l j = Some img ->
                     stacked_get s' j = Ok (per img)) ->
  (processed <- map_groups op (fst (group_images_by_shape images));;
   reorder_images processed (snd (group_images_by_shape images)))
  = Ok (map per images).
Proof.
  intros Hop. rewrite group_images_by_shape_unfold. cbn [fst snd].
  destruct (group_loop_inv pixel images [] [] [] (group_inv_nil pixel))
    as [Hlen Hlook Hcover Hnodup Htotal].
  cbn [app] in *.
  assert (Keys := group_loop_nodup images [] [] (NoDup_nil _)).
  assert (Full := group_loop_nonempty images [] [] (fun e (H : In e []) => match H with end)).
  set (raw := fst (group_loop images [] [])) in *.
  set (index := snd (group_loop images [] [])) in *.
  destruct (mapM_total (fun entry : shape_key * stacked pixel =>
                          s <- op (snd entry);; Ok (fst entry, s))
              (map (@stack_group pixel) raw)) as [processed M].
  { intros e Hin. apply in_map_iff in Hin. destruct Hin as [[k l] [<- Hin]].
    assert (G := dict_get_In k l raw Keys Hin).
    destruct (Hop k l) as [s' [O _]].
    - apply (Full (k, l) Hin).
    - intros j img Hj. apply (group_members images k l j img G Hj).
    - rewrite O. cbn [bind]. eexists. reflexivity. }
  fold (map_groups op (map (@stack_group pixel) raw)) in M.
  rewrite M. cbn [bind]. unfold reorder_images.
  apply mapM_pointwise; [rewrite length_map; exact Hlen |].
  intros i [k j] Hi. cbn [fst snd].
  destruct (Hlook i k j Hi) as [l [x [G [Nl [Ns Sh]]]]].
  exists (per x). split; [rewrite nth_error_map, Ns; reflexivity |].
  assert (Gs : dict_get k (map (@stack_group pixel) raw)
               = Some (snd (stack_group (k, l)))).
  { rewrite dict_get_stacked, G. reflexivity. }
  destruct (map_groups_lookup op _ _ k _ M Gs) as [s' [O Gp]].
  rewrite Gp.
  destruct (Hop k l) as [s'' [O' P]].
  - intros C. subst l. destruct j; discriminate.
  - intros j' img Hj. apply (group_members images k l j' img G Hj).
  - assert (s'' = s') by congruence. subst s''. apply (P j x Nl).
Qed.

End GroupedProcessing.

(** ** The two passes over the shape groups *)

Section PipelineFacts.

Local Open Scope nat_scope.

Variable pixel : Type.
Variable zero : pixel.
Variable interpolation_mode : Type.
Variable F_resize :
  stacked pixel -> list Z -> option interpolation_mode -> result (stacked pixel).
Variable rescale_and_normalize :
  stacked pixel -> bool -> Q -> bool -> option (list Q) -> option (list Q) ->
  result (stacked pixel).

Lemma stacked_get_map (c h w : nat) (f : list pixel -> list pixel)
  (l : list (image pixel)) (j : nat) (img : image pixel) :
  nth_error l j = Some img ->
  stacked_get (Stacked c h w (map f (map (@pixels pixel) l))) j
  = Ok (Image c h w (f (pixels img))).
Proof.
  intros H. unfold stacked_get. cbn [s_slices s_channels s_height s_width].
  rewrite !nth_error_map, H. reflexivity.
Qed.

Lemma stack_group_fields (c h w : nat) (l : list (image pixel)) :
  snd (stack_group ((c, h, w), l)) = Stacked c h w (map (@pixels pixel) l).
Proof. reflexivity. Qed.

(** The second pass, lines 150-161, on its own. *)
Lemma rescale_grouped (images : list (image pixel))
  (do_rescale : bool) (rescale_factor : Q) (do_normalize : bool)
  (image_mean image_std : option (list Q))
  (normalize_slice : shape_key -> list pixel -> list pixel) :
  (forall s,
     rescale_and_normalize s do_rescale rescale_factor do_normalize image_mean image_std
     = Ok (Stacked (s_channels s) (s_height s) (s_width s)
             (map (normalize_slice (s_channels s, s_height s, s_width s)) (s_slices s)))) ->
  (processed <-
     map_groups (fun stacked_images =>
                   rescale_and_normalize stacked_images do_rescale rescale_factor
                     do_normalize image_mean image_std)
       (fst (group_images_by_shape images));;
   reorder_images processed (snd (group_images_by_shape images)))
  = Ok (map (fun img => Image (channels img) (height img) (width img)
                          (normalize_slice (image_shape img) (pixels img))) images).
Proof.
  intros Hn. apply grouped_apply. intros [[c h] w] l _ Hmem.
  rewrite stack_group_fields, Hn. cbn [s_channels s_height s_width s_slices].
  eexists. split; [reflexivity |].
  intros j img Hj. destruct (Hmem j img Hj) as [Sh _].
  rewrite (stacked_get_map c h w _ l j img Hj), Sh.
  unfold image_shape in Sh. injection Sh as -> -> ->. reflexivity.
Qed.

Lemma process_images_unfold (images : list (image pixel))
  (do_resize : bool) (size : SizeDict) (interpolation : option interpolation_mode)
  (do_rescale : bool) (rescale_factor : Q) (do_normalize : bool)
  (image_mean image_std : option (list Q)) (size_divisor : option Z) :
  process_images F_resize rescale_and_normalize images do_resize size interpolation
    do_rescale rescale_factor do_normalize image_mean image_std size_divisor
  = (resized_images <-
       (resized_images_grouped <-
          map_groups (resize_group F_resize do_resize size interpolation size_divisor)
            (fst (group_images_by_shape images));;
        reorder_images resized_images_grouped (snd (group_images_by_shape images)));;
     processed_images_grouped <-
       map_groups (fun stacked_images =>
                     rescale_and_normalize stacked_images do_rescale rescale_factor
                       do_normalize image_mean image_std)
         (fst (group_images_by_shape resized_images));;
     reorder_images processed_images_grouped (snd (group_images_by_shape resized_images))).
Proof.
  unfold process_images.
  destruct (group_images_by_shape images) as [g ix]. cbn [fst snd].
  destruct (map_groups _ g) as [rg |]; [| reflexivity]. cbn [bind].
  destruct (reorder_images rg ix) as [ri |]; [| reflexivity]. cbn [bind].
  destruct (group_images_by_shape ri) as [g' ix']. reflexivity.
Qed.

(** The first pass, lines 109-148, on its own. *)
Lemma resize_grouped (images : list (image pixel)) (S : Z) (size_divisor : option Z)
  (interpolation : option interpolation_mode) (target : image pixel -> Z * Z)
  (resize_slice : shape_key -> Z * Z -> list pixel -> list pixel) :
  (forall img, In img images ->
     resize_target S size_divisor (Z.of_nat (height img)) (Z.of_nat (width img))
     = Ok (target img)
     /\ (0 < fst (target img))%Z /\ (0 < snd (target img))%Z) ->
  (forall s nh nw, (0 < nh)%Z -> (0 < nw)%Z ->
     F_resize s [nh; nw] interpolation
     = Ok (Stacked (s_channels s) (Z.to_nat nh) (Z.to_nat nw)
             (map (resize_slice (s_channels s, s_height s, s_width s) (nh, nw))
                (s_slices s)))) ->
  (resized <-
     map_groups (resize_group F_resize true {| shortest_edge := Some S |} interpolation
                   size_divisor)
       (fst (group_images_by_shape images));;
   reorder_images resized (snd (group_images_by_shape images)))
  = Ok (map (fun img => Image (channels img) (Z.to_nat (fst (target img)))
                          (Z.to_nat (snd (target img)))
                          (resize_slice (image_shape img) (target img) (pixels img)))
          images).
Proof.
  intros Ht Hr. apply grouped_apply.
  intros [[c h] w] l Hne Hmem.
  destruct l as [| img0 rest] eqn:El; [contradiction |]. rewrite <- El in *.
  assert (H0 : nth_error l 0 = Some img0) by (rewrite El; reflexivity).
  destruct (Hmem 0 img0 H0) as [Sh0 In0].
  destruct (Ht img0 In0) as [T0 [P1 P2]].
  unfold image_shape in Sh0. injection Sh0 as Ec Eh Ew.
  rewrite stack_group_fields. unfold resize_group. cbn [shortest_edge bind].
  cbn [s_height s_width]. rewrite <- Eh, <- Ew, T0.
  destruct (target img0) as [nh nw] eqn:Tg. cbn [bind fst snd] in *.
  rewrite (Hr _ nh nw P1 P2). cbn [s_channels s_height s_width s_slices].
  eexists. split; [reflexivity |].
  intros j img Hj. destruct (Hmem j img Hj) as [Sh Hin].
  rewrite (stacked_get_map _ _ _ _ l j img Hj).
  destruct (Ht img Hin) as [T _].
  unfold image_shape in Sh. injection Sh as Ec' Eh' Ew'.
  assert (Et : target img = (nh, nw)).
  { rewrite Eh', Ew', <- Eh, <- Ew, T0 in T. congruence. }
  unfold image_shape. rewrite Et. cbn [fst snd].
  rewrite Ec', Eh', Ew', Eh, Ew. reflexivity.
Qed.

(** X13: lines 109-161 treat every image by itself.  When the resize
    primitive and the rescale-and-normalize step act on each slice of a
    stack separately, the processed list holds, at every position, the
    image of that position resized to the target of its shape and then
    normalized. *)
Theorem grouped_processing_is_per_image (images : list (image pixel))
  (S : Z) (size_divisor : option Z) (interpolation : option interpolation_mode)
  (do_rescale : bool) (rescale_factor : Q) (do_normalize : bool)
  (image_mean image_std : option (list Q))
  (target : image pixel -> Z * Z)
  (resize_slice : shape_key -> Z * Z -> list pixel -> list pixel)
  (normalize_slice : shape_key -> list pixel -> list pixel) :
  (forall img, In img images ->
     resize_target S size_divisor (Z.of_nat (height img)) (Z.of_nat (width img))
     = Ok (target img)
     /\ (0 < fst (target img))%Z /\ (0 < snd (target img))%Z) ->
  (forall s nh nw, (0 < nh)%Z -> (0 < nw)%Z ->
     F_resize s [nh; nw] interpolation
     = Ok (Stacked (s_channels s) (Z.to_nat nh) (Z.to_nat nw)
             (map (resize_slice (s_channels s, s_height s, s_width s) (nh, nw))
                (s_slices s)))) ->
  (forall s,
     rescale_and_normalize s do_rescale rescale_factor do_normalize image_mean image_std
     = Ok (Stacked (s_channels s) (s_height s) (s_width s)
             (map (normalize_slice (s_channels s, s_height s, s_width s)) (s_slices s)))) ->
  process_images F_resize rescale_and_normalize images true
    {| shortest_edge := Some S |} interpolation do_rescale rescale_factor do_normalize
    image_mean image_std size_divisor
  = Ok (map (fun img =>
               let new_shape :=
                 (channels img, Z.to_nat (fst (target img)), Z.to_nat (snd (target img))) in
               Image (channels img) (Z.to_nat (fst (target img)))
                 (Z.to_nat (snd (target img)))
                 (normalize_slice new_shape
                    (resize_slice (image_shape img) (target img) (pixels img))))
          images).
Proof.
  intros Ht Hr Hn. rewrite process_images_unfold.
  rewrite (resize_grouped images S size_divisor interpolation target resize_slice Ht Hr).
  cbn [bind].
  rewrite (rescale_grouped _ do_rescale rescale_factor do_normalize image_mean image_std
             normalize_slice Hn).
  rewrite map_map. reflexivity.
Qed.

(** X14: with resizing off the size and the divisor are never looked at,
    not even a missing [shortest_edge] or a divisor of 0: every image goes
    to the rescale-and-normalize step with the shape it came with, and comes
    back in its place. *)
Theorem resize_disabled_keeps_sizes (images : list (image pixel))
  (size : SizeDict) (size_divisor : option Z) (interpolation : option interpolation_mode)
  (do_rescale : bool) (rescale_factor : Q) (do_normalize : bool)
  (image_mean image_std : option (list Q))
  (normalize_slice : shape_key -> list pixel -> list pixel) :
  (forall s,
     rescale_and_normalize s do_rescale rescale_factor do_normalize image_mean image_std
     = Ok (Stacked (s_channels s) (s_height s) (s_width s)
             (map (normalize_slice (s_channels s, s_height s, s_width s)) (s_slices s)))) ->
  process_images F_resize rescale_and_normalize images false size interpolation
    do_rescale rescale_factor do_normalize image_mean image_std size_divisor
  = Ok (map (fun img => Image (channels img) (height img) (width img)
                          (normalize_slice (image_shape img) (pixels img))) images).
Proof.
  intros Hn. rewrite process_images_unfold.
  rewrite (grouped_apply pixel _ (fun img => img) images).
  - cbn [bind]. rewrite map_id. apply (rescale_grouped _ _ _ _ _ _ normalize_slice Hn).
  - intros k l _ Hmem. unfold resize_group. eexists. split; [reflexivity |].
    intros j img Hj. destruct (Hmem j img Hj) as [<- _].
    apply stacked_get_member, Hj.
Qed.

(** A batch that is not empty has a first shape group. *)
Lemma groups_nonempty (images : list (image pixel)) :
  images <> [] -> fst (group_images_by_shape images) <> [].
Proof.
  intros Hne. rewrite group_images_by_shape_unfold. cbn [fst].
  destruct (group_loop_inv pixel images [] [] [] (group_inv_nil pixel))
    as [_ _ _ _ Htotal].
  cbn [app] in Htotal. intros C. apply map_eq_nil in C. rewrite C in Htotal.
  cbn in Htotal. destruct images; [contradiction | discriminate].
Qed.

Lemma map_groups_raise (op : stacked pixel -> result (stacked pixel)) (e : exn)
  (d : dict shape_key (stacked pixel)) :
  d <> [] -> (forall s, op s = Raise e) -> map_groups op d = Raise e.
Proof.
  intros Hne H. destruct d as [| [k s] d]; [contradiction |].
  unfold map_groups. cbn [mapM snd]. rewrite H. reflexivity.
Qed.

(** X15: with resizing on and a size that has no [shortest_edge], the call
    raises [TypeError] at line 117 for every batch that is not empty. *)
Theorem missing_shortest_edge_raises (self : processor)
  (images : list (image pixel)) (interpolation : option interpolation_mode)
  (crop_size : SizeDict) (do_rescale : bool) (rescale_factor : Q) (do_normalize : bool)
  (image_mean image_std : option (list Q)) (return_tensors : option string)
  (kw : kwargs) :
  images <> [] ->
  _preprocess zero F_resize rescale_and_normalize self images true
    {| shortest_edge := None |} interpolation crop_size do_rescale rescale_factor
    do_normalize image_mean image_std return_tensors kw
  = Raise TypeError.
Proof.
  intros Hne. unfold _preprocess. cbv zeta. rewrite process_images_unfold.
  rewrite (map_groups_raise _ TypeError); [reflexivity | apply groups_nonempty, Hne |].
  intros s. reflexivity.
Qed.

End PipelineFacts.

(** ** The whole call with padding and tensors *)

Section WholeCall.

Local Open Scope nat_scope.

Variable pixel : Type.
Variable zero : pixel.
Variable interpolation_mode : Type.
Variable F_resize :
  stacked pixel -> list Z -> option interpolation_mode -> result (stacked pixel).
Variable rescale_and_normalize :
  stacked pixel -> bool -> Q -> bool -> option (list Q) -> option (list Q) ->
  result (stacked pixel).

(** X17: the whole call with resizing, padding and tensors requested.  For
    a batch that is not empty, with one channel count, positive resize
    targets and primitives that act slice by slice, [_preprocess] returns
    both keys, each a stacked tensor with one slice per image, whose height
    and width are the largest target height and the largest target width. *)
Theorem preprocess_pads_and_stacks (self : processor) (images : list (image pixel))
  (S : Z) (interpolation : option interpolation_mode) (crop_size : SizeDict)
  (do_rescale : bool) (rescale_factor : Q) (do_normalize : bool)
  (image_mean image_std : option (list Q)) (return_tensors : option string)
  (kw : kwargs) (target : image pixel -> Z * Z)
  (resize_slice : shape_key -> Z * Z -> list pixel -> list pixel)
  (normalize_slice : shape_key -> list pixel -> list pixel) :
  images <> [] ->
  is_pt return_tensors = true ->
  kwargs_get (kw_do_pad kw) (self_do_pad self) = Some true ->
  (forall a b, In a images -> In b images -> channels a = channels b) ->
  (forall img, In img images ->
     resize_target S (kwargs_get (kw_size_divisor kw) (self_size_divisor self))
       (Z.of_nat (height img)) (Z.of_nat (width img))
     = Ok (target img)
     /\ (0 < fst (target img))%Z /\ (0 < snd (target img))%Z) ->
  (forall s nh nw, (0 < nh)%Z -> (0 < nw)%Z ->
     F_resize s [nh; nw] interpolation
     = Ok (Stacked (s_channels s) (Z.to_nat nh) (Z.to_nat nw)
             (map (resize_slice (s_channels s, s_height s, s_width s) (nh, nw))
                (s_slices s)))) ->
  (forall s,
     rescale_and_normalize s do_rescale rescale_factor do_normalize image_mean image_std
     = Ok (Stacked (s_channels s) (s_height s) (s_width s)
             (map (normalize_slice (s_channels s, s_height s, s_width s)) (s_slices s)))) ->
  exists pv pm,
    _preprocess zero F_resize rescale_and_normalize self images true
      {| shortest_edge := Some S |} interpolation crop_size do_rescale rescale_factor
      do_normalize image_mean image_std return_tensors kw
    = Ok {| data := [("pixel_values"%string, ImageTensor pv);
                     ("pixel_mask"%string, MaskTensor pixel pm)];
            tensor_type := return_tensors |}
    /\ List.length (s_slices pv) = List.length images
    /\ List.length (sm_slices pm) = List.length images
    /\ s_height pv = list_max (map (fun img => Z.to_nat (fst (target img))) images)
    /\ s_width pv = list_max (map (fun img => Z.to_nat (snd (target img))) images)
    /\ sm_height pm = s_height pv
    /\ sm_width pm = s_width pv.
Proof.
  intros Hne Pt Hpad Hch Ht Hr Hn.
  assert (First : exists x0, In x0 images).
  { destruct images as [| x0 rest]; [contradiction | exists x0; left; reflexivity]. }
  destruct First as [x0 Hx0].
  unfold _preprocess. cbv zeta.
  rewrite (process_images_unfold pixel interpolation_mode F_resize rescale_and_normalize).
  rewrite (resize_grouped pixel interpolation_mode F_resize images S _ interpolation
             target resize_slice Ht Hr).
  cbn [bind].
  rewrite (rescale_grouped pixel rescale_and_normalize _ do_rescale rescale_factor
             do_normalize image_mean image_std normalize_slice Hn).
  cbn [bind]. rewrite Hpad, map_map. cbn [truthy channels height width pixels].
  set (out := map _ images).
  assert (Lo : List.length out = List.length images) by apply length_map.
  destruct (pad_images_with_template pixel zero return_tensors out Pt)
    as [padded [masks E]].
  destruct (padded_shapes pixel zero return_tensors out padded masks (channels x0) E)
    as [Sp [Sm [Lp Lm]]].
  { unfold out. intros p Hin. apply in_map_iff in Hin. destruct Hin as [img [<- Hin]].
    cbn [channels]. apply Hch; assumption. }
  assert (Np : padded <> []).
  { apply (nonempty_length images); [congruence | congruence]. }
  assert (Nm : masks <> []).
  { apply (nonempty_length images); [congruence | congruence]. }
  assert (Mx : get_max_height_width out
               = (list_max (map (fun img => Z.to_nat (fst (target img))) images),
                  list_max (map (fun img => Z.to_nat (snd (target img))) images))).
  { unfold get_max_height_width, out. rewrite !map_map. reflexivity. }
  rewrite Mx in Sp, Sm. cbn [fst snd] in Sp.
  eexists. eexists. split.
  - apply (assemble_stacked pixel zero _ _ _ _ _ _ _ Pt E Np Nm Sp Sm).
  - cbn [s_height s_width sm_height sm_width s_slices sm_slices].
    rewrite !length_map. repeat split; congruence.
Qed.

End WholeCall.

(** ** Further instances *)

Section FurtherInstances.

Local Open Scope nat_scope.

Lemma empty_side_raises_ZeroDivisionError_witness :
  resize_group blank_resize true {| shortest_edge := Some 384%Z |} None (Some 32%Z)
    (Stacked 3 0 5 [[]])
  = Raise ZeroDivisionError.
Proof.
  apply (empty_side_raises_ZeroDivisionError Z unit blank_resize 384 (Some 32%Z) None
           (Stacked 3 0 5 [[]])).
  - vm_compute. discriminate.
  - left. reflexivity.
Defined.

Lemma missing_shortest_edge_raises_witness :
  _preprocess 0%Z blank_resize keep_values ViltImageProcessorFast [gray_image 2 3] true
    {| shortest_edge := None |} None {| shortest_edge := None |} true (1 # 255) true
    None None (Some "pt"%string) {| kw_size_divisor := None; kw_do_pad := None |}
  = Raise TypeError.
Proof.
  apply (missing_shortest_edge_raises Z 0%Z unit blank_resize keep_values).
  discriminate.
Defined.

Lemma padding_keeps_content_top_left_witness :
  exists padded masks,
    pad_images 0%Z (Some "pt"%string) [gray_image 1 2; gray_image 2 1] = Ok (padded, masks)
    /\ List.length padded = 2
    /\ exists p, nth_error padded 0 = Some p
                 /\ pixel_at 0%Z p 0 0 1 = 7%Z /\ pixel_at 0%Z p 0 1 1 = 0%Z.
Proof.
  destruct (pad_images_with_template Z 0%Z (Some "pt"%string)
              [gray_image 1 2; gray_image 2 1] eq_refl) as [padded [masks E]].
  exists padded, masks. split; [exact E |].
  destruct (padding_keeps_content_top_left Z 0%Z _ _ _ _ E) as [L P].
  split; [exact L |].
  destruct (P 0 (gray_image 1 2) eq_refl) as [p [Hp [_ [_ [_ Px]]]]].
  exists p. split; [exact Hp |]. split.
  - rewrite (Px 0 0 1); [reflexivity | | |]; vm_compute; lia.
  - rewrite (Px 0 1 1); [reflexivity | | |]; vm_compute; lia.
Defined.

Lemma padded_batch_stacks_witness :
  exists pv pm,
    assemble 0%Z true (Some "pt"%string) [gray_image 1 2; gray_image 2 1]
    = Ok {| data := [("pixel_values"%string, ImageTensor pv);
                     ("pixel_mask"%string, MaskTensor Z pm)];
            tensor_type := Some "pt"%string |}
    /\ (s_height pv, s_width pv) = (2, 2)
    /\ List.length (s_slices pv) = 2.
Proof.
  destruct (padded_batch_stacks Z 0%Z (Some "pt"%string)
              [gray_image 1 2; gray_image 2 1]) as [pv [pm [E [Sz [_ [Lv _]]]]]].
  - reflexivity.
  - discriminate.
  - intros a b [<- | [<- | []]] [<- | [<- | []]]; reflexivity.
  - exists pv, pm. split; [exact E |]. split; [exact Sz | exact Lv].
Defined.

Lemma unpadded_stack_needs_one_shape_witness :
  assemble 0%Z false (Some "pt"%string) [gray_image 1 2; gray_image 2 1]
  = Raise RuntimeError.
Proof.
  apply (unpadded_stack_needs_one_shape Z 0%Z (Some "pt"%string)
           [gray_image 1 2; gray_image 2 1] eq_refl).
  right. exists (gray_image 1 2), (gray_image 2 1).
  split; [left; reflexivity |]. split; [right; left; reflexivity | discriminate].
Defined.


Lemma blank_resize_slicewise (s : stacked Z) (nh nw : Z) :
  (0 < nh)%Z -> (0 < nw)%Z ->
  blank_resize s [nh; nw] None
  = Ok (Stacked (s_channels s) (Z.to_nat nh) (Z.to_nat nw)
          (map (blank_slice (s_channels s, s_height s, s_width s) (nh, nw)) (s_slices s))).
Proof.
  intros H1 H2. unfold blank_resize.
  apply Z.ltb_lt in H1, H2. rewrite H1, H2. reflexivity.
Qed.

Lemma keep_values_slicewise (s : stacked Z) (a : bool) (q : Q) (b : bool)
  (m d : option (list Q)) :
  keep_values s a q b m d
  = Ok (Stacked (s_channels s) (s_height s) (s_width s)
          (map (fun px => px) (s_slices s))).
Proof. unfold keep_values. rewrite map_id. destruct s. reflexivity. Qed.

Lemma small_target_spec (img : image Z) :
  In img [gray_image 2 3; gray_image 3 2; gray_image 2 3] ->
  resize_target 4 (Some 2%Z) (Z.of_nat (height img)) (Z.of_nat (width img))
  = Ok (small_target img)
  /\ (0 < fst (small_target img))%Z /\ (0 < snd (small_target img))%Z.
Proof.
  intros [<- | [<- | [<- | []]]]; vm_compute; repeat split.
Qed.

Lemma grouped_processing_is_per_image_witness :
  process_images blank_resize keep_values
    [gray_image 2 3; gray_image 3 2; gray_image 2 3] true
    {| shortest_edge := Some 4%Z |} None true (1 # 255) true None None (Some 2%Z)
  = Ok [Image 1 4 6 (repeat 0%Z 24); Image 1 6 4 (repeat 0%Z 24);
        Image 1 4 6 (repeat 0%Z 24)].
Proof.
  rewrite (grouped_processing_is_per_image Z unit blank_resize keep_values
             [gray_image 2 3; gray_image 3 2; gray_image 2 3] 4 (Some 2%Z) None
             true (1 # 255) true None None small_target blank_slice
             (fun _ px => px)).
  - reflexivity.
  - exact small_target_spec.
  - exact blank_resize_slicewise.
  - intros s. apply keep_values_slicewise.
Defined.

Lemma resize_disabled_keeps_sizes_witness :
  process_images blank_resize keep_values [gray_image 2 3; gray_image 3 2] false
    {| shortest_edge := None |} None true (1 # 255) true None None (Some 0%Z)
  = Ok [gray_image 2 3; gray_image 3 2].
Proof.
  rewrite (resize_disabled_keeps_sizes Z unit blank_resize keep_values
             [gray_image 2 3; gray_image 3 2] {| shortest_edge := None |} (Some 0%Z)
             None true (1 # 255) true None None (fun _ px => px)).
  - reflexivity.
  - intros s. apply keep_values_slicewise.
Defined.

Lemma preprocess_pads_and_stacks_witness :
  exists pv pm,
    small_run (Some "pt"%string) [gray_image 2 3; gray_image 3 2; gray_image 2 3]
    = Ok {| data := [("pixel_values"%string, ImageTensor pv);
                     ("pixel_mask"%string, MaskTensor Z pm)];
            tensor_type := Some "pt"%string |}
    /\ List.length (s_slices pv) = 3
    /\ s_height pv = 6 /\ s_width pv = 6.
Proof.
  destruct (preprocess_pads_and_stacks Z 0%Z unit blank_resize keep_values
              ViltImageProcessorFast [gray_image 2 3; gray_image 3 2; gray_image 2 3]
              4 None {| shortest_edge := None |} true (1 # 255) true None None
              (Some "pt"%string)
              {| kw_size_divisor := Some (Some 2%Z); kw_do_pad := None |}
              small_target blank_slice (fun _ px => px))
    as [pv [pm [E [Lv [_ [Eh [Ew _]]]]]]].
  - discriminate.
  - reflexivity.
  - reflexivity.
  - intros a b [<- | [<- | [<- | []]]] [<- | [<- | [<- | []]]]; reflexivity.
  - exact small_target_spec.
  - exact blank_resize_slicewise.
  - intros s. apply keep_values_slicewise.
  - exists pv, pm. split; [exact E |]. split; [exact Lv |]. split; [exact Eh | exact Ew].
Defined.

Lemma mixed_channels_fail_on_stacking_witness :
  assemble 0%Z true (Some "pt"%string) [Image 1 1 1 [7%Z]; Image 3 1 1 [7%Z; 7%Z; 7%Z]]
  = Raise RuntimeError.
Proof.
  apply (mixed_channels_fail_on_stacking Z 0%Z (Some "pt"%string)
           [Image 1 1 1 [7%Z]; Image 3 1 1 [7%Z; 7%Z; 7%Z]] eq_refl).
  exists (Image 1 1 1 [7%Z]), (Image 3 1 1 [7%Z; 7%Z; 7%Z]).
  split; [left; reflexivity |]. split; [right; left; reflexivity | discriminate].
Defined.

(** With a divisor of -48 the resizer asks for 96 x 672, above the bound
    of 640 + 1, and the call resizes. *)
Lemma negative_divisor_exceeds_bound :
  resize_group blank_resize true {| shortest_edge := Some 384%Z |} None
    (Some (-48)%Z) (Stacked 3 100 1000 [])
  = Ok (Stacked 3 96 672 [])
  /\ resize_target 384 (Some (-48)%Z) 100 1000 = Ok (96, 672)%Z
  /\ (spec_longer_edge 384 + 1 < Z.max 96 672)%Z.
Proof. repeat split; vm_compute; reflexivity. Qed.

End FurtherInstances.
